(** * openmodul: rhythm scheduler, loop recorder and WAV / MIDI exporters

  A shallow embedding of [rhythm.js] (the look-ahead drum scheduler with its
  count-in hook) and [recorder.js] (the loop recorder state machine and the
  two exporters), followed by the properties established about them.

  Conventions of the embedding
  - JavaScript numbers that hold times, tempi, volumes and audio samples are
    rationals ([Q]); integer-valued numbers are [Z].  [NaN] is tracked only
    where the code itself can produce it (a read past the end of a typed
    array).  Floating-point rounding of the arithmetic is not modelled.
  - Byte arrays ([ArrayBuffer], [Uint8Array], plain arrays of byte values)
    are [list Z].
  - Closures handed to [setTimeout] or to [Rhythm.startCountIn] are
    defunctionalised into constructors of small inductive types.
  - DOM updates ([updateUI], [drawTimeline], the beat indicator) have no
    influence on the modelled state and are left out. *)

From Stdlib Require Import ZArith QArith Qround List String Ascii Lia Lqa Bool.
From stdpp Require Import base option list gmap strings.
Import ListNotations.
Open Scope Z_scope.

(** ** JavaScript number conversions and bit operations *)

Module JS.

(** A number that may be [NaN]. *)
Inductive num : Type :=
| NaN
| Num (q : Q).

Definition Qltb (a b : Q) : bool := Qnum a * QDen b <? Qnum b * QDen a.

(** [ToIntegerOrInfinity] on a finite number: truncation toward zero. *)
Definition trunc (q : Q) : Z := Z.quot (Qnum q) (QDen q).

Definition toUint8 (z : Z) : Z := z mod 256.
Definition toUint16 (z : Z) : Z := z mod 65536.
Definition toUint32 (z : Z) : Z := z mod 4294967296.

Definition toInt16 (z : Z) : Z :=
  let m := z mod 65536 in if m <? 32768 then m else m - 65536.

Definition toInt32 (z : Z) : Z :=
  let m := z mod 4294967296 in if m <? 2147483648 then m else m - 4294967296.

(** [a & b], [a | b], [a >> n] on integer-valued numbers. *)
Definition band (a b : Z) : Z := Z.land (toInt32 a) (toInt32 b).
Definition bor (a b : Z) : Z := Z.lor (toInt32 a) (toInt32 b).
Definition sar (a n : Z) : Z := Z.shiftr (toInt32 a) n.

(** [Math.round]: nearest integer, ties toward +infinity. *)
Definition round (q : Q) : Z := Qfloor (q + (1 # 2)).

(** [Math.min(a, x)], [Math.max(a, x)] with a finite first argument. *)
Definition min (a : Q) (x : num) : num :=
  match x with
  | NaN => NaN
  | Num q => Num (if Qltb q a then q else a)
  end.

Definition max (a : Q) (x : num) : num :=
  match x with
  | NaN => NaN
  | Num q => Num (if Qltb a q then q else a)
  end.

(** [x < a]: false on [NaN]. *)
Definition ltb (x : num) (a : Q) : bool :=
  match x with
  | NaN => false
  | Num q => Qltb q a
  end.

Definition mul (x : num) (a : Q) : num :=
  match x with
  | NaN => NaN
  | Num q => Num (q * a)
  end.

(** Integer part handed to the typed-array setters: [NaN] becomes 0. *)
Definition toInteger (x : num) : Z :=
  match x with
  | NaN => 0
  | Num q => trunc q
  end.

End JS.

(** ** DataView over an ArrayBuffer *)

Module DataView.

(** The bytes of the underlying buffer.  A write that does not fit raises
    a [RangeError], rendered as [None]. *)
Abbreviation t := (list Z).

Definition create (byteLength : nat) : t := repeat 0 byteLength.

Definition setUint8 (view : t) (off : nat) (v : Z) : option t :=
  if (off + 1 <=? length view)%nat
  then Some (<[off := JS.toUint8 v]> view)
  else None.

Definition put16 (view : t) (off : nat) (w : Z) (littleEndian : bool) : t :=
  let lo := w mod 256 in
  let hi := (w / 256) mod 256 in
  if littleEndian
  then <[(off + 1)%nat := hi]> (<[off := lo]> view)
  else <[(off + 1)%nat := lo]> (<[off := hi]> view).

Definition setUint16 (view : t) (off : nat) (v : Z) (littleEndian : bool)
  : option t :=
  if (off + 2 <=? length view)%nat
  then Some (put16 view off (JS.toUint16 v) littleEndian)
  else None.

(** [setInt16] stores the two's complement of the truncated value, whose
    low sixteen bits are those of the value itself. *)
Definition setInt16 (view : t) (off : nat) (v : JS.num) (littleEndian : bool)
  : option t :=
  if (off + 2 <=? length view)%nat
  then Some (put16 view off (JS.toUint16 (JS.toInteger v)) littleEndian)
  else None.

Definition setUint32 (view : t) (off : nat) (v : Z) (littleEndian : bool)
  : option t :=
  if (off + 4 <=? length view)%nat
  then
    let w := JS.toUint32 v in
    let b0 := w mod 256 in
    let b1 := (w / 256) mod 256 in
    let b2 := (w / 65536) mod 256 in
    let b3 := (w / 16777216) mod 256 in
    Some (if littleEndian
          then <[(off + 3)%nat := b3]> (<[(off + 2)%nat := b2]>
                 (<[(off + 1)%nat := b1]> (<[off := b0]> view)))
          else <[(off + 3)%nat := b0]> (<[(off + 2)%nat := b1]>
                 (<[(off + 1)%nat := b2]> (<[off := b3]> view))))
  else None.

(** Little-endian readers, used to state what a consumer of the file
    decodes. *)
Definition byteAt (view : t) (off : nat) : Z := nth off view 0.

Definition getUint16 (view : t) (off : nat) : Z :=
  byteAt view off + 256 * byteAt view (off + 1).

Definition getInt16 (view : t) (off : nat) : Z :=
  JS.toInt16 (getUint16 view off).

Definition getUint32 (view : t) (off : nat) : Z :=
  byteAt view off + 256 * byteAt view (off + 1)
  + 65536 * byteAt view (off + 2) + 16777216 * byteAt view (off + 3).

Definition getString (view : t) (off len : nat) : list Z :=
  firstn len (skipn off view).

End DataView.

(** ** Closures that cross module boundaries *)

Module Closure.

(** The stream returned by [Audio.getMediaStream()]. *)
Inductive Stream : Type := MediaStream (id : nat).

(** The callback the recorder hands to [Rhythm.startCountIn]:
    [() => { actuallyStartRecording(stream); }]. *)
Inductive Callback : Type := ActuallyStartRecording (stream : Stream).

(** The closure stored in [countInCallback]:
    [() => { if (!wasMetronomeOn) metronomeOn = false; callback(); }]. *)
Record CountIn : Type := { wasMetronomeOn : bool; callback : Callback }.

End Closure.

(** ** rhythm.js: patterns and the look-ahead scheduler *)

Module Rhythm.

Record Pattern : Type := {
  steps : Z;
  timeSignature : string;
  kick : list Z;
  snare : list Z;
  hihat : list Z;
  ohihat : list Z;
  clap : list Z;
  rim : list Z
}.

Definition mk44 (k s h o c r : list Z) : Pattern :=
  {| steps := 16; timeSignature := "4/4";
     kick := k; snare := s; hihat := h; ohihat := o; clap := c; rim := r |}.

(** The entries of [PATTERNS] in source order (the order of
    [getPatternNames]). *)
Definition PATTERN_ENTRIES : list (string * Pattern) :=
  [ ("rock"%string, mk44
      [1;0;0;0; 0;0;0;0; 1;0;0;0; 0;0;0;0]
      [0;0;0;0; 1;0;0;0; 0;0;0;0; 1;0;0;0]
      [1;0;1;0; 1;0;1;0; 1;0;1;0; 1;0;1;0]
      [0;0;0;0; 0;0;0;0; 0;0;0;0; 0;0;0;1]
      [0;0;0;0; 0;0;0;0; 0;0;0;0; 0;0;0;0]
      [0;0;0;0; 0;0;0;0; 0;0;0;0; 0;0;0;0]);
    ("16beat"%string, mk44
      [1;0;0;0; 0;0;0;0; 1;0;1;0; 0;0;0;0]
      [0;0;0;0; 1;0;0;0; 0;0;0;0; 1;0;0;0]
      [1;1;1;1; 1;1;1;1; 1;1;1;1; 1;1;1;1]
      [0;0;0;0; 0;0;0;0; 0;0;0;0; 0;0;0;0]
      [0;0;0;0; 0;0;0;0; 0;0;0;0; 0;0;0;0]
      [0;0;0;0; 0;0;1;0; 0;0;0;0; 0;0;1;0]);
    ("waltz"%string,
      {| steps := 12; timeSignature := "3/4";
         kick   := [1;0;0;0; 0;0;0;0; 0;0;0;0];
         snare  := [0;0;0;0; 1;0;0;0; 1;0;0;0];
         hihat  := [1;0;1;0; 1;0;1;0; 1;0;1;0];
         ohihat := [0;0;0;0; 0;0;0;0; 0;0;0;0];
         clap   := [0;0;0;0; 0;0;0;0; 0;0;0;0];
         rim    := [0;0;0;0; 0;0;0;0; 0;0;0;0] |});
    ("bossa"%string, mk44
      [1;0;0;0; 0;0;1;0; 0;0;1;0; 0;0;0;0]
      [0;0;0;0; 0;0;0;0; 0;0;0;0; 0;0;0;0]
      [1;0;1;0; 1;0;1;0; 1;0;1;0; 1;0;1;0]
      [0;0;0;0; 0;0;0;0; 0;0;0;0; 0;0;0;0]
      [0;0;0;0; 0;0;0;0; 0;0;0;0; 0;0;0;0]
      [0;0;0;1; 0;0;0;1; 0;0;0;1; 0;0;0;1]);
    ("samba"%string, mk44
      [1;0;0;0; 0;0;1;0; 1;0;0;0; 0;0;1;0]
      [0;0;0;0; 1;0;0;1; 0;0;0;0; 1;0;0;1]
      [1;1;1;1; 1;1;1;1; 1;1;1;1; 1;1;1;1]
      [0;0;0;0; 0;0;0;0; 0;0;0;0; 0;0;0;0]
      [0;0;0;0; 0;0;0;0; 0;0;0;0; 0;0;0;0]
      [0;1;0;1; 0;0;0;1; 0;1;0;1; 0;0;0;1]);
    ("swing"%string, mk44
      [1;0;0;0; 0;0;0;0; 1;0;0;0; 0;0;0;0]
      [0;0;0;0; 1;0;0;0; 0;0;0;0; 1;0;0;0]
      [1;0;0;1; 0;0;1;0; 0;1;0;0; 1;0;0;1]
      [0;0;0;0; 0;0;0;0; 0;0;0;0; 0;0;0;0]
      [0;0;0;0; 0;0;0;0; 0;0;0;0; 0;0;0;0]
      [0;0;1;0; 0;0;0;0; 0;0;1;0; 0;0;0;0]);
    ("march"%string, mk44
      [1;0;0;0; 1;0;0;0; 1;0;0;0; 1;0;0;0]
      [0;0;1;0; 0;0;1;0; 0;0;1;0; 0;0;1;0]
      [1;0;1;0; 1;0;1;0; 1;0;1;0; 1;0;1;0]
      [0;0;0;0; 0;0;0;0; 0;0;0;0; 0;0;0;0]
      [0;0;0;0; 0;0;0;0; 0;0;0;0; 0;0;0;0]
      [0;0;0;0; 0;0;0;0; 0;0;0;0; 0;0;0;1]);
    ("disco"%string, mk44
      [1;0;0;0; 1;0;0;0; 1;0;0;0; 1;0;0;0]
      [0;0;0;0; 1;0;0;0; 0;0;0;0; 1;0;0;0]
      [1;1;1;1; 1;1;1;1; 1;1;1;1; 1;1;1;1]
      [0;0;0;1; 0;0;0;1; 0;0;0;1; 0;0;0;1]
      [0;0;0;0; 1;0;0;0; 0;0;0;0; 1;0;0;0]
      [0;0;0;0; 0;0;0;0; 0;0;0;0; 0;0;0;0]) ].

Definition PATTERNS : gmap string Pattern := list_to_map PATTERN_ENTRIES.

Definition SCHEDULE_AHEAD : Q := 1 # 10.
Definition LOOKAHEAD_MS : Z := 25.

(** The module-level variables of [Rhythm].  [lookaheadTimer] records
    whether the [setInterval] handle is armed. *)
Record t : Type := mk {
  playing : bool;
  tempo : Q;
  volume : Q;
  currentStep : Z;
  currentPattern : string;
  lookaheadTimer : bool;
  nextStepTime : Q;
  metronomeOn : bool;
  countInCallback : option Closure.CountIn;
  countInStep : Z
}.

Definition initial : t :=
  {| playing := false; tempo := 120 # 1; volume := 6 # 10; currentStep := 0;
     currentPattern := "rock"; lookaheadTimer := false; nextStepTime := 0 # 1;
     metronomeOn := false; countInCallback := None; countInStep := -1 |}.

Definition set_playing (b : bool) (r : t) : t :=
  mk b (tempo r) (volume r) (currentStep r) (currentPattern r)
     (lookaheadTimer r) (nextStepTime r) (metronomeOn r)
     (countInCallback r) (countInStep r).
Definition set_tempo (x : Q) (r : t) : t :=
  mk (playing r) x (volume r) (currentStep r) (currentPattern r)
     (lookaheadTimer r) (nextStepTime r) (metronomeOn r)
     (countInCallback r) (countInStep r).
Definition set_volume (x : Q) (r : t) : t :=
  mk (playing r) (tempo r) x (currentStep r) (currentPattern r)
     (lookaheadTimer r) (nextStepTime r) (metronomeOn r)
     (countInCallback r) (countInStep r).
Definition set_currentStep (x : Z) (r : t) : t :=
  mk (playing r) (tempo r) (volume r) x (currentPattern r)
     (lookaheadTimer r) (nextStepTime r) (metronomeOn r)
     (countInCallback r) (countInStep r).
Definition set_currentPattern (x : string) (r : t) : t :=
  mk (playing r) (tempo r) (volume r) (currentStep r) x
     (lookaheadTimer r) (nextStepTime r) (metronomeOn r)
     (countInCallback r) (countInStep r).
Definition set_lookaheadTimer (x : bool) (r : t) : t :=
  mk (playing r) (tempo r) (volume r) (currentStep r) (currentPattern r)
     x (nextStepTime r) (metronomeOn r)
     (countInCallback r) (countInStep r).
Definition set_nextStepTime (x : Q) (r : t) : t :=
  mk (playing r) (tempo r) (volume r) (currentStep r) (currentPattern r)
     (lookaheadTimer r) x (metronomeOn r)
     (countInCallback r) (countInStep r).
Definition set_metronomeOn (x : bool) (r : t) : t :=
  mk (playing r) (tempo r) (volume r) (currentStep r) (currentPattern r)
     (lookaheadTimer r) (nextStepTime r) x
     (countInCallback r) (countInStep r).
Definition set_countIn (cb : option Closure.CountIn) (n : Z) (r : t) : t :=
  mk (playing r) (tempo r) (volume r) (currentStep r) (currentPattern r)
     (lookaheadTimer r) (nextStepTime r) (metronomeOn r) cb n.

(** One step = one 16th note. *)
Definition getStepDuration (r : t) : Q := (60 # 1) / tempo r / (4 # 1).

(** [PATTERNS[currentPattern]?.steps || 16] *)
Definition getPatternSteps (r : t) : Z :=
  match PATTERNS !! currentPattern r with
  | Some p => if steps p =? 0 then 16 else steps p
  | None => 16
  end.

(** Calls made to the voice player while one step is scheduled. *)
Inductive AudioCall : Type :=
| PlayMetronomeClick (time : Q) (accent : bool)
| PlayKick (time vol : Q)
| PlaySnare (time vol : Q)
| PlayHihat (time : Q) (open : bool) (vol : Q)
| PlayClap (time vol : Q)
| PlayRim (time vol : Q).

(** [MIDI.sendNoteOn(channel, note, velocity)] *)
Record NoteOn : Type := { noChannel : Z; noNote : Z; noVelocity : Z }.

(** What one call [scheduleStep(step, time)] dispatched; [slTimeout] is the
    count-in closure handed to [setTimeout(cb, 0)], if any. *)
Record StepLog : Type := {
  slStep : Z;
  slTime : Q;
  slAudio : list AudioCall;
  slMidi : list NoteOn;
  slTimeout : option Closure.CountIn
}.

(** [arr[step]] used as a condition. *)
Definition hit (arr : list Z) (step : Z) : bool :=
  if step <? 0 then false
  else match arr !! Z.to_nat step with
       | Some v => negb (v =? 0)
       | None => false
       end.

Definition when {A : Type} (c : bool) (x : A) : list A :=
  if c then [x] else [].

Definition scheduleStep (r : t) (step : Z) (time : Q) : t * StepLog :=
  match PATTERNS !! currentPattern r with
  | None =>
      (r, {| slStep := step; slTime := time; slAudio := []; slMidi := [];
             slTimeout := None |})
  | Some p =>
      let stepsPerBeat := 4 in
      let click :=
        when (metronomeOn r && (Z.rem step stepsPerBeat =? 0))
             (PlayMetronomeClick time (step =? 0)) in
      let vol := volume r in
      let audio :=
        click
        ++ when (hit (kick p) step) (PlayKick time vol)
        ++ when (hit (snare p) step) (PlaySnare time (vol * (8 # 10)))
        ++ when (hit (hihat p) step) (PlayHihat time false (vol * (5 # 10)))
        ++ when (hit (ohihat p) step) (PlayHihat time true (vol * (5 # 10)))
        ++ when (hit (clap p) step) (PlayClap time (vol * (6 # 10)))
        ++ when (hit (rim p) step) (PlayRim time (vol * (5 # 10))) in
      let note n k :=
        {| noChannel := 10; noNote := n;
           noVelocity := JS.round (vol * inject_Z k) |} in
      let midi :=
        when (hit (kick p) step) (note 36 100)
        ++ when (hit (snare p) step) (note 38 80)
        ++ when (hit (hihat p) step) (note 42 60)
        ++ when (hit (ohihat p) step) (note 46 60)
        ++ when (hit (clap p) step) (note 39 70)
        ++ when (hit (rim p) step) (note 37 60) in
      let entry fired :=
        {| slStep := step; slTime := time; slAudio := audio; slMidi := midi;
           slTimeout := fired |} in
      match countInCallback r with
      | Some cb =>
          if step =? 0 then
            if 0 <? countInStep r
            then (set_countIn (Some cb) (countInStep r - 1) r, entry None)
            else (set_countIn None (-1) r, entry (Some cb))
          else (r, entry None)
      | None => (r, entry None)
      end
  end.

(** One iteration of the [while] loop of [scheduler]. *)
Definition schedulerIteration (r : t) : t * StepLog :=
  let '(r1, entry) := scheduleStep r (currentStep r) (nextStepTime r) in
  let r2 := set_nextStepTime (nextStepTime r1 + getStepDuration r1) r1 in
  let r3 :=
    set_currentStep (Z.rem (currentStep r2 + 1) (getPatternSteps r2)) r2 in
  (r3, entry).

(** The loop of [scheduler]; [None] when the fuel runs out before the loop
    condition turns false. *)
Fixpoint schedulerLoop (fuel : nat) (currentTime : Q) (r : t)
  : option (t * list StepLog) :=
  if JS.Qltb (nextStepTime r) (currentTime + SCHEDULE_AHEAD) then
    match fuel with
    | O => None
    | S fuel' =>
        let '(r', entry) := schedulerIteration r in
        match schedulerLoop fuel' currentTime r' with
        | Some (r'', log) => Some (r'', entry :: log)
        | None => None
        end
    end
  else Some (r, []).

(** Iterations that cover the gap between [nextStepTime] and the end of
    the look-ahead window at the current step duration. *)
Definition stepsDue (currentTime : Q) (r : t) : nat :=
  Z.to_nat
    (Qceiling ((currentTime + SCHEDULE_AHEAD - nextStepTime r)
               / getStepDuration r)).

(** [scheduler()]: [ctx] is [Audio.getContext()], [None] when there is no
    audio context, otherwise its [currentTime]. *)
Definition scheduler (ctx : option Q) (r : t) : option (t * list StepLog) :=
  match ctx with
  | None => Some (r, [])
  | Some currentTime => schedulerLoop (stepsDue currentTime r) currentTime r
  end.

Definition start (ctx : option Q) (r : t) : t :=
  if playing r then r
  else match ctx with
       | None => r
       | Some currentTime =>
           set_lookaheadTimer true
             (set_nextStepTime currentTime
                (set_currentStep 0 (set_playing true r)))
       end.

Definition stop (r : t) : t :=
  if negb (playing r) then r
  else set_currentStep 0 (set_lookaheadTimer false (set_playing false r)).

Definition toggle (ctx : option Q) (r : t) : t * bool :=
  let r' := if playing r then stop r else start ctx r in
  (r', playing r').

Definition setTempo (bpm : Q) (r : t) : t :=
  let m := if JS.Qltb bpm (200 # 1) then bpm else 200 # 1 in
  set_tempo (if JS.Qltb (60 # 1) m then m else 60 # 1) r.

Definition getTempo (r : t) : Q := tempo r.

Definition setVolume (val : Q) (r : t) : t :=
  let m := if JS.Qltb val (1 # 1) then val else 1 # 1 in
  set_volume (if JS.Qltb (0 # 1) m then m else 0 # 1) r.

Definition setPattern (name : string) (r : t) : t :=
  match PATTERNS !! name with
  | Some _ =>
      let r1 := set_currentPattern name r in
      if playing r1
      then set_currentStep (Z.rem (currentStep r1) (getPatternSteps r1)) r1
      else r1
  | None => r
  end.

Definition isPlaying (r : t) : bool := playing r.
Definition getCurrentStep (r : t) : Z := currentStep r.
Definition getPatternNames : list string := PATTERN_ENTRIES.*1.

Definition toggleMetronome (r : t) : t * bool :=
  let r' := set_metronomeOn (negb (metronomeOn r)) r in
  (r', metronomeOn r').

Definition isMetronomeOn (r : t) : bool := metronomeOn r.

(** [startCountIn(beatsCount, callback)]; [beatsCount] is not used by the
    source. *)
Definition startCountIn (callback : Closure.Callback) (ctx : option Q)
    (r : t) : t :=
  let wasMetronomeOn := metronomeOn r in
  let r1 := set_metronomeOn true r in
  let wasPlaying := playing r1 in
  let r2 := if negb (playing r1) then start ctx r1 else r1 in
  set_countIn
    (Some {| Closure.wasMetronomeOn := wasMetronomeOn;
             Closure.callback := callback |})
    (if wasPlaying then 0 else 1) r2.

(** The part of the count-in closure that touches the scheduler:
    [if (!wasMetronomeOn) metronomeOn = false;]. *)
Definition runCountIn (c : Closure.CountIn) (r : t) : t :=
  if negb (Closure.wasMetronomeOn c) then set_metronomeOn false r else r.

Definition getBeatsPerBar (r : t) : Z :=
  match PATTERNS !! currentPattern r with
  | None => 4
  | Some p => if String.eqb (timeSignature p) "3/4" then 3 else 4
  end.

Definition getBarDuration (r : t) : Q :=
  inject_Z (getBeatsPerBar r) * ((60 # 1) / tempo r).

(** The interval timer: [scheduler] runs only while the handle is armed. *)
Definition tick (ctx : option Q) (r : t) : option (t * list StepLog) :=
  if lookaheadTimer r then scheduler ctx r else Some (r, []).

(** A run of the interval timer at the given clock readings, with nothing
    else touching the scheduler in between; the log collects every call of
    [scheduleStep] in order. *)
Fixpoint ticks (clock : list Q) (r : t) : option (t * list StepLog) :=
  match clock with
  | [] => Some (r, [])
  | now :: rest =>
      match tick (Some now) r with
      | Some (r', log) =>
          match ticks rest r' with
          | Some (r'', log') => Some (r'', log ++ log')
          | None => None
          end
      | None => None
      end
  end.

End Rhythm.

(** ** recorder.js: the exporters *)

Module Exporter.

(** *** Logged events *)

(** The [midi] property of a logged event: [Strings] logs a note number,
    the chord pads log the array [chord.padMidi]. *)
Inductive MidiField : Type :=
| MidiNote (n : Z)
| MidiNotes (ns : list Z).

(** [{ time, type, ...data }]; only the properties the exporter reads are
    kept from [data]. *)
Record Event : Type := {
  time : Q;
  type : string;
  channel : option Z;
  midi : option MidiField;
  velocity : option Z
}.

(** [ToNumber] of the [midi] property followed by [ToInt32]: an array is
    converted through its string form, so only a one-element array keeps a
    number and every other array gives [NaN], hence 0. *)
Definition midiNumber (m : MidiField) : Z :=
  match m with
  | MidiNote n => n
  | MidiNotes [n] => n
  | MidiNotes _ => 0
  end.

(** [x || d] on an optional integer property. *)
Definition orDefault (x : option Z) (d : Z) : Z :=
  match x with
  | Some v => if v =? 0 then d else v
  | None => d
  end.

(** *** MIDI *)

(** The [while (value > 0)] loop of [writeVarLen]. *)
Fixpoint varLenLoop (fuel : nat) (value : Z) (bytes : list Z)
  : option (list Z) :=
  if 0 <? value then
    match fuel with
    | O => None
    | S fuel' =>
        let v := JS.bor (JS.band value 0x7F) 0x80 in
        varLenLoop fuel' (JS.sar value 7) (v :: bytes)
    end
  else Some bytes.

Definition writeVarLen (value : Z) : option (list Z) :=
  let v := JS.band value 0x7F in
  varLenLoop 32 (JS.sar value 7) [v].

(** [[...events].sort((a, b) => a.time - b.time)]: a stable sort of a copy. *)
Fixpoint insertByTime (e : Event) (l : list Event) : list Event :=
  match l with
  | [] => [e]
  | x :: rest =>
      if JS.Qltb (time x) (time e)
      then x :: insertByTime e rest
      else e :: x :: rest
  end.

Definition sortByTime (events : list Event) : list Event :=
  foldr insertByTime [] events.

Definition ticksPerBeat : Z := 480.

Definition msPerTick (tempo : Q) : Q :=
  ((60000 # 1) / tempo) / inject_Z ticksPerBeat.

(** The body of [sorted.forEach]; the accumulator is [(lastTick, trackData)]. *)
Definition emitEvent (tempo : Q) (acc : Z * list Z) (evt : Event)
  : option (Z * list Z) :=
  let '(lastTick, trackData) := acc in
  match midi evt with
  | None => Some acc
  | Some m =>
      let tick := JS.round (time evt / msPerTick tempo) in
      let delta := tick - lastTick in
      deltaBytes ← writeVarLen delta;
      let channel := orDefault (channel evt) 1 - 1 in
      let noteOn :=
        [JS.bor 0x90 channel; JS.band (midiNumber m) 0x7F;
         JS.band (orDefault (velocity evt) 64) 0x7F] in
      let noteDur := JS.round ((200 # 1) / msPerTick tempo) in
      durBytes ← writeVarLen noteDur;
      let noteOff :=
        [JS.bor 0x80 channel; JS.band (midiNumber m) 0x7F; 0] in
      Some (tick, trackData ++ deltaBytes ++ noteOn ++ durBytes ++ noteOff)
  end.

Fixpoint emitEvents (tempo : Q) (acc : Z * list Z) (sorted : list Event)
  : option (Z * list Z) :=
  match sorted with
  | [] => Some acc
  | evt :: rest =>
      acc' ← emitEvent tempo acc evt;
      emitEvents tempo acc' rest
  end.

(** [buildMidiFile(events, durationMs)], with [tempo] the value of
    [Rhythm.getTempo()] at the call. *)
Definition buildMidiFile (tempo : Q) (events : list Event) (durationMs : Q)
  : option (list Z) :=
  let sorted := sortByTime events in
  '(_, notes) ← emitEvents tempo (0, []) sorted;
  let trackData := notes ++ [0x00; 0xFF; 0x2F; 0x00] in
  let tempoMicro := JS.round ((60000000 # 1) / tempo) in
  let tempoBytes :=
    [0x00; 0xFF; 0x51; 0x03;
     JS.band (JS.sar tempoMicro 16) 0xFF;
     JS.band (JS.sar tempoMicro 8) 0xFF;
     JS.band tempoMicro 0xFF] in
  let fullTrack := tempoBytes ++ trackData in
  let header :=
    [0x4D; 0x54; 0x68; 0x64;
     0x00; 0x00; 0x00; 0x06;
     0x00; 0x00;
     0x00; 0x01;
     JS.band (JS.sar ticksPerBeat 8) 0xFF; JS.band ticksPerBeat 0xFF] in
  let len := Z.of_nat (length fullTrack) in
  let trackHeader :=
    [0x4D; 0x54; 0x72; 0x6B;
     JS.band (JS.sar len 24) 0xFF;
     JS.band (JS.sar len 16) 0xFF;
     JS.band (JS.sar len 8) 0xFF;
     JS.band len 0xFF] in
  Some (JS.toUint8 <$> (header ++ trackHeader ++ fullTrack)).

(** *** WAV *)

(** A decoded [AudioBuffer]: [numberOfChannels] is the number of channel
    arrays it holds. *)
Record AudioBuffer : Type := {
  sampleRate : Z;
  channels : list (list JS.num)
}.

Definition numberOfChannels (buffer : AudioBuffer) : Z :=
  Z.of_nat (length (channels buffer)).

(** [getChannelData(c)] raises an [IndexSizeError] past the last channel. *)
Definition getChannelData (buffer : AudioBuffer) (c : nat)
  : option (list JS.num) :=
  channels buffer !! c.

(** Reading a [Float32Array] element to store it in another one: past the
    end the value is [undefined], stored as [NaN]. *)
Definition f32At (arr : list JS.num) (i : nat) : JS.num :=
  match arr !! i with
  | Some x => x
  | None => JS.NaN
  end.

(** The interleaving loop over a zero-filled [Float32Array]; a typed array
    ignores a store past its end. *)
Definition interleave (left right : list JS.num) : list JS.num :=
  foldl
    (fun arr i =>
       <[(i * 2 + 1)%nat := f32At right i]>
         (<[(i * 2)%nat := f32At left i]> arr))
    (repeat (JS.Num (0 # 1)) (length left + length right))
    (seq 0 (length left)).

(** What is passed to [setInt16] for one sample. *)
Definition scaleSample (x : JS.num) : JS.num :=
  let s := JS.max (- (1 # 1)) (JS.min (1 # 1) x) in
  if JS.ltb s (0 # 1) then JS.mul s (0x8000 # 1) else JS.mul s (0x7FFF # 1).

Fixpoint writeSamples (samples : list JS.num) (offset : nat)
    (view : DataView.t) : option DataView.t :=
  match samples with
  | [] => Some view
  | x :: rest =>
      view' ← DataView.setInt16 view offset (scaleSample x) true;
      writeSamples rest (offset + 2) view'
  end.

Fixpoint writeChars (view : DataView.t) (offset : nat) (chars : list ascii)
  : option DataView.t :=
  match chars with
  | [] => Some view
  | c :: rest =>
      view' ← DataView.setUint8 view offset (Z.of_nat (nat_of_ascii c));
      writeChars view' (offset + 1) rest
  end.

Definition writeString (view : DataView.t) (offset : nat) (s : string)
  : option DataView.t :=
  writeChars view offset (list_ascii_of_string s).

Definition audioBufferToWav (buffer : AudioBuffer) : option (list Z) :=
  let numChannels := numberOfChannels buffer in
  let sampleRate := sampleRate buffer in
  let format := 1 in
  let bitsPerSample := 16 in
  interleaved ←
    (if numChannels =? 2 then
       left ← getChannelData buffer 0;
       right ← getChannelData buffer 1;
       Some (interleave left right)
     else getChannelData buffer 0);
  let dataLength := (length interleaved * 2)%nat in
  let headerLength := 44%nat in
  let view := DataView.create (headerLength + dataLength) in
  view ← writeString view 0 "RIFF";
  view ← DataView.setUint32 view 4 (36 + Z.of_nat dataLength) true;
  view ← writeString view 8 "WAVE";
  view ← writeString view 12 "fmt ";
  view ← DataView.setUint32 view 16 16 true;
  view ← DataView.setUint16 view 20 format true;
  view ← DataView.setUint16 view 22 numChannels true;
  view ← DataView.setUint32 view 24 sampleRate true;
  view ← DataView.setUint32 view 28
           (sampleRate * numChannels * bitsPerSample / 8) true;
  view ← DataView.setUint16 view 32 (numChannels * bitsPerSample / 8) true;
  view ← DataView.setUint16 view 34 bitsPerSample true;
  view ← writeString view 36 "data";
  view ← DataView.setUint32 view 40 (Z.of_nat dataLength) true;
  writeSamples interleaved 44 view.

End Exporter.

(** ** recorder.js: the loop recorder *)

Module Recorder.

Import Closure Exporter.

Inductive State : Type :=
| Idle
| CountingIn
| Recording
| Overdub
| Playing.

(** A captured [Blob]: the sizes of the chunks it was built from. *)
Record Blob : Type := { parts : list Z; mime : string }.

Record Layer : Type := { blob : Blob; events : list Event }.

(** The two handlers installed as [mediaRecorder.onstop]. *)
Inductive OnStop : Type :=
| OnRecordingStop
| OnOverdubStop.

(** The [MediaRecorder] held in [mediaRecorder]; [mrActive] is
    [state !== 'inactive']. *)
Record MediaRecorder : Type := {
  mrStream : Stream;
  mrActive : bool;
  mrOnstop : OnStop
}.

(** The module-level variables of [Recorder]. *)
Record t : Type := mk {
  state : State;
  mediaRecorder : option MediaRecorder;
  audioChunks : list Z;
  audioBlob : option Blob;
  audioElement : option Blob;
  eventLog : list Event;
  recordStartTime : Q;
  loopLengthBars : Z;
  loopDurationMs : Q;
  playbackStart : Q;
  layers : list Layer
}.

Definition initial : t :=
  {| state := Idle; mediaRecorder := None; audioChunks := [];
     audioBlob := None; audioElement := None; eventLog := [];
     recordStartTime := 0 # 1; loopLengthBars := 4; loopDurationMs := 0 # 1;
     playbackStart := 0 # 1; layers := [] |}.

Definition set_state (x : State) (r : t) : t :=
  mk x (mediaRecorder r) (audioChunks r) (audioBlob r) (audioElement r)
     (eventLog r) (recordStartTime r) (loopLengthBars r) (loopDurationMs r)
     (playbackStart r) (layers r).
Definition set_mediaRecorder (x : option MediaRecorder) (r : t) : t :=
  mk (state r) x (audioChunks r) (audioBlob r) (audioElement r)
     (eventLog r) (recordStartTime r) (loopLengthBars r) (loopDurationMs r)
     (playbackStart r) (layers r).
Definition set_audioChunks (x : list Z) (r : t) : t :=
  mk (state r) (mediaRecorder r) x (audioBlob r) (audioElement r)
     (eventLog r) (recordStartTime r) (loopLengthBars r) (loopDurationMs r)
     (playbackStart r) (layers r).
Definition set_audioBlob (x : option Blob) (r : t) : t :=
  mk (state r) (mediaRecorder r) (audioChunks r) x (audioElement r)
     (eventLog r) (recordStartTime r) (loopLengthBars r) (loopDurationMs r)
     (playbackStart r) (layers r).
Definition set_audioElement (x : option Blob) (r : t) : t :=
  mk (state r) (mediaRecorder r) (audioChunks r) (audioBlob r) x
     (eventLog r) (recordStartTime r) (loopLengthBars r) (loopDurationMs r)
     (playbackStart r) (layers r).
Definition set_eventLog (x : list Event) (r : t) : t :=
  mk (state r) (mediaRecorder r) (audioChunks r) (audioBlob r)
     (audioElement r) x (recordStartTime r) (loopLengthBars r)
     (loopDurationMs r) (playbackStart r) (layers r).
Definition set_recordStartTime (x : Q) (r : t) : t :=
  mk (state r) (mediaRecorder r) (audioChunks r) (audioBlob r)
     (audioElement r) (eventLog r) x (loopLengthBars r)
     (loopDurationMs r) (playbackStart r) (layers r).
Definition set_loopLengthBars (x : Z) (r : t) : t :=
  mk (state r) (mediaRecorder r) (audioChunks r) (audioBlob r)
     (audioElement r) (eventLog r) (recordStartTime r) x
     (loopDurationMs r) (playbackStart r) (layers r).
Definition set_loopDurationMs (x : Q) (r : t) : t :=
  mk (state r) (mediaRecorder r) (audioChunks r) (audioBlob r)
     (audioElement r) (eventLog r) (recordStartTime r) (loopLengthBars r)
     x (playbackStart r) (layers r).
Definition set_playbackStart (x : Q) (r : t) : t :=
  mk (state r) (mediaRecorder r) (audioChunks r) (audioBlob r)
     (audioElement r) (eventLog r) (recordStartTime r) (loopLengthBars r)
     (loopDurationMs r) x (layers r).
Definition set_layers (x : list Layer) (r : t) : t :=
  mk (state r) (mediaRecorder r) (audioChunks r) (audioBlob r)
     (audioElement r) (eventLog r) (recordStartTime r) (loopLengthBars r)
     (loopDurationMs r) (playbackStart r) x.

(** Callbacks waiting in the event loop. *)
Inductive Task : Type :=
| CountInFire (c : CountIn)
    (** [setTimeout(cb, 0)] queued by [scheduleStep] *)
| Deadline (s : State) (delay : Q)
    (** [setTimeout(() => { if (state === s) stopRecording(); }, delay)] *)
| MediaStopped (h : OnStop)
    (** the [stop] event of a [MediaRecorder] whose [stop()] was called *)
| DataAvailable (size : Z)
    (** a [dataavailable] event delivering a chunk of that size *).

(** The recorder, the scheduler it talks to, and the pending callbacks. *)
Record World : Type := mkWorld {
  recorder : t;
  rhythm : Rhythm.t;
  tasks : list Task
}.

Definition initialWorld : World :=
  {| recorder := initial; rhythm := Rhythm.initial; tasks := [] |}.

Definition onRecorder (f : t -> t) (w : World) : World :=
  mkWorld (f (recorder w)) (rhythm w) (tasks w).
Definition onRhythm (f : Rhythm.t -> Rhythm.t) (w : World) : World :=
  mkWorld (recorder w) (f (rhythm w)) (tasks w).
Definition addTask (k : Task) (w : World) : World :=
  mkWorld (recorder w) (rhythm w) (tasks w ++ [k]).

(** What the collaborators answer during one call. *)
Record Env : Type := {
  ctx : option Q;              (** [Audio.getContext()], as its [currentTime] *)
  mediaStream : option Stream; (** [Audio.getMediaStream()] *)
  now : Q;                     (** [performance.now()] *)
  decodeAudioData : Blob -> option AudioBuffer
                               (** [None]: the promise is rejected *)
}.

(** The argument of [setLoopLength]: ['free'] or a numeral. *)
Inductive LoopLength : Type :=
| Free
| Bars (n : Z).

Definition setLoopLength (bars : LoopLength) (w : World) : World :=
  match bars with
  | Free =>
      onRecorder (fun r => set_loopDurationMs (0 # 1) (set_loopLengthBars 0 r)) w
  | Bars n =>
      onRecorder
        (fun r =>
           set_loopDurationMs
             (inject_Z n * Rhythm.getBarDuration (rhythm w) * (1000 # 1))
             (set_loopLengthBars n r)) w
  end.

Definition startMediaRecorder (stream : Stream) (h : OnStop) (r : t) : t :=
  set_mediaRecorder
    (Some {| mrStream := stream; mrActive := true; mrOnstop := h |}) r.

Definition actuallyStartRecording (env : Env) (stream : Stream) (w : World)
  : World :=
  let w := onRecorder
             (fun r =>
                set_recordStartTime (now env)
                  (set_audioChunks [] (set_eventLog [] (set_state Recording r))))
             w in
  let w :=
    if 0 <? loopLengthBars (recorder w)
    then onRecorder
           (set_loopDurationMs
              (inject_Z (loopLengthBars (recorder w))
               * Rhythm.getBarDuration (rhythm w) * (1000 # 1))) w
    else w in
  let w := onRecorder (startMediaRecorder stream OnRecordingStop) w in
  if JS.Qltb (0 # 1) (loopDurationMs (recorder w))
  then addTask (Deadline Recording (loopDurationMs (recorder w))) w
  else w.

Definition startRecording (env : Env) (w : World) : World :=
  match state (recorder w) with
  | Recording | CountingIn => w
  | _ =>
      match mediaStream env with
      | None => w
      | Some stream =>
          let w := onRecorder (set_state CountingIn) w in
          onRhythm
            (Rhythm.startCountIn (ActuallyStartRecording stream) (ctx env)) w
      end
  end.

Definition playLoop (env : Env) (w : World) : World :=
  match layers (recorder w) with
  | [] => w
  | first :: _ =>
      onRecorder
        (fun r =>
           let r := set_state Playing r in
           let r :=
             match audioElement r with
             | None => set_audioElement (Some (blob first)) r
             | Some _ => r
             end in
           set_playbackStart (now env) r) w
  end.

Definition startOverdub (env : Env) (w : World) : World :=
  match audioBlob (recorder w), layers (recorder w) with
  | None, [] => startRecording env w
  | _, _ =>
      let w := onRecorder
                 (fun r =>
                    set_recordStartTime (now env)
                      (set_audioChunks [] (set_eventLog [] (set_state Overdub r))))
                 w in
      match mediaStream env with
      | None => w
      | Some stream =>
          let w := onRecorder (startMediaRecorder stream OnOverdubStop) w in
          let w := playLoop env w in
          if JS.Qltb (0 # 1) (loopDurationMs (recorder w))
          then addTask (Deadline Overdub (loopDurationMs (recorder w))) w
          else w
      end
  end.

Definition stopRecording (w : World) : World :=
  match state (recorder w) with
  | CountingIn => onRecorder (set_state Idle) w
  | Recording | Overdub =>
      match mediaRecorder (recorder w) with
      | Some m =>
          if mrActive m
          then addTask (MediaStopped (mrOnstop m))
                 (onRecorder
                    (set_mediaRecorder
                       (Some {| mrStream := mrStream m; mrActive := false;
                                mrOnstop := mrOnstop m |})) w)
          else w
      | None => w
      end
  | _ => w
  end.

Definition webm (chunks : list Z) : Blob :=
  {| parts := chunks; mime := "audio/webm" |}.

Definition onRecordingStop (env : Env) (w : World) : World :=
  onRecorder
    (fun r =>
       let r :=
         if Qeq_bool (loopDurationMs r) (0 # 1)
         then set_loopDurationMs (now env - recordStartTime r) r
         else r in
       let b := webm (audioChunks r) in
       let r := set_audioBlob (Some b) r in
       let r := set_layers [{| blob := b; events := eventLog r |}] r in
       set_state Idle r) w.

Definition onOverdubStop (w : World) : World :=
  onRecorder
    (fun r =>
       let newBlob := webm (audioChunks r) in
       let r :=
         set_layers (layers r ++ [{| blob := newBlob; events := eventLog r |}])
           r in
       let r := set_audioBlob (Some newBlob) r in
       let r := set_state Idle r in
       set_audioElement None r) w.

(** [logEvent(type, data)], with the properties of [data] spread into the
    logged event. *)
Definition logEvent (env : Env) (type : string) (channel : option Z)
    (midi : option MidiField) (velocity : option Z) (w : World) : World :=
  match state (recorder w) with
  | Recording | Overdub =>
      onRecorder
        (fun r =>
           let time := (now env - recordStartTime r)%Q in
           set_eventLog
             (eventLog r
              ++ [{| time := time; type := type; channel := channel;
                     midi := midi; velocity := velocity |}]) r) w
  | _ => w
  end.

Definition stopPlayback (w : World) : World :=
  onRecorder (fun r => set_audioElement None (set_state Idle r)) w.

Definition clear (w : World) : World :=
  let w := stopPlayback w in
  onRecorder
    (fun r =>
       set_state Idle
         (set_loopDurationMs (0 # 1)
            (set_audioChunks []
               (set_audioBlob None (set_eventLog [] (set_layers [] r)))))) w.

Definition getState (w : World) : State := state (recorder w).

(** A file handed to [downloadBlob]. *)
Record Download : Type := {
  filename : string;
  contentType : string;
  content : list Z
}.

(** [exportWAV()] run to the end of its promise.  A missing audio context
    fails inside the [try] block like a failed decode; an exception of
    [audioBufferToWav] rejects the promise; neither downloads anything. *)
Definition exportWAV (env : Env) (w : World) : World * option Download :=
  match layers (recorder w) with
  | [] => (w, None)
  | first :: _ =>
      match ctx env with
      | None => (w, None)
      | Some _ =>
          match decodeAudioData env (blob first) with
          | None => (w, None)
          | Some audioBuffer =>
              match audioBufferToWav audioBuffer with
              | None => (w, None)
              | Some wav =>
                  (w, Some {| filename := "omnichord-loop.wav";
                              contentType := "audio/wav"; content := wav |})
              end
          end
      end
  end.

Definition exportMIDI (w : World) : World * option Download :=
  let allEvents := flat_map events (layers (recorder w)) in
  match allEvents with
  | [] => (w, None)
  | _ =>
      match buildMidiFile (Rhythm.getTempo (rhythm w)) allEvents
              (loopDurationMs (recorder w)) with
      | None => (w, None)
      | Some midi =>
          (w, Some {| filename := "omnichord-loop.mid";
                      contentType := "audio/midi"; content := midi |})
      end
  end.

(** One pending callback being run by the event loop. *)
Definition runTask (env : Env) (k : Task) (w : World) : World :=
  match k with
  | CountInFire c =>
      let w := onRhythm (Rhythm.runCountIn c) w in
      match callback c with
      | ActuallyStartRecording stream => actuallyStartRecording env stream w
      end
  | Deadline s _ =>
      match state (recorder w), s with
      | Recording, Recording => stopRecording w
      | Overdub, Overdub => stopRecording w
      | _, _ => w
      end
  | MediaStopped OnRecordingStop => onRecordingStop env w
  | MediaStopped OnOverdubStop => onOverdubStop w
  | DataAvailable size =>
      if 0 <? size
      then onRecorder (fun r => set_audioChunks (audioChunks r ++ [size]) r) w
      else w
  end.

(** The event loop picking the [i]-th pending callback. *)
Definition runPending (env : Env) (i : nat) (w : World) : World :=
  match tasks w !! i with
  | None => w
  | Some k =>
      runTask env k (mkWorld (recorder w) (rhythm w) (delete i (tasks w)))
  end.

(** The scheduler's interval timer firing at clock reading [currentTime];
    every count-in closure it hands to [setTimeout] joins the pending
    callbacks. *)
Definition schedulerTick (currentTime : Q) (w : World) : option World :=
  match Rhythm.tick (Some currentTime) (rhythm w) with
  | None => None
  | Some (rh, log) =>
      Some (mkWorld (recorder w) rh
              (tasks w ++ omap (fun e => CountInFire <$> Rhythm.slTimeout e) log))
  end.



End Recorder.

(** * Vocabulary of the statements

    Layouts, readers and relations used to state the properties below.  None
    of them is part of the program. *)

(** ** Layout of a canonical WAV file *)

Module WavLayout.

Import Exporter.

Definition le16 (w : Z) : list Z := [w mod 256; (w / 256) mod 256].

Definition le32 (w : Z) : list Z :=
  [w mod 256; (w / 256) mod 256; (w / 65536) mod 256; (w / 16777216) mod 256].

Definition charCodes (s : string) : list Z :=
  (fun c => Z.of_nat (nat_of_ascii c)) <$> list_ascii_of_string s.

(** The two bytes stored for one sample. *)
Definition sampleBytes (x : JS.num) : list Z :=
  le16 (JS.toUint16 (JS.toInteger (scaleSample x))).

(** The 44 header bytes the encoder writes for a payload of [dataLength]
    bytes. *)
Definition wavHeader (numChannels sampleRate : Z) (dataLength : nat) : list Z :=
  charCodes "RIFF" ++ le32 (JS.toUint32 (36 + Z.of_nat dataLength))
  ++ charCodes "WAVE" ++ charCodes "fmt " ++ le32 (JS.toUint32 16)
  ++ le16 (JS.toUint16 1) ++ le16 (JS.toUint16 numChannels)
  ++ le32 (JS.toUint32 sampleRate)
  ++ le32 (JS.toUint32 (sampleRate * numChannels * 16 / 8))
  ++ le16 (JS.toUint16 (numChannels * 16 / 8)) ++ le16 (JS.toUint16 16)
  ++ charCodes "data" ++ le32 (JS.toUint32 (Z.of_nat dataLength)).

(** The sample array [audioBufferToWav] serialises: its first block, on its
    own. *)
Definition interleavedOf (buffer : AudioBuffer) : option (list JS.num) :=
  if numberOfChannels buffer =? 2 then
    left ← getChannelData buffer 0;
    right ← getChannelData buffer 1;
    Some (interleave left right)
  else getChannelData buffer 0.

(** One stereo frame. *)
Definition frame (left right : list JS.num) (i : nat) : list JS.num :=
  [f32At left i; f32At right i].

(** The 16-bit value of an in-range sample: scaled by 32768 below zero and by
    32767 otherwise, fraction dropped. *)
Definition pcm16 (x : Q) : Z :=
  JS.trunc (if JS.Qltb x (0 # 1) then x * (32768 # 1) else x * (32767 # 1))%Q.

(** What a reader decodes from the header of [wav]. *)
Record WavFields (wav : list Z) (C R : Z) (dataLength : Z) : Prop := {
  wf_riff : DataView.getString wav 0 4 = charCodes "RIFF";
  wf_chunkSize : DataView.getUint32 wav 4 = 36 + dataLength;
  wf_wave : DataView.getString wav 8 4 = charCodes "WAVE";
  wf_fmt : DataView.getString wav 12 4 = charCodes "fmt ";
  wf_fmtSize : DataView.getUint32 wav 16 = 16;
  wf_format : DataView.getUint16 wav 20 = 1;
  wf_channels : DataView.getUint16 wav 22 = C;
  wf_sampleRate : DataView.getUint32 wav 24 = R;
  wf_byteRate : DataView.getUint32 wav 28 = R * C * 2;
  wf_blockAlign : DataView.getUint16 wav 32 = C * 2;
  wf_bitsPerSample : DataView.getUint16 wav 34 = 16;
  wf_data : DataView.getString wav 36 4 = charCodes "data";
  wf_dataSize : DataView.getUint32 wav 40 = dataLength
}.

End WavLayout.

(** ** A reader of Standard MIDI Files *)

Module SMF.

Inductive Message : Type :=
| NoteOn (channel note velocity : Z)
| NoteOff (channel note velocity : Z)
| Meta (kind : Z) (data : list Z).

(** A variable-length quantity: seven bits per byte, most significant first,
    the top bit set on every byte but the last. *)
Fixpoint readVarLen (acc : Z) (bytes : list Z) : option (Z * list Z) :=
  match bytes with
  | [] => None
  | b :: rest =>
      if b <? 128 then Some (acc * 128 + b, rest)
      else readVarLen (acc * 128 + (b - 128)) rest
  end.

(** One event after its delta time (no running status). *)
Definition readMessage (bytes : list Z) : option (Message * list Z) :=
  match bytes with
  | status :: rest =>
      if status =? 0xFF then
        match rest with
        | kind :: rest =>
            '(len, rest) ← readVarLen 0 rest;
            if (length rest <? Z.to_nat len)%nat then None
            else Some (Meta kind (take (Z.to_nat len) rest),
                       drop (Z.to_nat len) rest)
        | [] => None
        end
      else if Z.land status 0xF0 =? 0x90 then
        match rest with
        | note :: velocity :: rest =>
            Some (NoteOn (Z.land status 0x0F) note velocity, rest)
        | _ => None
        end
      else if Z.land status 0xF0 =? 0x80 then
        match rest with
        | note :: velocity :: rest =>
            Some (NoteOff (Z.land status 0x0F) note velocity, rest)
        | _ => None
        end
      else None
  | [] => None
  end.

(** The events of a track chunk with their delta times. *)
Fixpoint readTrack (fuel : nat) (bytes : list Z) : option (list (Z * Message)) :=
  match bytes with
  | [] => Some []
  | _ :: _ =>
      match fuel with
      | O => None
      | S fuel' =>
          '(delta, rest) ← readVarLen 0 bytes;
          '(msg, rest) ← readMessage rest;
          events ← readTrack fuel' rest;
          Some ((delta, msg) :: events)
      end
  end.

Definition be16 (bytes : list Z) : Z :=
  match bytes with
  | [a; b] => a * 256 + b
  | _ => 0
  end.

Definition be32 (bytes : list Z) : Z :=
  match bytes with
  | [a; b; c; d] => ((a * 256 + b) * 256 + c) * 256 + d
  | _ => 0
  end.

Fixpoint bytesEqb (a b : list Z) : bool :=
  match a, b with
  | [], [] => true
  | x :: a', y :: b' => (x =? y) && bytesEqb a' b'
  | _, _ => false
  end.

Record File : Type := {
  format : Z;
  ntrks : Z;
  division : Z;
  track : list (Z * Message)
}.

(** A header chunk followed by exactly one track chunk. *)
Definition readFile (bytes : list Z) : option File :=
  if negb (bytesEqb (take 4 bytes) [0x4D; 0x54; 0x68; 0x64]) then None
  else if negb (be32 (take 4 (drop 4 bytes)) =? 6) then None
  else if negb (bytesEqb (take 4 (drop 14 bytes)) [0x4D; 0x54; 0x72; 0x6B])
  then None
  else
    let body := drop 22 bytes in
    if negb (be32 (take 4 (drop 18 bytes)) =? Z.of_nat (length body)) then None
    else
      events ← readTrack (length body) body;
      Some {| format := be16 (take 2 (drop 8 bytes));
              ntrks := be16 (take 2 (drop 10 bytes));
              division := be16 (take 2 (drop 12 bytes));
              track := events |}.

(** Delta times turned into absolute ticks, starting from [t]. *)
Fixpoint absolute (t : Z) (events : list (Z * Message)) : list (Z * Message) :=
  match events with
  | [] => []
  | (delta, msg) :: rest => (t + delta, msg) :: absolute (t + delta) rest
  end.

Definition isNoteOn (e : Z * Message) : bool :=
  match e.2 with
  | NoteOn _ _ _ => true
  | _ => false
  end.

(** The absolute tick of every Note-On, in file order. *)
Definition noteOnTicks (events : list (Z * Message)) : list Z :=
  fst <$> List.filter isNoteOn (absolute 0 events).

(** The delta time written in front of every Note-On, in file order. *)
Definition noteOnDeltas (events : list (Z * Message)) : list Z :=
  fst <$> List.filter isNoteOn events.

End SMF.

(** ** What the exporter is asked to write *)

Module ExporterSpec.

Import Exporter.

(** The tick of an event: [round(timeOffsetMs / msPerTick)]. *)
Definition tickOf (tempo : Q) (e : Event) : Z :=
  JS.round (time e / msPerTick tempo).

(** The events that carry a MIDI note, in ascending time order. *)
Definition hasNote (e : Event) : bool :=
  match midi e with
  | Some _ => true
  | None => false
  end.

Definition notes (events : list Event) : list Event :=
  List.filter hasNote (sortByTime events).

(** The length given to every note: 200 ms in ticks. *)
Definition noteDuration (tempo : Q) : Z :=
  JS.round ((200 # 1) / msPerTick tempo).

(** The two messages written for a note event when the previous Note-On was
    at tick [last]. *)
Definition noteMessages (tempo : Q) (last : Z) (e : Event) (m : MidiField)
  : list (Z * SMF.Message) :=
  let ch := orDefault (channel e) 1 - 1 in
  let note := JS.band (midiNumber m) 0x7F in
  [ (tickOf tempo e - last,
     SMF.NoteOn ch note (JS.band (orDefault (velocity e) 64) 0x7F));
    (noteDuration tempo, SMF.NoteOff ch note 0) ].

(** The note messages of a list of events already in time order. *)
Fixpoint noteTrack (tempo : Q) (last : Z) (sorted : list Event)
  : list (Z * SMF.Message) :=
  match sorted with
  | [] => []
  | e :: rest =>
      match midi e with
      | None => noteTrack tempo last rest
      | Some m =>
          noteMessages tempo last e m ++ noteTrack tempo (tickOf tempo e) rest
      end
  end.

(** The whole track: tempo, notes, end of track. *)
Definition expectedTrack (tempo : Q) (events : list Event)
  : list (Z * SMF.Message) :=
  let tempoMicro := JS.round ((60000000 # 1) / tempo) in
  (0, SMF.Meta 0x51
        [JS.band (JS.sar tempoMicro 16) 0xFF;
         JS.band (JS.sar tempoMicro 8) 0xFF;
         JS.band tempoMicro 0xFF])
  :: noteTrack tempo 0 (sortByTime events) ++ [(0, SMF.Meta 0x2F [])].

(** Events the file format can hold: a time that is not negative, a tick
    within 31 bits, a channel from 1 to 16. *)
Definition exportable (tempo : Q) (e : Event) : Prop :=
  (0 <= time e)%Q /\ tickOf tempo e < 2147483648
  /\ 1 <= orDefault (channel e) 1 <= 16.

(** Events in ascending time order from [lo] on, and in ascending tick order
    from [last] on. *)
Fixpoint timeAscending (lo : Q) (l : list Event) : Prop :=
  match l with
  | [] => True
  | e :: rest => (lo <= time e)%Q /\ timeAscending (time e) rest
  end.

Fixpoint ascending (tempo : Q) (last : Z) (l : list Event) : Prop :=
  match l with
  | [] => True
  | e :: rest =>
      last <= tickOf tempo e /\ ascending tempo (tickOf tempo e) rest
  end.

(** The deltas that take a reader from tick [last] through the given ticks. *)
Fixpoint differences (last : Z) (ticks : list Z) : list Z :=
  match ticks with
  | [] => []
  | t :: rest => (t - last) :: differences t rest
  end.

(** Where a reader places the Note-Ons of a track written for notes with
    the given ticks when the [k]-th is reached after [k] Note-Offs. *)
Fixpoint driftedTicks (duration : Z) (k : Z) (ticks : list Z) : list Z :=
  match ticks with
  | [] => []
  | t :: rest => (t + k * duration) :: driftedTicks duration (k + 1) rest
  end.




(** Two notes played 100 ms and 900 ms into the loop, logged out of order. *)
Definition twoNotes : list Event :=
  [ {| time := 900 # 1; type := "note"; channel := Some 1;
       midi := Some (MidiNote 62); velocity := Some 100 |};
    {| time := 100 # 1; type := "note"; channel := Some 1;
       midi := Some (MidiNote 60); velocity := Some 100 |} ].

End ExporterSpec.

(** ** Runs and reachable states of the scheduler *)

Module RhythmSpec.
Import Rhythm Closure.

(** [n] consecutive iterations of the scheduler loop. *)
Fixpoint iterations (n : nat) (r : t) : t * list StepLog :=
  match n with
  | O => (r, [])
  | S n' =>
      let '(r1, entry) := schedulerIteration r in
      let '(r2, log) := iterations n' r1 in
      (r2, entry :: log)
  end.



(** The closure [startCountIn] stores for [callback] in state [r]. *)
Definition closureOf (r : t) (callback : Callback) : CountIn :=
  {| wasMetronomeOn := metronomeOn r; Closure.callback := callback |}.



Inductive Reachable : t -> Prop :=
| reach_initial : Reachable initial
| reach_start ctx r : Reachable r -> Reachable (start ctx r)
| reach_stop r : Reachable r -> Reachable (stop r)
| reach_toggle ctx r : Reachable r -> Reachable (fst (toggle ctx r))
| reach_setTempo bpm r : Reachable r -> Reachable (setTempo bpm r)
| reach_setVolume val r : Reachable r -> Reachable (setVolume val r)
| reach_setPattern name r : Reachable r -> Reachable (setPattern name r)
| reach_toggleMetronome r :
    Reachable r -> Reachable (fst (toggleMetronome r))
| reach_startCountIn cb ctx r :
    Reachable r -> Reachable (startCountIn cb ctx r)
| reach_tick ctx r r' log :
    Reachable r -> tick ctx r = Some (r', log) -> Reachable r'
| reach_runCountIn c r : Reachable r -> Reachable (runCountIn c r).

Record Invariant (r : t) : Prop := {
  inv_timer : lookaheadTimer r = playing r;
  inv_stopped : playing r = false -> currentStep r = 0;
  inv_pattern : is_Some (PATTERNS !! currentPattern r);
  inv_step : 0 <= currentStep r < getPatternSteps r;
  inv_tempo : (60 # 1 <= tempo r)%Q /\ (tempo r <= 200 # 1)%Q
}.
End RhythmSpec.

(** ** The recorder's state machine as specified, and sample sessions *)

Module RecorderSpec.
Import Recorder Exporter Closure.



(** The loop length as [setLoopLength('free')] leaves it. *)
Definition loopLengthUnset (w : World) : Prop :=
  loopLengthBars (recorder w) = 0
  /\ (loopDurationMs (recorder w) == 0 # 1)%Q.



(** A session: count-in, one recorded bar-locked take, playback. *)
Definition studio (t : Q) : Env :=
  {| ctx := Some (t / (1000 # 1))%Q;
     mediaStream := Some (MediaStream 0);
     now := t;
     decodeAudioData := fun _ => None |}.




Definition cancelledCountIn : option World :=
  schedulerTick (2 # 1)
    (stopRecording (startRecording (studio (0 # 1)) initialWorld)).
End RecorderSpec.

(** * Neighbouring modules

    The callees and callers of the scheduler and of the recorder: the MIDI
    ports of [midi.js], the chord table of [chords.js], the handlers of
    [app.js] that drive both, and the play head of [recorder.js].  Audio
    synthesis and DOM updates are left out, as above; a chord and a strip
    note keep their MIDI numbers, not the frequencies computed from them. *)

(** ** midi.js: output to and input from MIDI ports *)

Module MIDI.

Inductive Port : Type := MIDIPort (name : string).

(** [midiAccess]: the output and the input ports by id. *)
Record Access : Type := {
  outputs : gmap string Port;
  inputs : gmap string Port
}.

(** The module-level variables of [MIDI]. *)
Record t : Type := mk {
  midiAccess : option Access;
  selectedOutput : option Port;
  selectedInput : option Port
}.

Definition initial : t :=
  {| midiAccess := None; selectedOutput := None; selectedInput := None |}.

(** [id ? midiAccess.outputs.get(id) : null]: the empty id selects nothing,
    and an id that is not in the map leaves [undefined], which every later
    test treats like [null]. *)
Definition selectOutput (id : string) (m : t) : t :=
  match midiAccess m with
  | None => m
  | Some access =>
      mk (midiAccess m)
         (if String.eqb id "" then None else outputs access !! id)
         (selectedInput m)
  end.

(** A selected input has [onMIDIMessage] as its handler. *)
Definition selectInput (id : string) (m : t) : t :=
  match midiAccess m with
  | None => m
  | Some access =>
      mk (midiAccess m) (selectedOutput m)
         (if String.eqb id "" then None else inputs access !! id)
  end.

(** A call [port.send(data)]. *)
Record Sent : Type := { port : Port; data : list Z }.

Definition sendNoteOn (channel note velocity : Z) (m : t) : option Sent :=
  match selectedOutput m with
  | None => None
  | Some out =>
      let status := JS.bor 0x90 (JS.band (channel - 1) 0x0F) in
      Some {| port := out;
              data := [status; JS.band note 0x7F; JS.band velocity 0x7F] |}
  end.

Definition sendNoteOff (channel note : Z) (m : t) : option Sent :=
  match selectedOutput m with
  | None => None
  | Some out =>
      let status := JS.bor 0x80 (JS.band (channel - 1) 0x0F) in
      Some {| port := out; data := [status; JS.band note 0x7F; 0] |}
  end.

(** The two numbers [onMIDIMessage] decodes from the status byte. *)
Definition command (status : Z) : Z := JS.sar status 4.
Definition channel (status : Z) : Z := JS.band status 0x0F + 1.

(** [Audio.playStringVoice(freq, gain)], with [freq] the frequency of MIDI
    note [svNote]. *)
Record StringVoice : Type := { svNote : Z; svGain : Q }.

(** [onMIDIMessage(e)] for [e.data] the bytes received; [chordActive] is
    whether [Chords.getActive()] holds a chord.  A message shorter than
    three bytes leaves [velocity] undefined, and [undefined > 0] is false. *)
Definition onMIDIMessage (chordActive : bool) (data : list Z)
  : option StringVoice :=
  match data with
  | status :: note :: velocity :: _ =>
      if (command status =? 9) && (0 <? velocity) then
        if chordActive
        then Some {| svNote := note; svGain := inject_Z velocity / (127 # 1) |}
        else None
      else None
  | _ => None
  end.

End MIDI.

(** ** chords.js: the chord table *)

Module Chords.

Definition NOTE_NAMES : list string :=
  ["C"; "C#"; "D"; "Eb"; "E"; "F"; "F#"; "G"; "Ab"; "A"; "Bb"; "B"]%string.

(** Semitone intervals from the root, in the order of [Object.entries]. *)
Definition TYPES : list (string * list Z) :=
  [ ("maj"%string, [0; 4; 7]);
    ("min"%string, [0; 3; 7]);
    ("sev"%string, [0; 4; 7; 10]) ].

Definition rootMidi (rootIndex : Z) : Z := 48 + rootIndex.

(** An entry of [chords]; [stripNotes] holds the [midi] of each strip
    note. *)
Record Chord : Type := {
  name : string;
  type : string;
  label : string;
  root : Z;
  intervals : list Z;
  stripNotes : list Z;
  padMidi : list Z
}.

(** The body of the two nested [forEach] loops. *)
Definition build (name : string) (rootIdx : Z) (type : string)
    (intervals : list Z) : string * Chord :=
  let key := (name +:+ "_" +:+ type)%string in
  let baseMidi := rootMidi rootIdx in
  let stripNotes :=
    flat_map
      (fun octave =>
         (fun interval => baseMidi + interval + octave * 12) <$> intervals)
      [0; 1; 2; 3]
    ++ [baseMidi + 4 * 12] in
  let padNotes :=
    ((fun interval => baseMidi + interval) <$> intervals) ++ [baseMidi + 12] in
  (key,
   {| name := name; type := type;
      label := if String.eqb type "maj" then name
               else if String.eqb type "min" then (name +:+ "m")%string
               else (name +:+ "7")%string;
      root := rootIdx; intervals := intervals;
      stripNotes := stripNotes; padMidi := padNotes |}).

(** The properties of [chords] in insertion order. *)
Definition CHORD_ENTRIES : list (string * Chord) :=
  flat_map
    (fun '(rootIdx, name) =>
       (fun '(type, intervals) => build name (Z.of_nat rootIdx) type intervals)
         <$> TYPES)
    (imap pair NOTE_NAMES).

Definition chords : gmap string Chord := list_to_map CHORD_ENTRIES.

(** [setActive(chordKey)]: the new value of [activeChord], which is also
    what the call returns. *)
Definition setActive (chordKey : string) : option Chord := chords !! chordKey.

Definition get (chordKey : string) : option Chord := chords !! chordKey.
Definition getAllKeys : list string := CHORD_ENTRIES.*1.
Definition getNoteNames : list string := NOTE_NAMES.
Definition getTypes : list string := TYPES.*1.

End Chords.

(** ** app.js: the handlers that drive the recorder and the chord pads *)

Module App.

Import Recorder.

(** The record button and the [R] key. *)
Definition recordClick (env : Env) (w : World) : World :=
  match getState w with
  | Recording | CountingIn => stopRecording w
  | _ => startRecording env w
  end.

(** The overdub button. *)
Definition overdubClick (env : Env) (w : World) : World :=
  match getState w with
  | Overdub => stopRecording w
  | _ => startOverdub env w
  end.

(** The [P] key. *)
Definition playKey (env : Env) (w : World) : World :=
  match getState w with
  | Playing => stopPlayback w
  | _ => playLoop env w
  end.

(** What the chord handlers ask of the synthesiser and of the MIDI port. *)
Inductive Effect : Type :=
| StopChordPad
| PlayChordPad (chord : Chords.Chord)
| MidiSend (message : MIDI.Sent).

(** The variables the chord handlers read and write: their own
    ([activeChordBtn], [activeChordKey]), [Chords.activeChord], the MIDI
    ports and the recorder. *)
Record t : Type := mk {
  activeChordBtn : bool;
  activeChordKey : option string;
  activeChord : option Chords.Chord;
  midi : MIDI.t;
  world : World
}.

Definition sendAll (f : Z -> MIDI.t -> option MIDI.Sent) (notes : list Z)
    (m : MIDI.t) : list Effect :=
  omap (fun n => MidiSend <$> f n m) notes.

Definition activateChord (env : Env) (key : string) (a : t)
  : t * list Effect :=
  let released :=
    if activeChordBtn a then
      match activeChord a with
      | Some prevChord =>
          sendAll (MIDI.sendNoteOff 2) (Chords.padMidi prevChord) (midi a)
      | None => []
      end ++ [StopChordPad]
    else [] in
  match Chords.setActive key with
  | Some chord =>
      (mk true (Some key) (Some chord) (midi a)
          (logEvent env "chord" (Some 2)
             (Some (Exporter.MidiNotes (Chords.padMidi chord))) None (world a)),
       released ++ [PlayChordPad chord]
       ++ sendAll (fun n => MIDI.sendNoteOn 2 n 80) (Chords.padMidi chord)
            (midi a))
  | None => (mk true (Some key) None (midi a) (world a), released)
  end.

Definition deactivateChord (a : t) : t * list Effect :=
  if activeChordBtn a then
    (mk false None (activeChord a) (midi a) (world a),
     StopChordPad
     :: match activeChord a with
        | Some chord =>
            sendAll (MIDI.sendNoteOff 2) (Chords.padMidi chord) (midi a)
        | None => []
        end)
  else (a, []).

Definition toggleChord (env : Env) (key : string) (a : t) : t * list Effect :=
  if decide (activeChordKey a = Some key)
  then deactivateChord a
  else activateChord env key a.

End App.

(** ** recorder.js: the play head *)

Module Timeline.

Import Recorder.

(** [a % b] on finite numbers with [b] not zero: what is left of [a] after
    taking out [b] a whole number of times, counted toward zero. *)
Definition rem (a b : Q) : Q := a - b * inject_Z (JS.trunc (a / b)).

(** [updatePlaybackHead()]: the percentage assigned to [head.style.left],
    [None] when nothing is assigned; [head] is whether the element
    exists. *)
Definition updatePlaybackHead (head : bool) (env : Env) (w : World)
  : option Q :=
  let r := recorder w in
  if negb head || Qeq_bool (loopDurationMs r) (0 # 1) then None
  else
    let elapsed :=
      (now env
       - match state r with
         | Recording | Overdub => recordStartTime r
         | _ => playbackStart r
         end)%Q in
    let progress :=
      if JS.Qltb (0 # 1) (loopDurationMs r)
      then (rem elapsed (loopDurationMs r) / loopDurationMs r)%Q
      else 0 # 1 in
    Some (progress * (100 # 1))%Q.

End Timeline.

(** ** Order and shape of the exported events *)

Module TrackSpec.

Import Exporter.

(** No event comes before an earlier one. *)
Fixpoint sortedByTime (l : list Event) : Prop :=
  match l with
  | [] => True
  | e :: rest =>
      Forall (fun x => (time e <= time x)%Q) rest /\ sortedByTime rest
  end.

(** The events logged at time [t]. *)
Definition atTime (t : Q) (e : Event) : bool := Qeq_bool (time e) t.

(** A logged velocity that fits a MIDI data byte. *)
Definition velocityInRange (e : Event) : Prop :=
  match velocity e with
  | Some v => 0 <= v <= 127
  | None => True
  end.

(** A note message a receiver takes for what it is: data bytes of seven
    bits, and a Note-On whose velocity is not 0 (a Note-On of velocity 0
    counts as a Note-Off). *)
Definition soundingNote (e : Z * SMF.Message) : Prop :=
  match e.2 with
  | SMF.NoteOn _ note velocity => 0 <= note <= 127 /\ 1 <= velocity <= 127
  | SMF.NoteOff _ note velocity => 0 <= note <= 127 /\ velocity = 0
  | SMF.Meta _ _ => True
  end.

End TrackSpec.

(** ** What happens during a take *)

Module TakeSpec.

Import Recorder Exporter.

(** A call of [logEvent] by an instrument, or a chunk of audio delivered by
    the [MediaRecorder]. *)
Inductive Activity : Type :=
| Played (env : Env) (type : string) (channel : option Z)
         (midi : option MidiField) (velocity : option Z)
| Chunk (env : Env) (size : Z).

Definition perform (w : World) (a : Activity) : World :=
  match a with
  | Played env type channel midi velocity =>
      logEvent env type channel midi velocity w
  | Chunk env size => runTask env (DataAvailable size) w
  end.

Definition performAll (activity : list Activity) (w : World) : World :=
  foldl perform w activity.

(** The events played, timed from [start], and the chunks that hold data. *)
Definition played (start : Q) (activity : list Activity) : list Event :=
  omap
    (fun a =>
       match a with
       | Played env type channel midi velocity =>
           Some {| time := now env - start; type := type; channel := channel;
                   midi := midi; velocity := velocity |}
       | Chunk _ _ => None
       end) activity.

Definition delivered (activity : list Activity) : list Z :=
  omap
    (fun a =>
       match a with
       | Chunk _ size => if 0 <? size then Some size else None
       | Played _ _ _ _ _ => None
       end) activity.

(** The clock reading the play head is measured from. *)
Definition clockBase (w : World) : Q :=
  match state (recorder w) with
  | Recording | Overdub => recordStartTime (recorder w)
  | _ => playbackStart (recorder w)
  end.

Definition isDeadline (k : Task) : Prop :=
  match k with
  | Deadline _ _ => True
  | _ => False
  end.

End TakeSpec.

(** ** Shape of the chord table *)

Module ChordSpec.

(** Strictly ascending. *)
Fixpoint increasing (l : list Z) : bool :=
  match l with
  | a :: (b :: _) as rest => (a <? b) && increasing rest
  | _ => true
  end.

Definition within (lo hi : Z) (l : list Z) : bool :=
  forallb (fun x => (lo <=? x) && (x <=? hi)) l.

End ChordSpec.

(** ** theme.js: a palette from the pixels of an image *)

Module Theme.

(** A colour [[r, g, b]]. *)
Record Color : Type := { red : Z; green : Z; blue : Z }.

(** The squared distance computed in the inner loop. *)
Definition distance (px c : Color) : Z :=
  (red px - red c) ^ 2 + (green px - green c) ^ 2 + (blue px - blue c) ^ 2.

(** The inner [centroids.forEach]: the state is [minDist] (at first
    [Infinity], here [None]), [minIdx] and the index of the centroid. *)
Definition closer (px : Color) (acc : option Z * nat * nat) (c : Color)
  : option Z * nat * nat :=
  let '(minDist, minIdx, i) := acc in
  let d := distance px c in
  if match minDist with
     | None => true
     | Some m => d <? m
     end
  then (Some d, i, S i)
  else (minDist, minIdx, S i).

Definition nearest (centroids : list Color) (px : Color) : nat :=
  (foldl (closer px) (None, 0%nat, 0%nat) centroids).1.2.

(** [clusters[minIdx].push(px)] for every pixel, on [k] empty clusters; a
    cluster that does not exist raises a [TypeError]. *)
Definition assign (centroids : list Color) (k : nat) (pixels : list Color)
  : option (list (list Color)) :=
  foldl
    (fun acc px =>
       clusters ← acc;
       let minIdx := nearest centroids px in
       cluster ← clusters !! minIdx;
       Some (<[minIdx := cluster ++ [px]]> clusters))
    (Some (replicate k [])) pixels.

(** The average colour of a cluster that is not empty, each channel
    rounded. *)
Definition mean (cluster : list Color) : Color :=
  let n := inject_Z (Z.of_nat (length cluster)) in
  let total (channel : Color -> Z) :=
    foldl (fun sum px => sum + channel px) 0 cluster in
  {| red := JS.round (inject_Z (total red) / n);
     green := JS.round (inject_Z (total green) / n);
     blue := JS.round (inject_Z (total blue) / n) |}.

(** [clusters.map((cluster, i) => ...)] from index [i] on: an empty
    cluster keeps the centroid it had.  Both arrays have [k] entries, so
    that centroid always exists. *)
Fixpoint updateFrom (i : nat) (centroids : list Color)
    (clusters : list (list Color)) : option (list Color) :=
  match clusters with
  | [] => Some []
  | cluster :: rest =>
      c ← match cluster with
          | [] => centroids !! i
          | _ :: _ => Some (mean cluster)
          end;
      newCentroids ← updateFrom (S i) centroids rest;
      Some (c :: newCentroids)
  end.

Definition update (centroids : list Color) (clusters : list (list Color))
  : option (list Color) :=
  updateFrom 0 centroids clusters.

Definition iteration (k : nat) (pixels centroids : list Color)
  : option (list Color) :=
  clusters ← assign centroids k pixels;
  update centroids clusters.

(** [kMeans(pixels, k, maxIter)]: [None] when the code raises, which it
    does on an empty image when [k] is positive ([pixels[0]] is
    [undefined]) and on any image when [k] is 0 (there is no cluster to
    push to). *)
Definition kMeans (pixels : list Color) (k : nat) (maxIter : nat)
  : option (list Color) :=
  let step := (length pixels / k)%nat in
  centroids ← mapM (fun i => pixels !! (i * step)%nat) (seq 0 k);
  Nat.iter maxIter (fun acc => acc ≫= iteration k pixels) (Some centroids).

Definition luminance (c : Color) : Q :=
  (299 # 1000) * inject_Z (red c) + (587 # 1000) * inject_Z (green c)
  + (114 # 1000) * inject_Z (blue c).

(** [colors.sort((a, b) => luminance(a) - luminance(b))], a stable sort. *)
Fixpoint insertByLuminance (c : Color) (l : list Color) : list Color :=
  match l with
  | [] => [c]
  | x :: rest =>
      if JS.Qltb (luminance x) (luminance c)
      then x :: insertByLuminance c rest
      else c :: x :: rest
  end.

Definition sortByLuminance (colors : list Color) : list Color :=
  foldr insertByLuminance [] colors.

Definition hexDigit (d : Z) : ascii :=
  if d <? 10 then ascii_of_nat (48 + Z.to_nat d)
  else ascii_of_nat (87 + Z.to_nat d).

(** The digits of a positive integer in base 16, most significant first;
    the fuel counts the digits. *)
Fixpoint hexDigits (fuel : nat) (v : Z) (acc : string) : string :=
  match fuel with
  | O => acc
  | S fuel' =>
      let acc' := String (hexDigit (v mod 16)) acc in
      if v / 16 =? 0 then acc' else hexDigits fuel' (v / 16) acc'
  end.

(** [v.toString(16)] on an integer. *)
Definition toString16 (v : Z) : string :=
  if v <? 0
  then ("-" +:+ hexDigits (S (Z.to_nat (Z.log2 (- v)))) (- v) "")%string
  else hexDigits (S (Z.to_nat (Z.log2 v))) v "".

(** [s.padStart(2, '0')] *)
Definition padStart2 (s : string) : string :=
  match String.length s with
  | O => "00"%string
  | S O => ("0" +:+ s)%string
  | _ => s
  end.

(** The string built for one colour in [applyPalette]. *)
Definition hex (c : Color) : string :=
  ("#" +:+ padStart2 (toString16 (red c))
   +:+ padStart2 (toString16 (green c))
   +:+ padStart2 (toString16 (blue c)))%string.

(** The array [hex] of [applyPalette(colors)]. *)
Definition paletteHex (colors : list Color) : list string :=
  hex <$> sortByLuminance colors.

(** [extractFromImage] from the pixels it has collected to the array
    [hex]: fewer than five visible pixels end in an alert. *)
Definition extractHex (pixels : list Color) : option (list string) :=
  if (length pixels <? 5)%nat then None
  else paletteHex <$> kMeans pixels 5 20.

End Theme.

(** ** What a palette is made of *)

Module ThemeSpec.

Import Theme.

(** Every channel between [lo] and [hi]. *)
Definition channelsWithin (lo hi : Z) (c : Color) : Prop :=
  lo <= red c <= hi /\ lo <= green c <= hi /\ lo <= blue c <= hi.

Definition isHexDigit (a : ascii) : bool :=
  let n := nat_of_ascii a in
  ((48 <=? n) && (n <=? 57) || (97 <=? n) && (n <=? 102))%nat.

(** A colour as CSS reads it: [#] and six hexadecimal digits. *)
Definition isHexColor (s : string) : bool :=
  match s with
  | String "#" digits =>
      (String.length digits =? 6)%nat
      && forallb isHexDigit (list_ascii_of_string digits)
  | _ => false
  end.

(** From dark to light. *)
Fixpoint sortedByLuminance (l : list Color) : Prop :=
  match l with
  | [] => True
  | c :: rest =>
      Forall (fun x => (luminance c <= luminance x)%Q) rest
      /\ sortedByLuminance rest
  end.

End ThemeSpec.
(** * Properties

    ** The WAV encoder *)

Section WavFacts.

Import Exporter WavLayout.

Lemma insert_fresh {A : Type} (pre : list A) (x : A) (rest : list A) (k : nat)
    (y : A) :
  k = length pre -> <[k := y]> (pre ++ x :: rest) = (pre ++ [y]) ++ rest.
Proof.
  intros ->. rewrite (insert_app_r_alt pre) by lia.
  rewrite Nat.sub_diag. cbn. by rewrite <- app_assoc.
Qed.

Ltac fresh_inserts :=
  repeat (rewrite insert_fresh by (rewrite ?length_app; cbn [length]; lia));
  rewrite <- ?app_assoc; cbn [app].

Lemma setUint8_fresh (pre : list Z) (m off : nat) (v : Z) :
  off = length pre -> (1 <= m)%nat ->
  DataView.setUint8 (pre ++ repeat 0 m) off v
  = Some (pre ++ [JS.toUint8 v] ++ repeat 0 (m - 1)).
Proof.
  intros -> Hm. unfold DataView.setUint8.
  rewrite length_app, repeat_length.
  destruct (Nat.leb_spec (length pre + 1) (length pre + m)); [|lia].
  destruct m as [|m]; [lia|]. cbn [repeat].
  replace (S m - 1)%nat with m by lia.
  f_equal. by fresh_inserts.
Qed.

Lemma put16_fresh (pre : list Z) (m off : nat) (w : Z) :
  off = length pre ->
  DataView.put16 (pre ++ repeat 0 (S (S m))) off w true
  = pre ++ le16 w ++ repeat 0 m.
Proof.
  intros ->. unfold DataView.put16, le16. cbn [repeat]. by fresh_inserts.
Qed.

Lemma setUint16_fresh (pre : list Z) (m off : nat) (v : Z) :
  off = length pre -> (2 <= m)%nat ->
  DataView.setUint16 (pre ++ repeat 0 m) off v true
  = Some (pre ++ le16 (JS.toUint16 v) ++ repeat 0 (m - 2)).
Proof.
  intros -> Hm. unfold DataView.setUint16.
  rewrite length_app, repeat_length.
  destruct (Nat.leb_spec (length pre + 2) (length pre + m)); [|lia].
  destruct m as [|[|m]]; [lia|lia|].
  replace (S (S m) - 2)%nat with m by lia.
  f_equal. by apply put16_fresh.
Qed.

Lemma setInt16_fresh (pre : list Z) (m off : nat) (v : JS.num) :
  off = length pre -> (2 <= m)%nat ->
  DataView.setInt16 (pre ++ repeat 0 m) off v true
  = Some (pre ++ le16 (JS.toUint16 (JS.toInteger v)) ++ repeat 0 (m - 2)).
Proof.
  intros -> Hm. unfold DataView.setInt16.
  rewrite length_app, repeat_length.
  destruct (Nat.leb_spec (length pre + 2) (length pre + m)); [|lia].
  destruct m as [|[|m]]; [lia|lia|].
  replace (S (S m) - 2)%nat with m by lia.
  f_equal. by apply put16_fresh.
Qed.

Lemma setUint32_fresh (pre : list Z) (m off : nat) (v : Z) :
  off = length pre -> (4 <= m)%nat ->
  DataView.setUint32 (pre ++ repeat 0 m) off v true
  = Some (pre ++ le32 (JS.toUint32 v) ++ repeat 0 (m - 4)).
Proof.
  intros -> Hm. unfold DataView.setUint32.
  rewrite length_app, repeat_length.
  destruct (Nat.leb_spec (length pre + 4) (length pre + m)); [|lia].
  destruct m as [|[|[|[|m]]]]; try lia.
  replace (S (S (S (S m))) - 4)%nat with m by lia.
  f_equal. unfold le32. cbn [repeat]. by fresh_inserts.
Qed.

Lemma writeChars_fresh (chars : list ascii) (pre : list Z) (m off : nat) :
  off = length pre -> (length chars <= m)%nat ->
  writeChars (pre ++ repeat 0 m) off chars
  = Some (pre ++ ((fun c => Z.of_nat (nat_of_ascii c)) <$> chars)
              ++ repeat 0 (m - length chars)).
Proof.
  revert pre m off. induction chars as [|c chars IH]; intros pre m off -> Hm.
  - cbn. by rewrite Nat.sub_0_r.
  - cbn [writeChars length] in *.
    rewrite setUint8_fresh by lia. cbn [mbind option_bind].
    rewrite (app_assoc pre).
    rewrite IH by (rewrite ?length_app; cbn [length]; lia).
    rewrite <- app_assoc. cbn [app fmap list_fmap].
    do 4 f_equal.
    + unfold JS.toUint8. apply Z.mod_small.
      pose proof (nat_ascii_bounded c). lia.
    + f_equal. lia.
Qed.

Lemma length_chars (s : string) :
  length (list_ascii_of_string s) = String.length s.
Proof. induction s; cbn; congruence. Qed.

Lemma writeString_fresh (s : string) (pre : list Z) (m off : nat) :
  off = length pre -> (String.length s <= m)%nat ->
  writeString (pre ++ repeat 0 m) off s
  = Some (pre ++ charCodes s ++ repeat 0 (m - String.length s)).
Proof.
  intros. unfold writeString, charCodes.
  rewrite writeChars_fresh; rewrite ?length_chars; auto.
Qed.

Lemma writeSamples_fresh (samples : list JS.num) (pre : list Z) (m off : nat) :
  off = length pre -> (2 * length samples <= m)%nat ->
  writeSamples samples off (pre ++ repeat 0 m)
  = Some (pre ++ flat_map sampleBytes samples
              ++ repeat 0 (m - 2 * length samples)).
Proof.
  revert pre m off. induction samples as [|x samples IH]; intros pre m off -> Hm.
  - cbn. by rewrite Nat.sub_0_r.
  - cbn [writeSamples length flat_map] in *.
    rewrite setInt16_fresh by lia. cbn [mbind option_bind].
    rewrite (app_assoc pre).
    rewrite IH by (rewrite ?length_app; unfold le16; cbn [length]; lia).
    rewrite <- !app_assoc. unfold sampleBytes at 2.
    do 5 f_equal. lia.
Qed.

(** One header write onto the bytes written so far. *)
Ltac hdr :=
  cbn [mbind option_bind]; rewrite ?app_assoc;
  first [ rewrite writeString_fresh
        | rewrite setUint32_fresh
        | rewrite setUint16_fresh ];
  [ | rewrite ?length_app; reflexivity | cbn; lia ].

Lemma audioBufferToWav_bytes (buffer : AudioBuffer) (samples : list JS.num) :
  interleavedOf buffer = Some samples ->
  audioBufferToWav buffer
  = Some (wavHeader (numberOfChannels buffer) (sampleRate buffer)
            (length samples * 2)
          ++ flat_map sampleBytes samples).
Proof.
  intros Hs. unfold audioBufferToWav. fold (interleavedOf buffer). rewrite Hs.
  cbn [mbind option_bind]. unfold DataView.create.
  change (repeat 0 (44 + length samples * 2))
    with ([] ++ repeat 0 (44 + length samples * 2)).
  rewrite writeString_fresh by (cbn; lia). 
  do 12 hdr.
  cbn [mbind option_bind]. rewrite app_assoc.
  rewrite writeSamples_fresh; [ | rewrite ?length_app; reflexivity | cbn; lia].
  f_equal. unfold wavHeader.
  replace (44 + length samples * 2 - String.length "RIFF" - 4
           - String.length "WAVE" - String.length "fmt " - 4 - 2 - 2 - 4 - 4
           - 2 - 2 - String.length "data" - 4 - 2 * length samples)%nat
    with 0%nat by (cbn; lia).
  cbn [repeat]. rewrite app_nil_r. cbn [app].
  by rewrite <- !app_assoc.
Qed.


Lemma le32_value (w : Z) : 0 <= w < 4294967296 ->
  w mod 256 + 256 * ((w / 256) mod 256) + 65536 * ((w / 65536) mod 256)
  + 16777216 * ((w / 16777216) mod 256) = w.
Proof. intros. Z.div_mod_to_equations. lia. Qed.

Lemma le16_value (w : Z) : 0 <= w < 65536 ->
  w mod 256 + 256 * ((w / 256) mod 256) = w.
Proof. intros. Z.div_mod_to_equations. lia. Qed.

Lemma toUint32_range (z : Z) : 0 <= JS.toUint32 z < 4294967296.
Proof. unfold JS.toUint32. apply Z.mod_pos_bound. lia. Qed.

Lemma toUint16_range (z : Z) : 0 <= JS.toUint16 z < 65536.
Proof. unfold JS.toUint16. apply Z.mod_pos_bound. lia. Qed.

Lemma getUint32_le32 (pre post : list Z) (w : Z) (off : nat) :
  off = length pre -> 0 <= w < 4294967296 ->
  DataView.getUint32 (pre ++ le32 w ++ post) off = w.
Proof.
  intros -> Hw. unfold DataView.getUint32, DataView.byteAt.
  rewrite !(app_nth2 pre) by lia.
  replace (length pre - length pre)%nat with 0%nat by lia.
  replace (length pre + 1 - length pre)%nat with 1%nat by lia.
  replace (length pre + 2 - length pre)%nat with 2%nat by lia.
  replace (length pre + 3 - length pre)%nat with 3%nat by lia.
  cbn [le32 app nth]. by apply le32_value.
Qed.

Lemma getUint16_le16 (pre post : list Z) (w : Z) (off : nat) :
  off = length pre -> 0 <= w < 65536 ->
  DataView.getUint16 (pre ++ le16 w ++ post) off = w.
Proof.
  intros -> Hw. unfold DataView.getUint16, DataView.byteAt.
  rewrite !(app_nth2 pre) by lia.
  replace (length pre - length pre)%nat with 0%nat by lia.
  replace (length pre + 1 - length pre)%nat with 1%nat by lia.
  cbn [le16 app nth]. by apply le16_value.
Qed.

Lemma getString_at (pre post bytes : list Z) (off len : nat) :
  off = length pre -> len = length bytes ->
  DataView.getString (pre ++ bytes ++ post) off len = bytes.
Proof.
  intros -> ->. unfold DataView.getString.
  rewrite drop_app_length. by rewrite take_app_length.
Qed.

Lemma wavHeader_fields (C R : Z) (n : nat) (rest : list Z) :
  let wav := wavHeader C R n ++ rest in
  DataView.getString wav 0 4 = charCodes "RIFF"
  /\ DataView.getUint32 wav 4 = JS.toUint32 (36 + Z.of_nat n)
  /\ DataView.getString wav 8 4 = charCodes "WAVE"
  /\ DataView.getString wav 12 4 = charCodes "fmt "
  /\ DataView.getUint32 wav 16 = 16
  /\ DataView.getUint16 wav 20 = 1
  /\ DataView.getUint16 wav 22 = JS.toUint16 C
  /\ DataView.getUint32 wav 24 = JS.toUint32 R
  /\ DataView.getUint32 wav 28 = JS.toUint32 (R * C * 16 / 8)
  /\ DataView.getUint16 wav 32 = JS.toUint16 (C * 16 / 8)
  /\ DataView.getUint16 wav 34 = 16
  /\ DataView.getString wav 36 4 = charCodes "data"
  /\ DataView.getUint32 wav 40 = JS.toUint32 (Z.of_nat n).
Proof.
  intros wav. subst wav. unfold wavHeader.
  repeat split;
    unfold DataView.getUint32, DataView.getUint16, DataView.byteAt, charCodes;
    cbn [nth app le32 le16 fmap list_fmap list_ascii_of_string Nat.add];
    first [ apply le32_value, toUint32_range
          | apply le16_value, toUint16_range ].
Qed.

Lemma quot_scaled_bounds (n c : Z) (d : positive) :
  0 <= c -> - Z.pos d <= n <= Z.pos d ->
  - c <= Z.quot (n * c) (Z.pos (d * 1)) <= c
  /\ (0 <= n -> 0 <= Z.quot (n * c) (Z.pos (d * 1)))
  /\ (n <= 0 -> Z.quot (n * c) (Z.pos (d * 1)) <= 0).
Proof.
  intros Hc Hn. rewrite Pos.mul_1_r.
  destruct (Z.le_gt_cases 0 n) as [Hpos|Hneg].
  - rewrite Z.quot_div_nonneg by nia.
    assert (0 <= (n * c) / Z.pos d) by (apply Z.div_pos; nia).
    assert ((n * c) / Z.pos d <= c).
    { apply Z.div_le_upper_bound; nia. }
    repeat split; try lia.
    intros. assert (n = 0) by lia. subst. by rewrite Z.mul_0_l, Zdiv_0_l.
  - assert (Hq : Z.quot (n * c) (Z.pos d) = - ((- n * c) / Z.pos d)).
    { rewrite <- (Z.quot_div_nonneg (- n * c)) by nia.
      rewrite <- Z.quot_opp_l by lia. f_equal. lia. }
    rewrite Hq.
    assert (0 <= (- n * c) / Z.pos d) by (apply Z.div_pos; nia).
    assert ((- n * c) / Z.pos d <= c).
    { apply Z.div_le_upper_bound; nia. }
    repeat split; lia.
Qed.

Lemma scaleSample_range (x : JS.num) :
  - 32768 <= JS.toInteger (scaleSample x) <= 32767.
Proof.
  destruct x as [|[n d]]; [cbn; lia|].
  unfold scaleSample, JS.min, JS.max, JS.ltb, JS.mul, JS.toInteger, JS.trunc,
    JS.Qltb.
  repeat match goal with
         | |- context [if ?a <? ?b then _ else _] =>
             destruct (Z.ltb_spec a b)
         end;
    cbn [Qnum Qden Qmult Qopp Z.opp] in *;
    match goal with
    | |- _ <= Z.quot (?m * ?c) (Z.pos (?e * 1)) <= _ =>
        pose proof (quot_scaled_bounds m c e)
    end; lia.
Qed.

Ltac case_ltb :=
  repeat match goal with
         | |- context [if ?a <? ?b then _ else _] =>
             lazymatch a with
             | context [if _ then _ else _] => fail
             | _ => lazymatch b with
                    | context [if _ then _ else _] => fail
                    | _ => destruct (Z.ltb_spec a b)
                    end
             end
         end.

Lemma scaleSample_in_range (x : Q) :
  (- (1 # 1) <= x)%Q -> (x <= 1 # 1)%Q ->
  JS.toInteger (scaleSample (JS.Num x)) = pcm16 x.
Proof.
  destruct x as [n d]. unfold Qle. cbn [Qnum Qden Qopp Z.opp]. intros Hlo Hhi.
  unfold pcm16, scaleSample, JS.min, JS.max, JS.ltb, JS.mul, JS.toInteger,
    JS.trunc, JS.Qltb.
  cbn [Qnum Qden Qmult Qopp Z.opp].
  case_ltb; cbn [Qnum Qden Qmult Qopp Z.opp] in *; case_ltb;
    cbn [Qnum Qden Qmult Qopp Z.opp] in *; case_ltb;
    cbn [Qnum Qden Qmult Qopp Z.opp] in *; try lia; try reflexivity.
  all: rewrite !Pos.mul_1_r.
  - replace (n * 32768) with (-32768 * Z.pos d) by lia.
    rewrite Z.quot_mul by lia. reflexivity.
  - replace (n * 32767) with (32767 * Z.pos d) by lia.
    rewrite Z.quot_mul by lia. reflexivity.
Qed.

Lemma toInt16_toUint16 (v : Z) :
  - 32768 <= v <= 32767 -> JS.toInt16 (JS.toUint16 v) = v.
Proof.
  intros Hv. unfold JS.toInt16, JS.toUint16. rewrite Z.mod_mod by lia.
  destruct (Z.ltb_spec (v mod 65536) 32768); Z.div_mod_to_equations; lia.
Qed.

Lemma length_sampleBytes (samples : list JS.num) :
  length (flat_map sampleBytes samples) = (2 * length samples)%nat.
Proof.
  induction samples as [|x samples IH]; [reflexivity|].
  cbn [flat_map length]. rewrite length_app, IH. cbn. lia.
Qed.

Lemma getInt16_sample (hdr : list Z) (samples : list JS.num) (j : nat)
    (x : JS.num) :
  length hdr = 44%nat -> samples !! j = Some x ->
  DataView.getInt16 (hdr ++ flat_map sampleBytes samples) (44 + 2 * j)
  = JS.toInteger (scaleSample x).
Proof.
  intros Hh Hj.
  pose proof (lookup_lt_Some _ _ _ Hj) as Hlt.
  rewrite <- (take_drop_middle samples j x Hj).
  rewrite flat_map_app. cbn [flat_map]. unfold sampleBytes at 2.
  rewrite (app_assoc hdr).
  unfold DataView.getInt16.
  rewrite getUint16_le16.
  - apply toInt16_toUint16, scaleSample_range.
  - rewrite length_app, length_sampleBytes, length_take, Hh. lia.
  - apply toUint16_range.
Qed.

Lemma interleave_loop (left right : list JS.num) (m k : nat)
    (done : list JS.num) :
  length done = (2 * k)%nat ->
  foldl
    (fun arr i =>
       <[(i * 2 + 1)%nat := f32At right i]> (<[(i * 2)%nat := f32At left i]> arr))
    (done ++ repeat (JS.Num (0 # 1)) (2 * m)) (seq k m)
  = done ++ flat_map (frame left right) (seq k m).
Proof.
  revert k done. induction m as [|m IH]; intros k done Hd.
  - cbn. reflexivity.
  - replace (2 * S m)%nat with (S (S (2 * m))) by lia.
    cbn [seq foldl repeat flat_map].
    rewrite insert_fresh by lia.
    rewrite insert_fresh by (rewrite length_app; cbn [length]; lia).
    rewrite <- (app_assoc done). cbn [app].
    change (f32At left k :: f32At right k :: repeat (JS.Num (0 # 1)) (2 * m))
      with (frame left right k ++ repeat (JS.Num (0 # 1)) (2 * m)).
    rewrite app_assoc.
    rewrite IH by (rewrite length_app; cbn [frame length]; lia).
    reflexivity.
Qed.

Lemma interleave_frames (left right : list JS.num) :
  length left = length right ->
  interleave left right = flat_map (frame left right) (seq 0 (length left)).
Proof.
  intros Hlen. unfold interleave. rewrite <- Hlen.
  replace (length left + length left)%nat with (2 * length left)%nat by lia.
  apply (interleave_loop left right (length left) 0 []). reflexivity.
Qed.

Lemma frames_lookup (left right : list JS.num) (a n i : nat) :
  (i < n)%nat ->
  flat_map (frame left right) (seq a n) !! (2 * i)%nat = Some (f32At left (a + i))
  /\ flat_map (frame left right) (seq a n) !! (2 * i + 1)%nat
     = Some (f32At right (a + i)).
Proof.
  revert a i. induction n as [|n IH]; intros a i Hi; [lia|].
  cbn [seq flat_map]. destruct i as [|i].
  - cbn. rewrite Nat.add_0_r. done.
  - replace (2 * S i)%nat with (S (S (2 * i))) by lia.
    cbn [frame app Nat.add lookup list_lookup].
    destruct (IH (S a) i ltac:(lia)) as [H1 H2].
    replace (a + S i)%nat with (S a + i)%nat by lia. split; assumption.
Qed.

Lemma frames_length (left right : list JS.num) (a n : nat) :
  length (flat_map (frame left right) (seq a n)) = (2 * n)%nat.
Proof.
  revert a. induction n as [|n IH]; intros a; [reflexivity|].
  cbn [seq flat_map]. rewrite length_app, IH. cbn. lia.
Qed.

Lemma toUint32_small (z : Z) : 0 <= z < 4294967296 -> JS.toUint32 z = z.
Proof. intros. unfold JS.toUint32. by apply Z.mod_small. Qed.

Lemma toUint16_small (z : Z) : 0 <= z < 65536 -> JS.toUint16 z = z.
Proof. intros. unfold JS.toUint16. by apply Z.mod_small. Qed.

Lemma wav_of_samples (buffer : AudioBuffer) (samples : list JS.num) (C : Z) :
  interleavedOf buffer = Some samples ->
  numberOfChannels buffer = C -> 1 <= C <= 2 ->
  0 <= sampleRate buffer -> sampleRate buffer * C * 2 < 4294967296 ->
  36 + Z.of_nat (length samples) * 2 < 4294967296 ->
  exists wav,
    audioBufferToWav buffer = Some wav
    /\ length wav = (44 + length samples * 2)%nat
    /\ WavFields wav C (sampleRate buffer) (Z.of_nat (length samples) * 2)
    /\ forall j x, samples !! j = Some x ->
         DataView.getInt16 wav (44 + 2 * j) = JS.toInteger (scaleSample x).
Proof.
  intros Hs HC HCr HR HRC HK.
  eexists. split; [by apply audioBufferToWav_bytes|]. rewrite HC.
  split; [|split].
  - rewrite length_app, length_sampleBytes. cbn. lia.
  - destruct (wavHeader_fields C (sampleRate buffer) (length samples * 2)
                (flat_map sampleBytes samples))
      as (h1 & h2 & h3 & h4 & h5 & h6 & h7 & h8 & h9 & h10 & h11 & h12 & h13).
    assert (Hdiv1 : sampleRate buffer * C * 16 / 8 = sampleRate buffer * C * 2).
    { replace (sampleRate buffer * C * 16) with (sampleRate buffer * C * 2 * 8)
        by lia. apply Z.div_mul. lia. }
    assert (Hdiv2 : C * 16 / 8 = C * 2).
    { replace (C * 16) with (C * 2 * 8) by lia. apply Z.div_mul. lia. }
    rewrite Hdiv1 in h9. rewrite Hdiv2 in h10.
    rewrite toUint32_small in h2 by lia.
    rewrite toUint16_small in h7 by lia.
    rewrite toUint32_small in h8 by nia.
    rewrite toUint32_small in h9 by nia.
    rewrite toUint16_small in h10 by lia.
    rewrite toUint32_small in h13 by lia.
    rewrite Nat2Z.inj_mul in h2, h13.
    constructor; assumption.
  - intros j x Hj. apply getInt16_sample; [reflexivity | assumption].
Qed.

Lemma f32At_lookup (arr : list JS.num) (i : nat) (x : JS.num) :
  arr !! i = Some x -> f32At arr i = x.
Proof. intros H. unfold f32At. by rewrite H. Qed.

(** C6: for a one- or two-channel buffer of [K] frames at rate [R] the
    encoder returns [44 + K*C*2] bytes: the canonical header with
    [chunkSize = 36 + dataLength], PCM tag 1, [C] channels, rate [R],
    [byteRate = R*C*2], [blockAlign = C*2], 16 bits per sample and
    [dataLength = K*C*2], followed by the frames in order, channels
    interleaved, every sample in [-1, 1] stored as the little-endian signed
    16-bit [pcm16] value. *)
Theorem wav_exactness (R : Z) (chans : list (list JS.num)) (K : nat) :
  1 <= Z.of_nat (length chans) <= 2 ->
  Forall (fun ch => length ch = K) chans ->
  0 <= R -> R * Z.of_nat (length chans) * 2 < 4294967296 ->
  36 + Z.of_nat K * Z.of_nat (length chans) * 2 < 4294967296 ->
  exists wav,
    audioBufferToWav {| sampleRate := R; channels := chans |} = Some wav
    /\ Z.of_nat (length wav) = 44 + Z.of_nat K * Z.of_nat (length chans) * 2
    /\ WavFields wav (Z.of_nat (length chans)) R
         (Z.of_nat K * Z.of_nat (length chans) * 2)
    /\ forall (c i : nat) (ch : list JS.num) (x : Q),
         chans !! c = Some ch -> ch !! i = Some (JS.Num x) ->
         (- (1 # 1) <= x)%Q -> (x <= 1 # 1)%Q ->
         DataView.getInt16 wav (44 + 2 * (i * length chans + c)) = pcm16 x.
Proof.
  intros HC Hlen HR HRC HK.
  destruct chans as [|left [|right [|? ?]]]; cbn [length] in *; try lia;
    change (Z.of_nat 1) with 1 in *; change (Z.of_nat 2) with 2 in *.
  - (* mono *)
    apply Forall_cons in Hlen as [Hl _].
    destruct (wav_of_samples {| sampleRate := R; channels := [left] |} left 1)
      as (wav & Hwav & Hlenw & Hf & Hsamples);
      try reflexivity; cbn [sampleRate]; try lia.
    exists wav. rewrite Hl in *.
    split; [assumption|]. split; [lia|]. split.
    + replace (Z.of_nat K * 1 * 2) with (Z.of_nat K * 2) by lia. exact Hf.
    + intros c i ch x Hc Hi Hlo Hhi.
      destruct c as [|c]; [|by destruct c].
      injection Hc as <-.
      replace (i * 1 + 0)%nat with i by lia.
      rewrite (Hsamples i _ Hi). by apply scaleSample_in_range.
  - (* stereo *)
    apply Forall_cons in Hlen as [Hl Hlen].
    apply Forall_cons in Hlen as [Hr _].
    assert (Hi : interleavedOf {| sampleRate := R; channels := [left; right] |}
                 = Some (flat_map (frame left right) (seq 0 K))).
    { change (interleavedOf {| sampleRate := R; channels := [left; right] |})
        with (Some (interleave left right)).
      rewrite interleave_frames by congruence. by rewrite Hl. }
    destruct (wav_of_samples _ _ 2 Hi) as (wav & Hwav & Hlenw & Hf & Hsamples);
      try reflexivity; cbn [sampleRate]; rewrite ?frames_length; try lia.
    exists wav. rewrite frames_length in *.
    split; [assumption|]. split; [lia|]. split.
    + replace (Z.of_nat K * 2 * 2) with (Z.of_nat (2 * K) * 2) by lia.
      exact Hf.
    + intros c i ch x Hc Hx Hlo Hhi.
      assert (i < K)%nat.
      { apply lookup_lt_Some in Hx.
        destruct c as [|[|c]]; cbn in Hc; try discriminate;
          injection Hc as <-; lia. }
      destruct (frames_lookup left right 0 K i ltac:(assumption)) as [H0 H1].
      cbn [Nat.add] in H0, H1.
      destruct c as [|[|c]]; cbn in Hc; try discriminate; injection Hc as <-.
      * replace (i * 2 + 0)%nat with (2 * i)%nat by lia.
        rewrite (Hsamples _ _ H0), (f32At_lookup _ _ _ Hx).
        by apply scaleSample_in_range.
      * replace (i * 2 + 1)%nat with (2 * i + 1)%nat by lia.
        rewrite (Hsamples _ _ H1), (f32At_lookup _ _ _ Hx).
        by apply scaleSample_in_range.
Qed.

Lemma scaleSample_clamps (q : Q) :
  ((q < - (1 # 1))%Q -> JS.toInteger (scaleSample (JS.Num q)) = - 32768)
  /\ ((1 # 1 < q)%Q -> JS.toInteger (scaleSample (JS.Num q)) = 32767).
Proof.
  destruct q as [n d]. unfold Qlt. cbn [Qnum Qden Qopp Z.opp].
  unfold scaleSample, JS.min, JS.max, JS.ltb, JS.mul, JS.toInteger,
    JS.trunc, JS.Qltb.
  cbn [Qnum Qden Qmult Qopp Z.opp].
  split; intros H;
  case_ltb; cbn [Qnum Qden Qmult Qopp Z.opp] in *; case_ltb;
    cbn [Qnum Qden Qmult Qopp Z.opp] in *; case_ltb;
    cbn [Qnum Qden Qmult Qopp Z.opp] in *; try lia; try reflexivity.
Qed.

(** C10: every sample, whatever its value, is clamped to [-1, 1] before it
    is scaled, so the integer handed to [setInt16] lies in [-32768, 32767],
    is stored unchanged by the conversion to 16 bits, and is what a reader
    gets back. *)
Theorem wav_samples_never_wrap (buffer : AudioBuffer) (samples : list JS.num) :
  interleavedOf buffer = Some samples ->
  exists wav,
    audioBufferToWav buffer = Some wav
    /\ forall (j : nat) (x : JS.num),
         samples !! j = Some x ->
         let v := JS.toInteger (scaleSample x) in
         - 32768 <= v <= 32767
         /\ JS.toInt16 v = v
         /\ DataView.getInt16 wav (44 + 2 * j) = v
         /\ (forall q : Q, x = JS.Num q ->
               ((q < - (1 # 1))%Q -> v = - 32768)
               /\ ((1 # 1 < q)%Q -> v = 32767)
               /\ ((- (1 # 1) <= q)%Q -> (q <= 1 # 1)%Q -> v = pcm16 q)).
Proof.
  intros Hs. eexists. split; [by apply audioBufferToWav_bytes|].
  intros j x Hj v. subst v.
  pose proof (scaleSample_range x) as Hr.
  split; [exact Hr|]. split; [|split].
  - unfold JS.toInt16.
    destruct (Z.ltb_spec (JS.toInteger (scaleSample x) mod 65536) 32768);
      Z.div_mod_to_equations; lia.
  - apply getInt16_sample; [reflexivity | assumption].
  - intros q ->. destruct (scaleSample_clamps q) as [Hlo Hhi].
    split; [exact Hlo|]. split; [exact Hhi|]. apply scaleSample_in_range.
Qed.

Lemma wav_exactness_witness :
  exists wav,
    audioBufferToWav
      {| sampleRate := 44100;
         channels := [[JS.Num (1 # 2); JS.Num (- 1 # 2)];
                      [JS.Num (1 # 1); JS.Num (- 1 # 1)]] |} = Some wav
    /\ Z.of_nat (length wav) = 44 + Z.of_nat 2 * Z.of_nat 2 * 2
    /\ WavFields wav (Z.of_nat 2) 44100 (Z.of_nat 2 * Z.of_nat 2 * 2)
    /\ forall (c i : nat) (ch : list JS.num) (x : Q),
         [[JS.Num (1 # 2); JS.Num (- 1 # 2)];
          [JS.Num (1 # 1); JS.Num (- 1 # 1)]] !! c = Some ch ->
         ch !! i = Some (JS.Num x) ->
         (- (1 # 1) <= x)%Q -> (x <= 1 # 1)%Q ->
         DataView.getInt16 wav (44 + 2 * (i * 2 + c)) = pcm16 x.
Proof.
  apply (wav_exactness 44100
           [[JS.Num (1 # 2); JS.Num (- 1 # 2)];
            [JS.Num (1 # 1); JS.Num (- 1 # 1)]] 2).
  - simpl. lia.
  - repeat constructor.
  - lia.
  - simpl. lia.
  - simpl. lia.
Defined.

Lemma wav_samples_never_wrap_witness :
  interleavedOf {| sampleRate := 48000;
                   channels := [[JS.Num (5 # 2); JS.NaN; JS.Num (- 7 # 3)]] |}
  = Some [JS.Num (5 # 2); JS.NaN; JS.Num (- 7 # 3)]
  /\ exists wav,
       audioBufferToWav
         {| sampleRate := 48000;
            channels := [[JS.Num (5 # 2); JS.NaN; JS.Num (- 7 # 3)]] |}
       = Some wav
       /\ forall (j : nat) (x : JS.num),
            [JS.Num (5 # 2); JS.NaN; JS.Num (- 7 # 3)] !! j = Some x ->
            let v := JS.toInteger (scaleSample x) in
            - 32768 <= v <= 32767
            /\ JS.toInt16 v = v
            /\ DataView.getInt16 wav (44 + 2 * j) = v
            /\ (forall q : Q, x = JS.Num q ->
                  ((q < - (1 # 1))%Q -> v = - 32768)
                  /\ ((1 # 1 < q)%Q -> v = 32767)
                  /\ ((- (1 # 1) <= q)%Q -> (q <= 1 # 1)%Q -> v = pcm16 q)).
Proof.
  split; [reflexivity|].
  apply (wav_samples_never_wrap
           {| sampleRate := 48000;
              channels := [[JS.Num (5 # 2); JS.NaN; JS.Num (- 7 # 3)]] |}).
  reflexivity.
Defined.

End WavFacts.

(** ** The scheduler *)

Section RhythmFacts.

Import Rhythm Closure RhythmSpec.

(** *** The pattern table *)

Lemma PATTERNS_steps (name : string) (p : Pattern) :
  PATTERNS !! name = Some p -> steps p = 16 \/ steps p = 12.
Proof.
  intros H. unfold PATTERNS in H.
  apply elem_of_list_to_map_2 in H.
  unfold PATTERN_ENTRIES in H.
  repeat match goal with
         | H : _ ∈ _ :: _ |- _ => apply elem_of_cons in H as [H|H]
         | H : _ ∈ [] |- _ => by apply elem_of_nil in H
         | H : (_, _) = (_, _) |- _ => injection H as -> ->
         end; cbn; auto.
Qed.

Lemma getPatternSteps_cases (r : t) :
  getPatternSteps r = 16 \/ getPatternSteps r = 12.
Proof.
  unfold getPatternSteps.
  destruct (PATTERNS !! currentPattern r) as [p|] eqn:E; [|by left].
  destruct (PATTERNS_steps _ _ E) as [-> | ->]; cbn; auto.
Qed.

Lemma getPatternSteps_pos (r : t) : 1 < getPatternSteps r.
Proof. destruct (getPatternSteps_cases r); lia. Qed.

(** *** One iteration of the scheduler loop *)

Lemma scheduleStep_frame (r : t) (step : Z) (time : Q) :
  let r' := fst (scheduleStep r step time) in
  playing r' = playing r /\ tempo r' = tempo r /\ volume r' = volume r
  /\ currentStep r' = currentStep r /\ currentPattern r' = currentPattern r
  /\ lookaheadTimer r' = lookaheadTimer r /\ nextStepTime r' = nextStepTime r
  /\ metronomeOn r' = metronomeOn r.
Proof.
  unfold scheduleStep.
  destruct (PATTERNS !! currentPattern r); [|cbn; tauto].
  destruct (countInCallback r); [|cbn; tauto].
  destruct (step =? 0); [|cbn; tauto].
  destruct (0 <? countInStep r); cbn; tauto.
Qed.

Lemma scheduleStep_entry (r : t) (step : Z) (time : Q) :
  slStep (snd (scheduleStep r step time)) = step
  /\ slTime (snd (scheduleStep r step time)) = time.
Proof.
  unfold scheduleStep.
  destruct (PATTERNS !! currentPattern r); [|cbn; tauto].
  destruct (countInCallback r); [|cbn; tauto].
  destruct (step =? 0); [|cbn; tauto].
  destruct (0 <? countInStep r); cbn; tauto.
Qed.

Lemma when_Forall {A : Type} (P : A -> Prop) (c : bool) (x : A) :
  P x -> Forall P (when c x).
Proof. intros H. destruct c; cbn; repeat constructor; assumption. Qed.


Lemma schedulerIteration_spec (r : t) :
  let r' := fst (schedulerIteration r) in
  let e := snd (schedulerIteration r) in
  playing r' = playing r /\ tempo r' = tempo r
  /\ currentPattern r' = currentPattern r
  /\ lookaheadTimer r' = lookaheadTimer r
  /\ nextStepTime r' = (nextStepTime r + getStepDuration r)%Q
  /\ currentStep r' = Z.rem (currentStep r + 1) (getPatternSteps r)
  /\ slStep e = currentStep r /\ slTime e = nextStepTime r.
Proof.
  unfold schedulerIteration.
  pose proof (scheduleStep_frame r (currentStep r) (nextStepTime r)) as Hf.
  pose proof (scheduleStep_entry r (currentStep r) (nextStepTime r)) as He.
  destruct (scheduleStep r (currentStep r) (nextStepTime r)) as [r1 e].
  cbn [fst snd] in *.
  destruct Hf as (? & Ht & ? & Hs & Hp & ? & Hn & ?). destruct He as [? ?].
  unfold getStepDuration, getPatternSteps. cbn. rewrite Ht, Hp, Hs, Hn.
  tauto.
Qed.

Lemma Qltb_lt (a b : Q) : JS.Qltb a b = true <-> (a < b)%Q.
Proof. unfold JS.Qltb, Qlt. apply Z.ltb_lt. Qed.

Lemma Qltb_ge (a b : Q) : JS.Qltb a b = false <-> (b <= a)%Q.
Proof. unfold JS.Qltb, Qle. rewrite Z.ltb_ge. reflexivity. Qed.


(** *** The loop as a number of iterations *)

Lemma iterations_app (n m : nat) (r : t) :
  iterations (n + m) r
  = let '(r1, l1) := iterations n r in
    let '(r2, l2) := iterations m r1 in
    (r2, l1 ++ l2).
Proof.
  revert r. induction n as [|n IH]; intros r.
  - cbn. by destruct (iterations m r).
  - cbn [Nat.add iterations]. destruct (schedulerIteration r) as [r1 e].
    rewrite IH. destruct (iterations n r1) as [r2 l1].
    by destruct (iterations m r2).
Qed.

Lemma schedulerLoop_iterations (fuel : nat) (now : Q) (r r' : t)
    (log : list StepLog) :
  schedulerLoop fuel now r = Some (r', log) ->
  iterations (length log) r = (r', log)
  /\ (now + SCHEDULE_AHEAD <= nextStepTime r')%Q.
Proof.
  revert r r' log. induction fuel as [|fuel IH]; intros r r' log; cbn.
  - destruct (JS.Qltb _ _) eqn:E; [discriminate|].
    intros [= <- <-]. by apply Qltb_ge in E.
  - destruct (JS.Qltb _ _) eqn:E.
    + destruct (schedulerIteration r) as [r1 e] eqn:Es.
      destruct (schedulerLoop fuel now r1) as [[r2 l]|] eqn:El; [|discriminate].
      intros [= <- <-]. destruct (IH _ _ _ El) as [Hi Hn].
      split; [|exact Hn]. cbn [length iterations]. by rewrite Es, Hi.
    + intros [= <- <-]. by apply Qltb_ge in E.
Qed.





Lemma iterations_frame (n : nat) (r : t) :
  let r' := fst (iterations n r) in
  playing r' = playing r /\ tempo r' = tempo r
  /\ currentPattern r' = currentPattern r
  /\ lookaheadTimer r' = lookaheadTimer r.
Proof.
  revert r. induction n as [|n IH]; intros r; [cbn; tauto|].
  cbn [iterations]. pose proof (schedulerIteration_spec r) as Hs.
  destruct (schedulerIteration r) as [r1 e]. cbn [fst snd] in Hs.
  specialize (IH r1). destruct (iterations n r1) as [r2 l]. cbn [fst] in *.
  destruct Hs as (H1 & H2 & H3 & H4 & _).
  rewrite <- H1, <- H2, <- H3, <- H4. exact IH.
Qed.

Lemma tick_iterations (ctx : option Q) (r r' : t) (log : list StepLog) :
  tick ctx r = Some (r', log) -> iterations (length log) r = (r', log).
Proof.
  unfold tick, scheduler.
  destruct (lookaheadTimer r); [|by intros [= <- <-]].
  destruct ctx as [now|]; [|by intros [= <- <-]].
  intros H. by apply schedulerLoop_iterations in H as [? _].
Qed.

Lemma ticks_iterations (clock : list Q) (r r' : t) (log : list StepLog) :
  ticks clock r = Some (r', log) -> iterations (length log) r = (r', log).
Proof.
  revert r r' log. induction clock as [|now clock IH]; intros r r' log; cbn [ticks].
  - by intros [= <- <-].
  - destruct (tick (Some now) r) as [[r1 l1]|] eqn:E1; [|discriminate].
    destruct (ticks clock r1) as [[r2 l2]|] eqn:E2; [|discriminate].
    intros [= <- <-]. rewrite length_app, iterations_app.
    by rewrite (tick_iterations _ _ _ _ E1), (IH _ _ _ E2).
Qed.


(** *** Times and step indices along a run *)



Lemma getPatternSteps_iteration (r : t) :
  getPatternSteps (schedulerIteration r).1 = getPatternSteps r.
Proof.
  pose proof (schedulerIteration_spec r) as (_ & _ & Hp & _).
  unfold getPatternSteps. by rewrite Hp.
Qed.

Lemma step_advance (s n : Z) :
  0 <= s < n -> Z.rem (s + 1) n = (s + 1) mod n /\ 0 <= Z.rem (s + 1) n < n.
Proof.
  intros H. rewrite Z.rem_mod_nonneg by lia. split; [reflexivity|].
  apply Z.mod_pos_bound. lia.
Qed.

Lemma iterations_steps (n : nat) (r : t) :
  0 <= currentStep r < getPatternSteps r ->
  (forall (k : nat) (e : StepLog),
     (iterations n r).2 !! k = Some e ->
     slStep e = (currentStep r + Z.of_nat k) mod getPatternSteps r)
  /\ 0 <= currentStep (iterations n r).1 < getPatternSteps r.
Proof.
  revert r. induction n as [|n IH]; intros r Hr.
  - cbn. split; [intros k e H; discriminate | assumption].
  - cbn [iterations]. pose proof (schedulerIteration_spec r) as Hs.
    pose proof (getPatternSteps_iteration r) as Hp.
    destruct (schedulerIteration r) as [r1 e1]. cbn [fst snd] in Hs, Hp.
    destruct Hs as (_ & _ & _ & _ & _ & Hstep & Hidx & _).
    destruct (step_advance _ _ Hr) as [Hmod Hrange]. rewrite <- Hstep in *.
    destruct (IH r1) as [IHk IHn]; [by rewrite Hp|].
    destruct (iterations n r1) as [r2 l]. cbn [fst snd] in *.
    rewrite Hp in *. split; [|assumption].
    intros [|k] e Hk.
    + injection Hk as <-. rewrite Hidx, Z.add_0_r. symmetry.
      apply Z.mod_small. assumption.
    + cbn in Hk. rewrite (IHk k e Hk), Hmod.
      rewrite Zplus_mod_idemp_l. f_equal. lia.
Qed.

(** *** Reachable states satisfy the invariant *)

Lemma clamp_tempo (bpm : Q) :
  let m := if JS.Qltb bpm (200 # 1) then bpm else 200 # 1 in
  let v := if JS.Qltb (60 # 1) m then m else 60 # 1 in
  (60 # 1 <= v)%Q /\ (v <= 200 # 1)%Q.
Proof.
  cbn zeta.
  destruct (JS.Qltb bpm (200 # 1)) eqn:E1.
  - apply Qltb_lt in E1.
    destruct (JS.Qltb (60 # 1) bpm) eqn:E2.
    + apply Qltb_lt in E2. lra.
    + lra.
  - destruct (JS.Qltb (60 # 1) (200 # 1)) eqn:E2; lra.
Qed.

Lemma Invariant_initial : Invariant initial.
Proof.
  constructor.
  - reflexivity.
  - reflexivity.
  - vm_compute. by eexists.
  - change (getPatternSteps initial) with 16. cbn. lia.
  - split; unfold Qle; cbn; lia.
Qed.

Lemma Invariant_fields (r r' : t) :
  Invariant r ->
  lookaheadTimer r' = lookaheadTimer r -> playing r' = playing r ->
  currentPattern r' = currentPattern r -> currentStep r' = currentStep r ->
  tempo r' = tempo r ->
  Invariant r'.
Proof.
  intros [] H1 H2 H3 H4 H5.
  constructor; unfold getPatternSteps in *; rewrite ?H1, ?H2, ?H3, ?H4, ?H5;
    assumption.
Qed.

Lemma Invariant_start (ctx : option Q) (r : t) :
  Invariant r -> Invariant (start ctx r).
Proof.
  intros Hi. unfold start. destruct (playing r) eqn:Ep; [assumption|].
  destruct ctx as [now|]; [|assumption].
  destruct Hi. constructor; cbn; try assumption; try reflexivity.
  match goal with |- _ <= _ < getPatternSteps ?x =>
    pose proof (getPatternSteps_pos x) end. lia.
Qed.

Lemma Invariant_stop (r : t) : Invariant r -> Invariant (stop r).
Proof.
  intros Hi. unfold stop. destruct (playing r) eqn:Ep; [|assumption].
  destruct Hi. constructor; cbn; try assumption; try reflexivity.
  match goal with |- _ <= _ < getPatternSteps ?x =>
    pose proof (getPatternSteps_pos x) end. lia.
Qed.

Lemma Invariant_iterations (n : nat) (r : t) :
  Invariant r -> playing r = true -> Invariant (iterations n r).1.
Proof.
  intros Hi Hp. pose proof (iterations_frame n r) as (H1 & H2 & H3 & H4).
  destruct (iterations_steps n r (inv_step r Hi)) as [_ Hs].
  destruct Hi. constructor.
  - by rewrite H4, H1.
  - rewrite H1, Hp. discriminate.
  - by rewrite H3.
  - unfold getPatternSteps in *. by rewrite H3.
  - by rewrite H2.
Qed.

Lemma Invariant_tick (ctx : option Q) (r r' : t) (log : list StepLog) :
  Invariant r -> tick ctx r = Some (r', log) -> Invariant r'.
Proof.
  intros Hi Ht.
  destruct (lookaheadTimer r) eqn:El.
  - pose proof (tick_iterations _ _ _ _ Ht) as Hit.
    pose proof (Invariant_iterations (length log) r Hi) as H.
    rewrite Hit in H. apply H. rewrite <- (inv_timer r Hi). exact El.
  - unfold tick in Ht. rewrite El in Ht. by injection Ht as <- <-.
Qed.

Lemma Invariant_setPattern (name : string) (r : t) :
  Invariant r -> Invariant (setPattern name r).
Proof.
  intros Hi. unfold setPattern.
  destruct (PATTERNS !! name) as [p|] eqn:E; [|assumption].
  assert (Hn : 1 < getPatternSteps (set_currentPattern name r))
    by apply getPatternSteps_pos.
  assert (Hsome : is_Some (PATTERNS !! name)) by (rewrite E; by eexists).
  destruct Hi. cbn [playing set_currentPattern].
  destruct (playing r) eqn:Ep.
  - constructor; cbn [lookaheadTimer playing currentStep currentPattern tempo
                       set_currentStep set_currentPattern]; try assumption.
    + congruence.
    + congruence.
    + change (getPatternSteps (set_currentStep _ _))
        with (getPatternSteps (set_currentPattern name r)).
      rewrite Z.rem_mod_nonneg by lia. apply Z.mod_pos_bound. lia.
  - constructor; cbn [lookaheadTimer playing currentStep currentPattern tempo
                       set_currentPattern]; try assumption.
    + congruence.
    + intros _. by apply inv_stopped0.
    + rewrite inv_stopped0 by reflexivity. lia.
Qed.

Lemma Invariant_startCountIn (cb : Callback) (ctx : option Q) (r : t) :
  Invariant r -> Invariant (startCountIn cb ctx r).
Proof.
  intros Hi. unfold startCountIn.
  eapply Invariant_fields with
    (r := if negb (playing (set_metronomeOn true r))
          then start ctx (set_metronomeOn true r) else set_metronomeOn true r);
    try reflexivity.
  assert (Hm : Invariant (set_metronomeOn true r))
    by (eapply Invariant_fields; eauto).
  destruct (negb _); [by apply Invariant_start | assumption].
Qed.

Lemma Reachable_Invariant (r : t) : Reachable r -> Invariant r.
Proof.
  induction 1.
  - apply Invariant_initial.
  - by apply Invariant_start.
  - by apply Invariant_stop.
  - unfold toggle. cbn [fst].
    destruct (playing r); [by apply Invariant_stop | by apply Invariant_start].
  - destruct IHReachable. constructor; try assumption. apply clamp_tempo.
  - eapply Invariant_fields; eauto.
  - by apply Invariant_setPattern.
  - eapply Invariant_fields; eauto.
  - by apply Invariant_startCountIn.
  - eapply Invariant_tick; eauto.
  - unfold runCountIn. destruct (negb _); [|assumption].
    eapply Invariant_fields; eauto.
Qed.

Lemma Invariant_tempo_pos (r : t) : Invariant r -> (0 < tempo r)%Q.
Proof. intros [_ _ _ _ [H _]]. lra. Qed.

(** *** The count-in hook *)








(** C8: on every reachable scheduler state, [stop] on a stopped scheduler
    changes nothing, [stop] always leaves the scheduler stopped with step
    index 0, and a second [stop] changes nothing. *)
Theorem stop_idempotent (r : t) :
  Reachable r ->
  (playing r = false -> stop r = r)
  /\ playing (stop r) = false
  /\ currentStep (stop r) = 0
  /\ stop (stop r) = stop r.
Proof.
  intros Hr. apply Reachable_Invariant in Hr as [_ Hstopped _ _ _].
  unfold stop. destruct (playing r) eqn:Ep; cbn; rewrite ?Ep; cbn.
  - repeat split; try discriminate; reflexivity.
  - repeat split; try reflexivity. by apply Hstopped.
Qed.





Lemma stop_idempotent_witness :
  Reachable (start (Some (0 # 1)) initial)
  /\ ((playing (start (Some (0 # 1)) initial) = false ->
       stop (start (Some (0 # 1)) initial) = start (Some (0 # 1)) initial)
      /\ playing (stop (start (Some (0 # 1)) initial)) = false
      /\ currentStep (stop (start (Some (0 # 1)) initial)) = 0
      /\ stop (stop (start (Some (0 # 1)) initial))
         = stop (start (Some (0 # 1)) initial)).
Proof.
  assert (H : Reachable (start (Some (0 # 1)) initial)).
  { apply reach_start. apply reach_initial. }
  split; [exact H|].
  exact (stop_idempotent (start (Some (0 # 1)) initial) H).
Defined.



End RhythmFacts.

(** ** The recorder *)

Section RecorderFacts.

Import Recorder Exporter Closure RecorderSpec.





Lemma playLoop_with_layers (env : Env) (w : World) :
  layers (recorder w) <> [] ->
  state (recorder (playLoop env w)) = Playing
  /\ mediaRecorder (recorder (playLoop env w)) = mediaRecorder (recorder w).
Proof.
  intros Hl. unfold playLoop.
  destruct (layers (recorder w)) as [|l ls]; [contradiction|].
  unfold onRecorder. cbn [recorder].
  destruct (audioElement (set_state Playing (recorder w))); split; reflexivity.
Qed.

Lemma stopRecording_when_playing (w : World) :
  state (recorder w) = Playing -> stopRecording w = w.
Proof. intros H. unfold stopRecording. by rewrite H. Qed.

(** The overdub path: the state set to Overdub is overwritten by the call of
    [playLoop], and [stopRecording] then no longer reaches the capture. *)
Lemma startOverdub_ends_playing (env : Env) (w : World) (stream : Stream) :
  mediaStream env = Some stream -> layers (recorder w) <> [] ->
  let w' := startOverdub env w in
  getState w' = Playing
  /\ mediaRecorder (recorder w')
     = Some {| mrStream := stream; mrActive := true; mrOnstop := OnOverdubStop |}
  /\ stopRecording w' = w'.
Proof.
  intros Hs Hl w'. subst w'. unfold startOverdub, getState.
  set (w1 := onRecorder (startMediaRecorder stream OnOverdubStop)
               (onRecorder
                  (fun r =>
                     set_recordStartTime (now env)
                       (set_audioChunks []
                          (set_eventLog [] (set_state Overdub r)))) w)).
  assert (Hl1 : layers (recorder w1) <> []) by exact Hl.
  destruct (playLoop_with_layers env w1 Hl1) as [Hstate Hmr].
  assert (Hgo : startOverdub env w
                = if JS.Qltb (0 # 1) (loopDurationMs (recorder (playLoop env w1)))
                  then addTask
                         (Deadline Overdub
                            (loopDurationMs (recorder (playLoop env w1))))
                         (playLoop env w1)
                  else playLoop env w1).
  { unfold startOverdub. rewrite Hs.
    destruct (layers (recorder w)) as [|l ls]; [contradiction|].
    by destruct (audioBlob (recorder w)). }
  fold (startOverdub env w). rewrite Hgo.
  destruct (JS.Qltb _ _).
  - split; [exact Hstate|]. split; [exact Hmr|].
    by apply stopRecording_when_playing.
  - split; [exact Hstate|]. split; [exact Hmr|].
    by apply stopRecording_when_playing.
Qed.

(** The count-in callback is not guarded: whatever the recorder state, it
    starts a capture. *)
Lemma countIn_fire_unguarded (env : Env) (c : CountIn) (w : World) :
  let w' := runTask env (CountInFire c) w in
  getState w' = Recording
  /\ exists stream,
       callback c = ActuallyStartRecording stream
       /\ mediaRecorder (recorder w')
          = Some {| mrStream := stream; mrActive := true;
                    mrOnstop := OnRecordingStop |}.
Proof.
  destruct c as [was [stream]]. cbn [runTask callback].
  unfold actuallyStartRecording, getState. cbn.
  destruct (0 <? loopLengthBars (recorder w)); cbn;
    destruct (JS.Qltb _ _); cbn; eauto.
Qed.

(** C4 on a fresh session at 120 BPM: [stopRecording] during the count-in
    returns the recorder to Idle, yet the scheduler still holds the closure;
    one bar later it hands it to [setTimeout], and when it runs the recorder
    goes to Recording with an active capture. *)
Theorem stale_count_in_starts_capture :
  let w1 := startRecording (studio (0 # 1)) initialWorld in
  let w2 := stopRecording w1 in
  getState w1 = CountingIn /\ getState w2 = Idle
  /\ exists (w3 : World) (c : CountIn),
       schedulerTick (2 # 1) w2 = Some w3
       /\ tasks w3 = [CountInFire c]
       /\ getState w3 = Idle
       /\ getState (runPending (studio (2000 # 1)) 0 w3) = Recording
       /\ mediaRecorder (recorder (runPending (studio (2000 # 1)) 0 w3))
          = Some {| mrStream := MediaStream 0; mrActive := true;
                    mrOnstop := OnRecordingStop |}.
Proof.
  cbn zeta. split; [reflexivity|]. split; [reflexivity|].
  destruct (schedulerTick (2 # 1)
              (stopRecording (startRecording (studio (0 # 1)) initialWorld)))
    as [w3|] eqn:E; [|vm_compute in E; discriminate].
  vm_compute in E. injection E as <-.
  eexists _, _. split; [reflexivity|]. split; [reflexivity|].
  split; [reflexivity|]. split; reflexivity.
Qed.

(** C7, amended: [clear] leaves the recorder Idle with no layer, an empty
    working log and a zero loop duration, keeps the configured number of
    bars, and makes both exports return without a download. *)
Theorem clear_resets (env : Env) (w : World) :
  let w' := clear w in
  getState w' = Idle
  /\ layers (recorder w') = []
  /\ eventLog (recorder w') = []
  /\ loopDurationMs (recorder w') = 0 # 1
  /\ loopLengthBars (recorder w') = loopLengthBars (recorder w)
  /\ exportWAV env w' = (w', None)
  /\ exportMIDI w' = (w', None).
Proof. cbn. repeat split. Qed.

(** C7, as stated, fails: with a loop length of two bars configured,
    [clear] keeps the two bars, and the next recording is again given a
    deadline of two bars. *)
Lemma clear_keeps_bar_count :
  let w := setLoopLength (Bars 2) initialWorld in
  loopLengthBars (recorder (clear w)) = 2
  /\ ~ loopLengthUnset (clear w)
  /\ exists delay : Q,
       tasks (runTask (studio (0 # 1))
                (CountInFire
                   {| wasMetronomeOn := false;
                      callback := ActuallyStartRecording (MediaStream 0) |})
                (clear w))
       = [Deadline Recording delay]
       /\ (delay == 4000 # 1)%Q.
Proof.
  cbn zeta. split; [reflexivity|]. split.
  - intros [H _]. discriminate H.
  - eexists. split; [vm_compute; reflexivity | reflexivity].
Qed.

End RecorderFacts.

(** ** Determinism of the exporters *)

Section DeterminismFacts.

Import Exporter Recorder WavLayout ExporterSpec.



Lemma trunc_comp (a b : Q) : (a == b)%Q -> JS.trunc a = JS.trunc b.
Proof.
  destruct a as [n d], b as [n' d']. unfold Qeq, JS.trunc. cbn. intros H.
  rewrite <- (Z.quot_mul_cancel_r n (Z.pos d) (Z.pos d')) by lia.
  rewrite H. rewrite (Z.mul_comm (Z.pos d)).
  apply Z.quot_mul_cancel_r; lia.
Qed.

(** *** MIDI *)







(** *** WAV *)





Lemma audioBufferToWav_none (buffer : AudioBuffer) :
  interleavedOf buffer = None -> audioBufferToWav buffer = None.
Proof.
  intros H. unfold audioBufferToWav. fold (interleavedOf buffer). by rewrite H.
Qed.







End DeterminismFacts.

(** ** The MIDI exporter *)

Section MidiFacts.

Import Exporter ExporterSpec.

(** *** Bit operations on small non-negative numbers *)

Lemma toInt32_small (v : Z) : 0 <= v < 2147483648 -> JS.toInt32 v = v.
Proof.
  intros H. unfold JS.toInt32. rewrite Z.mod_small by lia.
  destruct (Z.ltb_spec v 2147483648); lia.
Qed.

Lemma band_7F (v : Z) : JS.band v 0x7F = JS.toInt32 v mod 128.
Proof.
  unfold JS.band. rewrite (toInt32_small 127) by lia.
  apply (Z.land_ones _ 7). lia.
Qed.

Lemma band_FF (v : Z) : JS.band v 0xFF = JS.toInt32 v mod 256.
Proof.
  unfold JS.band. rewrite (toInt32_small 255) by lia.
  apply (Z.land_ones _ 8). lia.
Qed.

Lemma sar_small (v n : Z) :
  0 <= v < 2147483648 -> 0 <= n -> JS.sar v n = v / 2 ^ n.
Proof.
  intros Hv Hn. unfold JS.sar. rewrite toInt32_small by lia.
  by apply Z.shiftr_div_pow2.
Qed.

Lemma lor_128 (x : Z) : 0 <= x < 128 -> Z.lor x 128 = x + 128.
Proof.
  intros H. rewrite <- (Z.add_lor_land x 128).
  assert (Z.land x 128 = 0); [|lia].
  destruct x as [|p|p]; try lia; try reflexivity.
  do 8 (try destruct p as [p|p|]); try reflexivity; lia.
Qed.

Lemma continuation_byte (v : Z) :
  0 <= v < 2147483648 ->
  JS.bor (JS.band v 0x7F) 0x80 = v mod 128 + 128.
Proof.
  intros H. rewrite band_7F, toInt32_small by lia.
  unfold JS.bor. rewrite (toInt32_small 128) by lia.
  assert (0 <= v mod 128 < 128) by (apply Z.mod_pos_bound; lia).
  rewrite toInt32_small by lia. by apply lor_128.
Qed.

(** *** Variable-length quantities *)

Lemma varLenLoop_read (fuel : nat) (v : Z) (bytes : list Z) :
  0 <= v < 2147483648 -> v < 128 ^ Z.of_nat fuel ->
  exists pre : list Z,
    varLenLoop fuel v bytes = Some (pre ++ bytes)
    /\ Forall (fun b => 0 <= b < 256) pre
    /\ forall (acc : Z) (tail : list Z),
         SMF.readVarLen acc (pre ++ tail)
         = SMF.readVarLen (acc * 128 ^ Z.of_nat (length pre) + v) tail.
Proof.
  revert v bytes. induction fuel as [|fuel IH]; intros v bytes Hv Hf.
  - change (128 ^ Z.of_nat 0) with 1 in Hf. assert (v = 0) as -> by lia.
    exists []. cbn. split; [reflexivity|]. split; [constructor|].
    intros acc tail. f_equal. lia.
  - cbn [varLenLoop]. destruct (Z.ltb_spec 0 v) as [Hpos|Hz].
    + rewrite continuation_byte by lia. rewrite sar_small by lia.
      change (2 ^ 7) with 128.
      assert (Hq : 0 <= v / 128 < 2147483648).
      { split; [apply Z.div_pos; lia|].
        apply Z.div_lt_upper_bound; lia. }
      assert (Hqf : v / 128 < 128 ^ Z.of_nat fuel).
      { apply Z.div_lt_upper_bound; [lia|].
        rewrite Nat2Z.inj_succ, Z.pow_succ_r in Hf by lia. lia. }
      destruct (IH (v / 128) ((v mod 128 + 128) :: bytes) Hq Hqf)
        as (pre & Hloop & Hrange & Hread).
      exists (pre ++ [v mod 128 + 128]).
      assert (Hm : 0 <= v mod 128 < 128) by (apply Z.mod_pos_bound; lia).
      split; [by rewrite <- app_assoc|]. split.
      * apply Forall_app. split; [assumption|]. repeat constructor; lia.
      * intros acc tail. rewrite <- app_assoc. cbn [app].
        rewrite Hread. cbn [SMF.readVarLen].
        destruct (Z.ltb_spec (v mod 128 + 128) 128); [lia|].
        f_equal. rewrite length_app. cbn [length].
        rewrite Nat2Z.inj_add, Z.pow_add_r by lia.
        change (128 ^ Z.of_nat 1) with 128.
        pose proof (Z.div_mod v 128 ltac:(lia)). lia.
    + assert (v = 0) as -> by lia.
      exists []. cbn. split; [reflexivity|]. split; [constructor|].
      intros acc tail. f_equal. lia.
Qed.

Lemma writeVarLen_read (v : Z) :
  0 <= v < 2147483648 ->
  exists bytes : list Z,
    writeVarLen v = Some bytes
    /\ Forall (fun b => 0 <= b < 256) bytes
    /\ forall tail : list Z,
         SMF.readVarLen 0 (bytes ++ tail) = Some (v, tail).
Proof.
  intros Hv. unfold writeVarLen. rewrite sar_small by lia.
  change (2 ^ 7) with 128.
  rewrite band_7F, toInt32_small by lia.
  assert (Hq : 0 <= v / 128 < 2147483648).
  { split; [apply Z.div_pos; lia|]. apply Z.div_lt_upper_bound; lia. }
  destruct (varLenLoop_read 32 (v / 128) [v mod 128] Hq)
    as (pre & Hloop & Hrange & Hread).
  { change (128 ^ Z.of_nat 32) with (2 ^ 224). 
    assert (2147483648 < 2 ^ 224) by reflexivity. lia. }
  assert (Hm : 0 <= v mod 128 < 128) by (apply Z.mod_pos_bound; lia).
  exists (pre ++ [v mod 128]). split; [assumption|]. split.
  - apply Forall_app. split; [assumption|]. repeat constructor; lia.
  - intros tail. rewrite <- app_assoc. cbn [app]. rewrite Hread.
    cbn [SMF.readVarLen]. destruct (Z.ltb_spec (v mod 128) 128); [|lia].
    do 2 f_equal. pose proof (Z.div_mod v 128 ltac:(lia)). lia.
Qed.

(** *** Status bytes *)

Lemma status_bytes (ch : Z) :
  0 <= ch < 16 ->
  JS.bor 0x90 ch = 144 + ch /\ JS.bor 0x80 ch = 128 + ch
  /\ Z.land (144 + ch) 0xF0 = 0x90 /\ Z.land (144 + ch) 0x0F = ch
  /\ Z.land (128 + ch) 0xF0 = 0x80 /\ Z.land (128 + ch) 0x0F = ch.
Proof.
  intros H. destruct ch as [|p|p]; try lia.
  - repeat split; reflexivity.
  - do 5 (try destruct p as [p|p|]); try lia; repeat split; reflexivity.
Qed.

Lemma band_7F_range (v : Z) : 0 <= JS.band v 0x7F < 256.
Proof.
  rewrite band_7F.
  assert (0 <= JS.toInt32 v mod 128 < 128) by (apply Z.mod_pos_bound; lia).
  lia.
Qed.

Lemma band_FF_range (v : Z) : 0 <= JS.band v 0xFF < 256.
Proof. rewrite band_FF. apply Z.mod_pos_bound. lia. Qed.

(** *** Reading back what [emitEvents] writes *)

Lemma readTrack_event (fuel : nat) (delta : Z) (deltaBytes msgBytes rest : list Z)
    (msg : SMF.Message) :
  (forall tail, SMF.readVarLen 0 (deltaBytes ++ tail) = Some (delta, tail)) ->
  (forall tail, SMF.readMessage (msgBytes ++ tail) = Some (msg, tail)) ->
  SMF.readTrack (S fuel) (deltaBytes ++ msgBytes ++ rest)
  = events ← SMF.readTrack fuel rest; Some ((delta, msg) :: events).
Proof.
  intros Hd Hm. cbn [SMF.readTrack].
  destruct (deltaBytes ++ msgBytes ++ rest) as [|b bs] eqn:E.
  - specialize (Hd (msgBytes ++ rest)). rewrite E in Hd. discriminate.
  - rewrite <- E, Hd. cbn [mbind option_bind]. rewrite Hm. reflexivity.
Qed.

Lemma readMessage_noteOn (ch note vel : Z) (tail : list Z) :
  0 <= ch < 16 ->
  SMF.readMessage ([JS.bor 0x90 ch; note; vel] ++ tail)
  = Some (SMF.NoteOn ch note vel, tail).
Proof.
  intros H. destruct (status_bytes ch H) as (-> & _ & H1 & H2 & _).
  cbn [app SMF.readMessage].
  destruct (Z.eqb_spec (144 + ch) 255); [lia|].
  rewrite H1, H2. reflexivity.
Qed.

Lemma readMessage_noteOff (ch note vel : Z) (tail : list Z) :
  0 <= ch < 16 ->
  SMF.readMessage ([JS.bor 0x80 ch; note; vel] ++ tail)
  = Some (SMF.NoteOff ch note vel, tail).
Proof.
  intros H. destruct (status_bytes ch H) as (_ & -> & _ & _ & H1 & H2).
  cbn [app SMF.readMessage].
  destruct (Z.eqb_spec (128 + ch) 255); [lia|].
  rewrite H1, H2. reflexivity.
Qed.

Lemma status_range (ch : Z) :
  0 <= ch < 16 ->
  0 <= JS.bor 0x90 ch < 256 /\ 0 <= JS.bor 0x80 ch < 256.
Proof. intros H. destruct (status_bytes ch H) as (-> & -> & _). lia. Qed.

Lemma ascending_weaken (tempo : Q) (a b : Z) (l : list Event) :
  a <= b -> ascending tempo b l -> ascending tempo a l.
Proof. intros Hab. destruct l; cbn; [tauto|]. intros [? ?]. split; [lia | assumption]. Qed.

Lemma emitEvents_read (tempo : Q) (l : list Event) (last : Z) (pre : list Z) :
  0 <= noteDuration tempo < 2147483648 ->
  0 <= last -> ascending tempo last l -> Forall (exportable tempo) l ->
  exists (last' : Z) (out : list Z),
    emitEvents tempo (last, pre) l = Some (last', pre ++ out)
    /\ Forall (fun b => 0 <= b < 256) out
    /\ forall (fuel : nat) (rest : list Z) (tailEvents : list (Z * SMF.Message)),
         SMF.readTrack fuel rest = Some tailEvents ->
         SMF.readTrack (length (noteTrack tempo last l) + fuel) (out ++ rest)
         = Some (noteTrack tempo last l ++ tailEvents).
Proof.
  intros Hdur. revert last pre.
  induction l as [|e l IH]; intros last pre Hlast Hasc Hexp.
  - exists last, []. cbn. rewrite app_nil_r. split; [reflexivity|].
    split; [constructor | auto].
  - destruct Hasc as [Hle Hasc]. apply Forall_cons in Hexp as [He Hexp].
    destruct He as (Htime & Htick & Hch). cbn [emitEvents noteTrack].
    unfold emitEvent at 1. destruct (midi e) as [m|] eqn:Em.
    + fold (tickOf tempo e). fold (noteDuration tempo).
      set (tick := tickOf tempo e) in *.
      destruct (writeVarLen_read (tick - last)) as (db & Hdb & Hdbr & Hdbread);
        [lia|].
      destruct (writeVarLen_read (noteDuration tempo))
        as (nb & Hnb & Hnbr & Hnbread); [lia|].
      rewrite Hdb, Hnb. cbn [mbind option_bind].
      set (ch := orDefault (channel e) 1 - 1) in *.
      assert (Hchr : 0 <= ch < 16) by (subst ch; lia).
      set (onB := [JS.bor 144 ch; JS.band (midiNumber m) 127;
                   JS.band (orDefault (velocity e) 64) 127]).
      set (offB := [JS.bor 128 ch; JS.band (midiNumber m) 127; 0]).
      destruct (IH tick (pre ++ db ++ onB ++ nb ++ offB))
        as (last' & out & Hemit & Hrange & Hread);
        [lia | assumption | assumption |].
      exists last', (db ++ onB ++ nb ++ offB ++ out).
      split; [|split].
      * rewrite Hemit. f_equal. f_equal. rewrite <- !app_assoc. reflexivity.
      * destruct (status_range ch Hchr) as [? ?].
        pose proof (band_7F_range (midiNumber m)).
        pose proof (band_7F_range (orDefault (velocity e) 64)).
        repeat (apply Forall_app; split); try assumption;
          subst onB offB; repeat constructor; lia.
      * intros fuel rest tailEvents Hrest.
        rewrite length_app.
        change (length (noteMessages tempo last e m)) with 2%nat.
        cbn [Nat.add]. rewrite <- !app_assoc.
        rewrite (readTrack_event _ (tick - last) db onB _
                   (SMF.NoteOn ch (JS.band (midiNumber m) 127)
                      (JS.band (orDefault (velocity e) 64) 127)));
          [ | assumption | intros; by apply readMessage_noteOn ].
        rewrite (readTrack_event _ (noteDuration tempo) nb offB _
                   (SMF.NoteOff ch (JS.band (midiNumber m) 127) 0));
          [ | assumption | intros; by apply readMessage_noteOff ].
        rewrite (Hread fuel rest tailEvents Hrest). reflexivity.
    + destruct (IH last pre) as (last' & out & Hemit & Hrange & Hread);
        try assumption.
      { by apply (ascending_weaken tempo last (tickOf tempo e)). }
      exists last', out. cbn [mbind option_bind]. auto.
Qed.

(** *** The reader's fuel *)

Lemma readVarLen_shorter (bytes : list Z) (acc v : Z) (rest : list Z) :
  SMF.readVarLen acc bytes = Some (v, rest) -> (length rest < length bytes)%nat.
Proof.
  revert acc. induction bytes as [|b bytes IH]; intros acc; cbn; [discriminate|].
  destruct (b <? 128).
  - intros [= <- <-]. lia.
  - intros H. apply IH in H. lia.
Qed.

Lemma readMessage_shorter (bytes : list Z) (msg : SMF.Message) (rest : list Z) :
  SMF.readMessage bytes = Some (msg, rest) -> (length rest < length bytes)%nat.
Proof.
  unfold SMF.readMessage. destruct bytes as [|status bytes]; [discriminate|].
  destruct (status =? 255).
  - destruct bytes as [|kind bytes]; [discriminate|].
    destruct (SMF.readVarLen 0 bytes) as [[len r]|] eqn:E; [|discriminate].
    apply readVarLen_shorter in E. cbn [mbind option_bind].
    destruct (length r <? Z.to_nat len)%nat; [discriminate|].
    intros [= <- <-]. rewrite length_drop. cbn [length]. lia.
  - destruct (Z.land status 240 =? 144).
    + destruct bytes as [|? [|? ?]]; try discriminate.
      intros [= <- <-]. cbn [length]. lia.
    + destruct (Z.land status 240 =? 128); [|discriminate].
      destruct bytes as [|? [|? ?]]; try discriminate.
      intros [= <- <-]. cbn [length]. lia.
Qed.

Lemma readTrack_length (fuel : nat) (bytes : list Z)
    (events : list (Z * SMF.Message)) :
  SMF.readTrack fuel bytes = Some events -> (length events <= length bytes)%nat.
Proof.
  revert bytes events. induction fuel as [|fuel IH]; intros bytes events.
  - destruct bytes; cbn; [intros [= <-]; cbn; lia | discriminate].
  - destruct bytes as [|b bytes]; [intros [= <-]; cbn; lia|].
    cbn [SMF.readTrack].
    destruct (SMF.readVarLen 0 (b :: bytes)) as [[delta r1]|] eqn:E1;
      [|discriminate].
    cbn [mbind option_bind].
    destruct (SMF.readMessage r1) as [[msg r2]|] eqn:E2; [|discriminate].
    cbn [mbind option_bind].
    destruct (SMF.readTrack fuel r2) as [evs|] eqn:E3; [|discriminate].
    intros [= <-]. apply IH in E3. apply readVarLen_shorter in E1.
    apply readMessage_shorter in E2. cbn [length] in *. lia.
Qed.

Lemma readTrack_mono (fuel fuel' : nat) (bytes : list Z)
    (events : list (Z * SMF.Message)) :
  SMF.readTrack fuel bytes = Some events -> (fuel <= fuel')%nat ->
  SMF.readTrack fuel' bytes = Some events.
Proof.
  revert fuel' bytes events.
  induction fuel as [|fuel IH]; intros fuel' bytes events.
  - destruct bytes; cbn; [|discriminate]. intros [= <-] _. by destruct fuel'.
  - destruct bytes as [|b bytes]; [intros [= <-] _; by destruct fuel'|].
    intros H Hle. destruct fuel' as [|fuel']; [lia|].
    cbn [SMF.readTrack] in *.
    destruct (SMF.readVarLen 0 (b :: bytes)) as [[delta r1]|]; [|discriminate].
    cbn [mbind option_bind] in *.
    destruct (SMF.readMessage r1) as [[msg r2]|]; [|discriminate].
    cbn [mbind option_bind] in *.
    destruct (SMF.readTrack fuel r2) as [evs|] eqn:E3; [|discriminate].
    rewrite (IH fuel' r2 evs E3) by lia. exact H.
Qed.

(** *** Time order *)

Lemma insertByTime_ascending (e : Event) (l : list Event) (lo : Q) :
  (lo <= time e)%Q -> timeAscending lo l -> timeAscending lo (insertByTime e l).
Proof.
  revert lo. induction l as [|x l IH]; intros lo He Hl; cbn.
  - split; [assumption | exact I].
  - destruct Hl as [Hx Hl]. destruct (JS.Qltb (time x) (time e)) eqn:E.
    + apply Qltb_lt in E. cbn. split; [assumption|].
      apply IH; [lra | assumption].
    + apply Qltb_ge in E. cbn. repeat split; assumption.
Qed.

Lemma sortByTime_ascending (events : list Event) :
  Forall (fun e => (0 <= time e)%Q) events ->
  timeAscending (0 # 1) (sortByTime events).
Proof.
  induction 1 as [|e l He Hl IH]; cbn; [exact I|].
  by apply insertByTime_ascending.
Qed.

Lemma msPerTick_pos (tempo : Q) : (0 < tempo)%Q -> (0 < msPerTick tempo)%Q.
Proof.
  intros H. unfold msPerTick, ticksPerBeat.
  apply Qlt_shift_div_l; [reflexivity|]. apply Qlt_shift_div_l; [assumption|].
  lra.
Qed.

Lemma round_mono (a b : Q) : (a <= b)%Q -> JS.round a <= JS.round b.
Proof. intros H. unfold JS.round. apply Qfloor_resp_le. lra. Qed.

Lemma tick_mono (tempo a b : Q) :
  (0 < tempo)%Q -> (a <= b)%Q ->
  JS.round (a / msPerTick tempo) <= JS.round (b / msPerTick tempo).
Proof.
  intros Ht Hab. apply round_mono. pose proof (msPerTick_pos tempo Ht).
  unfold Qdiv. apply Qmult_le_compat_r; [assumption|].
  apply Qlt_le_weak, Qinv_lt_0_compat. assumption.
Qed.

Lemma timeAscending_ticks (tempo lo : Q) (l : list Event) :
  (0 < tempo)%Q -> timeAscending lo l ->
  ascending tempo (JS.round (lo / msPerTick tempo)) l.
Proof.
  intros Ht. revert lo. induction l as [|e l IH]; intros lo; cbn; [tauto|].
  intros [He Hl]. split; [by apply tick_mono | by apply IH].
Qed.

Lemma sortByTime_ticks (tempo : Q) (events : list Event) :
  (0 < tempo)%Q -> Forall (fun e => (0 <= time e)%Q) events ->
  ascending tempo 0 (sortByTime events).
Proof.
  intros Ht He.
  pose proof (timeAscending_ticks tempo (0 # 1) _ Ht
                (sortByTime_ascending _ He)) as H.
  assert (Hz : JS.round ((0 # 1) / msPerTick tempo) = 0).
  { unfold JS.round.
    rewrite (Qfloor_comp _ (1 # 2)); [reflexivity|]. unfold Qdiv. ring. }
  by rewrite Hz in H.
Qed.

(** *** The file as a whole *)

Lemma toUint8_bytes (bytes : list Z) :
  Forall (fun b => 0 <= b < 256) bytes -> JS.toUint8 <$> bytes = bytes.
Proof.
  induction 1 as [|b l Hb Hl IH]; [reflexivity|].
  cbn [fmap list_fmap]. fold (fmap JS.toUint8 l). rewrite IH.
  f_equal. unfold JS.toUint8. by apply Z.mod_small.
Qed.

Lemma length_bytes (len : Z) :
  0 <= len < 2147483648 ->
  SMF.be32 [JS.band (JS.sar len 24) 0xFF; JS.band (JS.sar len 16) 0xFF;
            JS.band (JS.sar len 8) 0xFF; JS.band len 0xFF] = len.
Proof.
  intros H. rewrite !band_FF, !sar_small by lia.
  change (2 ^ 24) with 16777216. change (2 ^ 16) with 65536.
  change (2 ^ 8) with 256.
  rewrite !toInt32_small; try lia;
    try (split; [apply Z.div_pos; lia | apply Z.div_lt_upper_bound; lia]).
  cbn [SMF.be32]. Z.div_mod_to_equations. lia.
Qed.

Lemma readFile_layout (l3 l2 l1 l0 : Z) (body : list Z)
    (events : list (Z * SMF.Message)) :
  SMF.be32 [l3; l2; l1; l0] = Z.of_nat (length body) ->
  SMF.readTrack (length body) body = Some events ->
  SMF.readFile
    ([0x4D; 0x54; 0x68; 0x64; 0x00; 0x00; 0x00; 0x06; 0x00; 0x00; 0x00; 0x01;
      1; 224]
     ++ [0x4D; 0x54; 0x72; 0x6B; l3; l2; l1; l0] ++ body)
  = Some {| SMF.format := 0; SMF.ntrks := 1; SMF.division := 480;
            SMF.track := events |}.
Proof.
  intros Hlen Hbody. unfold SMF.readFile.
  cbn [app take drop SMF.bytesEqb Z.eqb Pos.eqb andb negb SMF.be32
       Z.mul Z.add Pos.mul Pos.add].
  change (take 0 body) with (@nil Z). change (drop 0 body) with body.
  cbn [SMF.be32] in Hlen. rewrite Hlen, !Z.eqb_refl, Hbody. reflexivity.
Qed.

Lemma readTrack_meta (fuel : nat) (kind : Z) (data rest : list Z) :
  (length data < 128)%nat ->
  SMF.readTrack (S fuel)
    ([0; 0xFF; kind; Z.of_nat (length data)] ++ data ++ rest)
  = events ← SMF.readTrack fuel rest;
    Some ((0, SMF.Meta kind data) :: events).
Proof.
  intros Hlen.
  change ([0; 255; kind; Z.of_nat (length data)] ++ data ++ rest)
    with ([0] ++ [255; kind; Z.of_nat (length data)] ++ data ++ rest).
  rewrite (app_assoc [255; kind; Z.of_nat (length data)]).
  apply readTrack_event.
  - intros tail. reflexivity.
  - intros tail. rewrite <- app_assoc. cbn [app SMF.readMessage Z.eqb Pos.eqb].
    cbn [SMF.readVarLen].
    destruct (Z.ltb_spec (Z.of_nat (length data)) 128); [|lia].
    cbn [mbind option_bind].
    replace (0 * 128 + Z.of_nat (length data)) with (Z.of_nat (length data))
      by lia.
    rewrite Nat2Z.id.
    rewrite length_app.
    destruct (Nat.ltb_spec (length data + length tail) (length data)); [lia|].
    by rewrite take_app_length, drop_app_length.
Qed.

(** What a reader sees in a track of note messages. *)

Lemma noteTrack_ticks (tempo : Q) (sorted : list Event) (last t k : Z)
    (tl : list (Z * SMF.Message)) :
  t = last + k * noteDuration tempo ->
  (forall t', List.filter SMF.isNoteOn (SMF.absolute t' tl) = []) ->
  fst <$> List.filter SMF.isNoteOn
            (SMF.absolute t (noteTrack tempo last sorted ++ tl))
  = driftedTicks (noteDuration tempo) k
      (tickOf tempo <$> List.filter hasNote sorted).
Proof.
  intros Ht Htl. revert last t k Ht.
  induction sorted as [|e l IH]; intros last t k Ht.
  - cbn. by rewrite Htl.
  - cbn [noteTrack List.filter]. unfold hasNote at 1.
    destruct (midi e) as [m|]; [|by apply IH].
    cbn [fmap list_fmap driftedTicks]. unfold noteMessages.
    cbn [app SMF.absolute List.filter SMF.isNoteOn snd fmap list_fmap fst].
    f_equal; [lia|].
    apply IH. lia.
Qed.

Lemma noteTrack_deltas (tempo : Q) (sorted : list Event) (last : Z)
    (tl : list (Z * SMF.Message)) :
  List.filter SMF.isNoteOn tl = [] ->
  fst <$> List.filter SMF.isNoteOn (noteTrack tempo last sorted ++ tl)
  = differences last (tickOf tempo <$> List.filter hasNote sorted).
Proof.
  intros Htl. revert last. induction sorted as [|e l IH]; intros last.
  - cbn. by rewrite Htl.
  - cbn [noteTrack List.filter]. unfold hasNote at 1.
    destruct (midi e) as [m|]; [|by apply IH].
    cbn [fmap list_fmap differences]. unfold noteMessages.
    cbn [app List.filter SMF.isNoteOn snd fmap list_fmap fst].
    f_equal. apply IH.
Qed.

Lemma insertByTime_Forall (P : Event -> Prop) (e : Event) (l : list Event) :
  P e -> Forall P l -> Forall P (insertByTime e l).
Proof.
  intros He Hl. induction Hl as [|x l Hx Hl IH]; cbn.
  - constructor; [assumption | constructor].
  - destruct (JS.Qltb (time x) (time e)).
    + constructor; assumption.
    + constructor; [assumption|]. constructor; assumption.
Qed.

Lemma sortByTime_Forall (P : Event -> Prop) (l : list Event) :
  Forall P l -> Forall P (sortByTime l).
Proof.
  induction 1 as [|e l He Hl IH]; cbn; [constructor|].
  by apply insertByTime_Forall.
Qed.

Lemma noteDuration_nonneg (tempo : Q) : (0 < tempo)%Q -> 0 <= noteDuration tempo.
Proof.
  intros Ht. unfold noteDuration, JS.round.
  change 0 with (Qfloor (0 # 1)). apply Qfloor_resp_le.
  pose proof (msPerTick_pos tempo Ht) as Hm.
  assert (0 <= (200 # 1) / msPerTick tempo)%Q.
  { apply Qle_shift_div_l; [assumption|]. lra. }
  lra.
Qed.

(** The structure of every exported file, and where a reader places its
    Note-Ons: the delta in front of each Note-On is its tick minus the tick
    of the previous Note-On, and the [k]-th Note-On (from 0) is reached after
    [k] Note-Offs of [noteDuration] ticks each. *)
Theorem midi_file_structure (tempo duration : Q) (events : list Event) :
  (0 < tempo)%Q -> noteDuration tempo < 2147483648 ->
  Forall (exportable tempo) events ->
  exists file : list Z,
    buildMidiFile tempo events duration = Some file
    /\ (Z.of_nat (length file) < 2147483648 ->
        SMF.readFile file
        = Some {| SMF.format := 0; SMF.ntrks := 1; SMF.division := 480;
                  SMF.track := expectedTrack tempo events |})
    /\ SMF.noteOnDeltas (expectedTrack tempo events)
       = differences 0 (tickOf tempo <$> notes events)
    /\ SMF.noteOnTicks (expectedTrack tempo events)
       = driftedTicks (noteDuration tempo) 0 (tickOf tempo <$> notes events).
Proof.
  intros Ht Hdur Hexp.
  pose proof (noteDuration_nonneg tempo Ht) as Hdur0.
  assert (Htimes : Forall (fun e => (0 <= time e)%Q) events).
  { eapply Forall_impl; [exact Hexp|]. intros e He. apply He. }
  pose proof (sortByTime_Forall _ _ Hexp) as Hsorted.
  destruct (emitEvents_read tempo (sortByTime events) 0 [])
    as (last' & out & Hemit & Hrange & Hread);
    [lia | lia | by apply sortByTime_ticks | assumption |].
  set (tempoMicro := JS.round ((60000000 # 1) / tempo)).
  set (b1 := JS.band (JS.sar tempoMicro 16) 255).
  set (b2 := JS.band (JS.sar tempoMicro 8) 255).
  set (b3 := JS.band tempoMicro 255).
  set (body := [0; 255; 81; 3; b1; b2; b3] ++ out ++ [0; 255; 47; 0]).
  set (len := Z.of_nat (length body)).
  set (file :=
         [0x4D; 0x54; 0x68; 0x64; 0x00; 0x00; 0x00; 0x06; 0x00; 0x00;
          0x00; 0x01; 1; 224]
         ++ [0x4D; 0x54; 0x72; 0x6B;
             JS.band (JS.sar len 24) 0xFF; JS.band (JS.sar len 16) 0xFF;
             JS.band (JS.sar len 8) 0xFF; JS.band len 0xFF]
         ++ body).
  assert (Hfile : buildMidiFile tempo events duration
                  = Some (JS.toUint8 <$> file)).
  { unfold buildMidiFile. rewrite Hemit. reflexivity. }
  exists (JS.toUint8 <$> file). split; [exact Hfile|].
  assert (Hbody : Forall (fun b => 0 <= b < 256) body).
  { subst body. pose proof (band_FF_range (JS.sar tempoMicro 16)).
    pose proof (band_FF_range (JS.sar tempoMicro 8)).
    pose proof (band_FF_range tempoMicro).
    repeat (apply Forall_app; split); try assumption;
      repeat constructor; subst b1 b2 b3; lia. }
  assert (Htrack : SMF.readTrack (length body) body
                   = Some (expectedTrack tempo events)).
  { assert (Hexact :
      SMF.readTrack (S (length (noteTrack tempo 0 (sortByTime events)) + 1))
        body = Some (expectedTrack tempo events)).
    { subst body.
      change ([0; 255; 81; 3; b1; b2; b3] ++ out ++ [0; 255; 47; 0])
        with ([0; 255; 81; Z.of_nat (length [b1; b2; b3])]
              ++ [b1; b2; b3] ++ out ++ [0; 255; 47; 0]).
      rewrite (readTrack_meta _ 81 [b1; b2; b3]) by (cbn; lia).
      rewrite (Hread 1%nat [0; 255; 47; 0] [(0, SMF.Meta 47 [])])
        by reflexivity.
      reflexivity. }
    apply (readTrack_mono _ _ _ _ Hexact).
    pose proof (readTrack_length _ _ _ Hexact) as Hl.
    unfold expectedTrack in Hl. cbn [length] in Hl.
    rewrite length_app in Hl. cbn [length] in Hl. lia. }
  split; [|split].
  - intros Hlen. rewrite length_fmap in Hlen.
    rewrite toUint8_bytes.
    + apply readFile_layout; [|exact Htrack].
      apply length_bytes. subst file. rewrite !length_app in Hlen.
      cbn [length] in Hlen. fold len in Hlen. lia.
    + apply Forall_app. split; [repeat constructor; cbn; lia|].
      apply Forall_app. split; [|exact Hbody].
      pose proof (band_FF_range (JS.sar len 24)).
      pose proof (band_FF_range (JS.sar len 16)).
      pose proof (band_FF_range (JS.sar len 8)).
      pose proof (band_FF_range len).
      repeat constructor; lia.
  - unfold SMF.noteOnDeltas, expectedTrack, notes.
    cbn [List.filter SMF.isNoteOn snd]. by apply noteTrack_deltas.
  - unfold SMF.noteOnTicks, expectedTrack, notes.
    cbn [SMF.absolute List.filter SMF.isNoteOn snd].
    apply noteTrack_ticks; [lia|]. reflexivity.
Qed.

(** C1 at two notes, 100 ms and 900 ms into the loop at 120 BPM: the delta in
    front of each Note-On is taken against the previous Note-On, not against
    the Note-Off written in between, so a reader places the second Note-On at
    tick 1056 instead of tick 864. *)
Theorem note_on_drifts_after_note_off :
  exists (file : list Z) (smf : SMF.File),
    buildMidiFile (120 # 1) twoNotes (1000 # 1) = Some file
    /\ SMF.readFile file = Some smf
    /\ SMF.division smf = 480
    /\ tickOf (120 # 1) <$> notes twoNotes = [96; 864]
    /\ JS.round ((200 # 1) / msPerTick (120 # 1)) = 192
    /\ SMF.noteOnDeltas (SMF.track smf) = [96; 768]
    /\ SMF.noteOnTicks (SMF.track smf) = [96; 1056].
Proof.
  destruct (buildMidiFile (120 # 1) twoNotes (1000 # 1)) as [file|] eqn:Ef;
    [|vm_compute in Ef; discriminate].
  vm_compute in Ef. injection Ef as <-.
  eexists _, _. split; [reflexivity|].
  split; [vm_compute; reflexivity|].
  repeat split; vm_compute; reflexivity.
Qed.

End MidiFacts.

(** * Further properties *)

(** ** The MIDI exporter on arbitrary input *)

Section MidiExportFacts.

Import Exporter ExporterSpec TrackSpec.

(** *** Variable-length quantities *)

Lemma toInt32_range (v : Z) : - 2147483648 <= JS.toInt32 v < 2147483648.
Proof.
  unfold JS.toInt32.
  pose proof (Z.mod_pos_bound v 4294967296 ltac:(lia)).
  destruct (Z.ltb_spec (v mod 4294967296) 2147483648); lia.
Qed.

Lemma toInt32_id (v : Z) :
  - 2147483648 <= v < 2147483648 -> JS.toInt32 v = v.
Proof.
  intros Hv. unfold JS.toInt32.
  destruct (Z.ltb_spec (v mod 4294967296) 2147483648) as [Hlt|Hge].
  - destruct (Z_lt_le_dec v 0) as [Hneg|Hpos].
    + replace v with (v + 4294967296 - 1 * 4294967296) in Hlt by lia.
      rewrite Zminus_mod, Z_mod_mult, Z.sub_0_r, Z.mod_mod in Hlt by lia.
      rewrite Z.mod_small in Hlt by lia. lia.
    + apply Z.mod_small. lia.
  - destruct (Z_lt_le_dec v 0) as [Hneg|Hpos].
    + replace v with (v + 4294967296 - 1 * 4294967296) at 1 by lia.
      rewrite Zminus_mod, Z_mod_mult, Z.sub_0_r, Z.mod_mod by lia.
      rewrite Z.mod_small by lia. lia.
    + rewrite Z.mod_small in Hge by lia. lia.
Qed.

Lemma toInt32_idempotent (v : Z) : JS.toInt32 (JS.toInt32 v) = JS.toInt32 v.
Proof. apply toInt32_id, toInt32_range. Qed.

Lemma writeVarLen_toInt32 (v : Z) : writeVarLen (JS.toInt32 v) = writeVarLen v.
Proof.
  unfold writeVarLen, JS.band, JS.sar. by rewrite toInt32_idempotent.
Qed.

Lemma varLenLoop_length (fuel n : nat) (v : Z) (bytes : list Z) :
  0 <= v < 2147483648 -> v < 128 ^ Z.of_nat n -> (n <= fuel)%nat ->
  exists pre : list Z,
    varLenLoop fuel v bytes = Some (pre ++ bytes)
    /\ (length pre <= n)%nat
    /\ Forall (fun b => 128 <= b < 256) pre.
Proof.
  revert n v bytes.
  induction fuel as [|fuel IH]; intros n v bytes Hv Hn Hfuel.
  - assert (n = 0%nat) as -> by lia. change (128 ^ Z.of_nat 0) with 1 in Hn.
    assert (v = 0) as -> by lia.
    exists []. cbn. split; [reflexivity|]. split; [lia|constructor].
  - cbn [varLenLoop].
    destruct (Z.ltb_spec 0 v) as [Hpos|Hzero].
    + destruct n as [|n]; [change (128 ^ Z.of_nat 0) with 1 in Hn; lia|].
      rewrite continuation_byte by lia.
      rewrite sar_small by lia.
      destruct (IH n (v / 2 ^ 7) ((v mod 128 + 128) :: bytes))
        as (pre & Hloop & Hlen & Hpre).
      * split; [apply Z.div_pos; lia|].
        apply Z.div_lt_upper_bound; lia.
      * apply Z.div_lt_upper_bound; [lia|].
        rewrite Nat2Z.inj_succ, Z.pow_succ_r in Hn by lia.
        change (2 ^ 7) with 128. lia.
      * lia.
      * exists (pre ++ [v mod 128 + 128]).
        rewrite <- app_assoc. split; [exact Hloop|].
        rewrite length_app. cbn [length]. split; [lia|].
        apply Forall_app. split; [exact Hpre|].
        pose proof (Z.mod_pos_bound v 128 ltac:(lia)).
        repeat constructor; lia.
    + exists []. split; [reflexivity|]. cbn. split; [lia|constructor].
Qed.

Lemma writeVarLen_shape (v : Z) :
  0 <= v < 2147483648 ->
  exists pre : list Z,
    writeVarLen v = Some (pre ++ [v mod 128])
    /\ (length pre <= 4)%nat
    /\ Forall (fun b => 128 <= b < 256) pre.
Proof.
  intros Hv. unfold writeVarLen.
  rewrite band_7F, sar_small, toInt32_small by lia.
  apply (varLenLoop_length 32 4); [| |lia].
  - split; [apply Z.div_pos; lia|]. apply Z.div_lt_upper_bound; lia.
  - apply Z.div_lt_upper_bound; [lia|].
    change (128 ^ Z.of_nat 4) with 268435456.
    change (2 ^ 7) with 128. lia.
Qed.

Lemma varlen_shape_read (v : Z) :
  0 <= v < 2147483648 ->
  exists pre : list Z,
    writeVarLen v = Some (pre ++ [v mod 128])
    /\ (length pre <= 4)%nat
    /\ Forall (fun c => 128 <= c < 256) pre
    /\ forall tail : list Z,
         SMF.readVarLen 0 ((pre ++ [v mod 128]) ++ tail) = Some (v, tail).
Proof.
  intros Hv.
  destruct (writeVarLen_shape v Hv) as (pre & Hw & Hlen & Hpre).
  destruct (writeVarLen_read v Hv) as (bytes & Hw' & _ & Hread).
  exists pre.
  split; [exact Hw|]. split; [exact Hlen|]. split; [exact Hpre|].
  intros tail. rewrite Hw in Hw'. injection Hw' as <-. apply Hread.
Qed.

(** X1.  A value from 0 to 2^31 - 1 is written as at most four continuation
    bytes (top bit set) followed by one final byte (top bit clear), and a
    reader of variable-length quantities gets the value back, whatever
    follows. *)
Theorem varlen_round_trip (v : Z) :
  0 <= v < 2147483648 ->
  exists (pre : list Z) (b : Z),
    writeVarLen v = Some (pre ++ [b])
    /\ (length pre <= 4)%nat
    /\ Forall (fun c => 128 <= c < 256) pre
    /\ 0 <= b < 128
    /\ forall tail : list Z,
         SMF.readVarLen 0 ((pre ++ [b]) ++ tail) = Some (v, tail).
Proof.
  intros Hv.
  destruct (varlen_shape_read v Hv) as (pre & Hw & Hlen & Hpre & Hread).
  exists pre, (v mod 128).
  split; [exact Hw|]. split; [exact Hlen|]. split; [exact Hpre|].
  split; [apply Z.mod_pos_bound; lia|]. exact Hread.
Qed.

Lemma varlen_round_trip_witness :
  0 <= 300 < 2147483648
  /\ exists (pre : list Z) (b : Z),
       writeVarLen 300 = Some (pre ++ [b])
       /\ (length pre <= 4)%nat
       /\ Forall (fun c => 128 <= c < 256) pre
       /\ 0 <= b < 128
       /\ forall tail : list Z,
            SMF.readVarLen 0 ((pre ++ [b]) ++ tail) = Some (300, tail).
Proof.
  split; [lia|]. apply (varlen_round_trip 300). lia.
Defined.

(** A negative value never enters the loop: one byte, its low seven bits. *)
Lemma writeVarLen_negative (v : Z) :
  - 2147483648 <= v < 0 -> writeVarLen v = Some [v mod 128].
Proof.
  intros Hv. unfold writeVarLen.
  rewrite band_7F. unfold JS.sar. rewrite toInt32_id by lia.
  rewrite Z.shiftr_div_pow2 by lia.
  assert (v / 2 ^ 7 < 0) by (apply Z.div_lt_upper_bound; lia).
  cbn [varLenLoop fmap].
  destruct (Z.ltb_spec 0 (v / 2 ^ 7)); [lia|]. reflexivity.
Qed.

Lemma writeVarLen_returns (v : Z) : is_Some (writeVarLen v).
Proof.
  rewrite <- writeVarLen_toInt32.
  pose proof (toInt32_range v) as Hr.
  destruct (Z_lt_le_dec (JS.toInt32 v) 0) as [Hneg|Hpos].
  - rewrite writeVarLen_negative by lia. by eexists.
  - destruct (writeVarLen_shape (JS.toInt32 v)) as (pre & -> & _); [lia|].
    by eexists.
Qed.

(** X2.  [writeVarLen] returns for every integer: its loop ends within the
    32 rounds a 32-bit value allows.  The result is one to five bytes; what
    a reader decodes from them is the argument taken as a signed 32-bit
    integer, and only its low seven bits when that is negative. *)
Theorem writeVarLen_any_integer (v : Z) :
  exists bytes : list Z,
    writeVarLen v = Some bytes
    /\ (1 <= length bytes <= 5)%nat
    /\ Forall (fun b => 0 <= b < 256) bytes
    /\ forall tail : list Z,
         SMF.readVarLen 0 (bytes ++ tail)
         = Some (if JS.toInt32 v <? 0 then JS.toInt32 v mod 128
                 else JS.toInt32 v, tail).
Proof.
  rewrite <- writeVarLen_toInt32.
  pose proof (toInt32_range v) as Hr.
  pose proof (Z.mod_pos_bound (JS.toInt32 v) 128 ltac:(lia)) as Hm.
  destruct (Z.ltb_spec (JS.toInt32 v) 0) as [Hneg|Hpos].
  - exists [JS.toInt32 v mod 128].
    split; [apply writeVarLen_negative; lia|].
    split; [cbn; lia|]. split; [repeat constructor; lia|].
    intros tail. cbn [app SMF.readVarLen].
    destruct (Z.ltb_spec (JS.toInt32 v mod 128) 128); [|lia].
    reflexivity.
  - destruct (varlen_shape_read (JS.toInt32 v))
      as (pre & Hw & Hlen & Hpre & Hread); [lia|].
    exists (pre ++ [JS.toInt32 v mod 128]).
    split; [exact Hw|]. rewrite length_app. cbn [length].
    split; [lia|]. split; [|exact Hread].
    apply Forall_app. split.
    + eapply Forall_impl; [exact Hpre|]. cbn. intros; lia.
    + repeat constructor; lia.
Qed.

(** *** The sorted copy *)

Lemma insertByTime_perm (e : Event) (l : list Event) :
  insertByTime e l ≡ₚ e :: l.
Proof.
  induction l as [|x rest IH]; [reflexivity|].
  cbn [insertByTime]. destruct (JS.Qltb (time x) (time e)); [|reflexivity].
  rewrite IH. apply Permutation_swap.
Qed.

Lemma insertByTime_first (e : Event) (l : list Event) :
  Forall (fun x => (time e <= time x)%Q) l -> insertByTime e l = e :: l.
Proof.
  destruct l as [|x rest]; [reflexivity|].
  intros H. apply Forall_cons in H as [Hx _]. cbn [insertByTime].
  apply Qltb_ge in Hx. by rewrite Hx.
Qed.

Lemma insertByTime_sorted (e : Event) (l : list Event) :
  sortedByTime l -> sortedByTime (insertByTime e l).
Proof.
  induction l as [|x rest IH]; [cbn; auto|].
  intros [Hx Hrest]. cbn [insertByTime].
  destruct (JS.Qltb (time x) (time e)) eqn:E.
  - apply Qltb_lt in E. split; [|by apply IH].
    apply insertByTime_Forall; [by apply Qlt_le_weak | exact Hx].
  - apply Qltb_ge in E. split; [|by split].
    constructor; [exact E|].
    eapply Forall_impl; [exact Hx|]. cbn. intros y Hy.
    by apply Qle_trans with (time x).
Qed.

Lemma sortByTime_sorted (events : list Event) :
  sortedByTime (sortByTime events).
Proof.
  induction events as [|e rest IH]; [exact I|].
  apply insertByTime_sorted, IH.
Qed.

Lemma insertByTime_atTime (t : Q) (e : Event) (l : list Event) :
  List.filter (atTime t) (insertByTime e l)
  = if atTime t e then e :: List.filter (atTime t) l
    else List.filter (atTime t) l.
Proof.
  induction l as [|x rest IH]; [reflexivity|].
  cbn [insertByTime].
  destruct (JS.Qltb (time x) (time e)) eqn:E; [|reflexivity].
  cbn [List.filter]. rewrite IH.
  destruct (atTime t e) eqn:Ee; [|reflexivity].
  assert (atTime t x = false) as ->; [|reflexivity].
  apply Qltb_lt in E. unfold atTime in *.
  apply Qeq_bool_iff in Ee.
  destruct (Qeq_bool (time x) t) eqn:Ex; [|reflexivity].
  apply Qeq_bool_iff in Ex. rewrite Ex, Ee in E.
  by apply Qlt_irrefl in E.
Qed.

Lemma Forall_filter_weak {A : Type} (P : A -> Prop) (f : A -> bool)
    (l : list A) :
  Forall P l -> Forall P (List.filter f l).
Proof.
  induction 1 as [|x rest Hx _ IH]; [constructor|].
  cbn [List.filter]. destruct (f x); [by constructor | exact IH].
Qed.

Lemma insertByTime_filter (f : Event -> bool) (e : Event) (l : list Event) :
  sortedByTime l ->
  List.filter f (insertByTime e l)
  = if f e then insertByTime e (List.filter f l) else List.filter f l.
Proof.
  induction l as [|x rest IH]; [cbn; by destruct (f e)|].
  intros [Hx Hrest]. cbn [insertByTime].
  destruct (JS.Qltb (time x) (time e)) eqn:E.
  - cbn [List.filter]. rewrite (IH Hrest).
    destruct (f x), (f e); try reflexivity.
    cbn [insertByTime]. by rewrite E.
  - apply Qltb_ge in E.
    change (List.filter f (e :: x :: rest))
      with (if f e then e :: List.filter f (x :: rest)
            else List.filter f (x :: rest)).
    destruct (f e); [|reflexivity].
    symmetry. apply insertByTime_first, Forall_filter_weak.
    constructor; [exact E|].
    eapply Forall_impl; [exact Hx|]. cbn. intros y Hy.
    by apply Qle_trans with (time x).
Qed.

Lemma sortByTime_filter (f : Event -> bool) (events : list Event) :
  List.filter f (sortByTime events) = sortByTime (List.filter f events).
Proof.
  induction events as [|e rest IH]; [reflexivity|].
  change (sortByTime (e :: rest)) with (insertByTime e (sortByTime rest)).
  rewrite insertByTime_filter by apply sortByTime_sorted.
  rewrite IH. cbn [List.filter]. by destruct (f e).
Qed.

(** X3.  The sorted copy the exporter works on holds every logged event
    exactly once, in ascending time order, and events logged with the same
    time keep the order in which they were logged. *)
Theorem sortByTime_stable_sort (events : list Event) :
  sortByTime events ≡ₚ events
  /\ sortedByTime (sortByTime events)
  /\ forall t : Q,
       List.filter (atTime t) (sortByTime events)
       = List.filter (atTime t) events.
Proof.
  split; [|split].
  - induction events as [|e rest IH]; [reflexivity|].
    change (sortByTime (e :: rest)) with (insertByTime e (sortByTime rest)).
    by rewrite insertByTime_perm, IH.
  - apply sortByTime_sorted.
  - intros t. induction events as [|e rest IH]; [reflexivity|].
    change (sortByTime (e :: rest)) with (insertByTime e (sortByTime rest)).
    rewrite insertByTime_atTime, IH. reflexivity.
Qed.

(** *** Events without a note, and totality *)

Lemma emitEvents_skip (tempo : Q) (l : list Event) (acc : Z * list Z) :
  emitEvents tempo acc (List.filter hasNote l) = emitEvents tempo acc l.
Proof.
  revert acc. induction l as [|e rest IH]; intros acc; [reflexivity|].
  cbn [List.filter emitEvents]. unfold hasNote at 1.
  destruct (midi e) as [m|] eqn:Em.
  - cbn [emitEvents]. destruct (emitEvent tempo acc e) as [acc'|];
      [|reflexivity].
    cbn [mbind option_bind]. apply IH.
  - rewrite IH. unfold emitEvent. destruct acc as [last data].
    rewrite Em. reflexivity.
Qed.

(** X4.  Events that carry no [midi] property leave no trace in the file:
    the exporter writes what it would write had they never been logged. *)
Theorem events_without_note_skipped (tempo : Q) (events : list Event)
    (durationMs : Q) :
  buildMidiFile tempo events durationMs
  = buildMidiFile tempo (List.filter hasNote events) durationMs.
Proof.
  unfold buildMidiFile.
  rewrite <- sortByTime_filter, emitEvents_skip. reflexivity.
Qed.

Lemma emitEvent_total (tempo : Q) (acc : Z * list Z) (e : Event) :
  exists (tick : Z) (out : list Z),
    emitEvent tempo acc e = Some (tick, acc.2 ++ out).
Proof.
  destruct acc as [last data]. unfold emitEvent. cbv zeta.
  destruct (midi e) as [m|].
  - destruct (writeVarLen_returns
                (JS.round (time e / msPerTick tempo) - last))
      as (deltaBytes & ->).
    destruct (writeVarLen_returns (JS.round ((200 # 1) / msPerTick tempo)))
      as (durBytes & ->).
    cbn [mbind option_bind snd]. eexists _, _. reflexivity.
  - exists last, []. cbn [snd]. by rewrite app_nil_r.
Qed.

Lemma emitEvents_total (tempo : Q) (l : list Event) (acc : Z * list Z) :
  exists (tick : Z) (out : list Z),
    emitEvents tempo acc l = Some (tick, acc.2 ++ out).
Proof.
  revert acc. induction l as [|e rest IH]; intros acc.
  - destruct acc as [last data]. exists last, []. cbn. by rewrite app_nil_r.
  - cbn [emitEvents].
    destruct (emitEvent_total tempo acc e) as (tick & out & ->).
    cbn [mbind option_bind].
    destruct (IH (tick, acc.2 ++ out)) as (tick' & out' & ->).
    cbn [snd]. exists tick', (out ++ out'). by rewrite app_assoc.
Qed.

Lemma buildMidiFile_returns (tempo : Q) (events : list Event)
    (durationMs : Q) :
  is_Some (buildMidiFile tempo events durationMs).
Proof.
  unfold buildMidiFile.
  destruct (emitEvents_total tempo (sortByTime events) (0, []))
    as (last & out & ->).
  cbn [mbind option_bind]. by eexists.
Qed.

(** X5.  For a positive tempo the exporter returns a file whatever was
    logged: negative or huge times, any channel, any velocity.  The file is
    a sequence of bytes that opens with the fixed 14-byte header chunk
    (format 0, one track, 480 ticks per beat), continues with a track chunk
    whose first event is the tempo, closes with the end-of-track event, and
    declares the length of the track that is really there. *)
Theorem buildMidiFile_total (tempo : Q) (events : list Event)
    (durationMs : Q) :
  (0 < tempo)%Q ->
  exists file : list Z,
    buildMidiFile tempo events durationMs = Some file
    /\ Forall (fun b => 0 <= b < 256) file
    /\ take 14 file = [0x4D; 0x54; 0x68; 0x64; 0; 0; 0; 6; 0; 0; 0; 1; 1; 224]
    /\ take 4 (drop 14 file) = [0x4D; 0x54; 0x72; 0x6B]
    /\ take 4 (drop 22 file) = [0; 0xFF; 0x51; 3]
    /\ drop (length file - 4) file = [0; 0xFF; 0x2F; 0]
    /\ (Z.of_nat (length file) < 2147483648 ->
        SMF.be32 (take 4 (drop 18 file)) = Z.of_nat (length file) - 22).
Proof.
  intros _.
  destruct (emitEvents_total tempo (sortByTime events) (0, []))
    as (last & out & Hemit).
  cbn [snd app] in Hemit.
  set (tempoMicro := JS.round ((60000000 # 1) / tempo)).
  set (b1 := JS.band (JS.sar tempoMicro 16) 255).
  set (b2 := JS.band (JS.sar tempoMicro 8) 255).
  set (b3 := JS.band tempoMicro 255).
  set (body := [0; 255; 81; 3; b1; b2; b3] ++ out ++ [0; 255; 47; 0]).
  set (len := Z.of_nat (length body)).
  set (l3 := JS.band (JS.sar len 24) 0xFF).
  set (l2 := JS.band (JS.sar len 16) 0xFF).
  set (l1 := JS.band (JS.sar len 8) 0xFF).
  set (l0 := JS.band len 0xFF).
  set (file :=
         [0x4D; 0x54; 0x68; 0x64; 0x00; 0x00; 0x00; 0x06; 0x00; 0x00;
          0x00; 0x01; 1; 224]
         ++ [0x4D; 0x54; 0x72; 0x6B; l3; l2; l1; l0]
         ++ body).
  assert (Hfile : buildMidiFile tempo events durationMs
                  = Some (JS.toUint8 <$> file)).
  { unfold buildMidiFile. rewrite Hemit. reflexivity. }
  assert (Hbytes : Forall (fun b => 0 <= b < 256) (JS.toUint8 <$> file)).
  { apply Forall_fmap, Forall_forall. intros b _. cbn. unfold JS.toUint8.
    apply Z.mod_pos_bound. lia. }
  assert (Hb : forall x, 0 <= x < 256 -> JS.toUint8 x = x).
  { intros x Hx. unfold JS.toUint8. apply Z.mod_small. lia. }
  pose proof (band_FF_range (JS.sar len 24)) as H3.
  pose proof (band_FF_range (JS.sar len 16)) as H2.
  pose proof (band_FF_range (JS.sar len 8)) as H1.
  pose proof (band_FF_range len) as H0.
  fold l3 in H3. fold l2 in H2. fold l1 in H1. fold l0 in H0.
  exists (JS.toUint8 <$> file).
  split; [exact Hfile|]. split; [exact Hbytes|].
  assert (Hshape :
    JS.toUint8 <$> file
    = [0x4D; 0x54; 0x68; 0x64; 0; 0; 0; 6; 0; 0; 0; 1; 1; 224]
      ++ [0x4D; 0x54; 0x72; 0x6B] ++ [l3; l2; l1; l0]
      ++ [0; 0xFF; 0x51; 3]
      ++ (JS.toUint8 <$> ([b1; b2; b3] ++ out)) ++ [0; 0xFF; 0x2F; 0]).
  { subst file body. rewrite !fmap_app. cbn [fmap list_fmap app].
    rewrite !Hb by lia. reflexivity. }
  rewrite Hshape.
  split; [reflexivity|]. split; [reflexivity|]. split; [reflexivity|].
  split.
  - rewrite !length_app. cbn [length].
    rewrite !app_assoc.
    apply drop_app_length'. rewrite !length_app. cbn [length]. lia.
  - intros Hlen. cbn [app drop take].
    unfold l3, l2, l1, l0. rewrite length_bytes.
    + subst len body.
      rewrite ?length_cons, ?length_app, ?length_fmap, ?length_app.
      cbn [length]. lia.
    + rewrite ?length_app, ?length_fmap, ?length_app in Hlen.
      cbn [length] in Hlen.
      subst len body. rewrite ?length_app. cbn [length]. lia.
Qed.

Lemma buildMidiFile_total_witness :
  (0 < 120 # 1)%Q
  /\ exists file : list Z,
       buildMidiFile (120 # 1) twoNotes (1000 # 1) = Some file
       /\ Forall (fun b => 0 <= b < 256) file
       /\ take 14 file
          = [0x4D; 0x54; 0x68; 0x64; 0; 0; 0; 6; 0; 0; 0; 1; 1; 224]
       /\ take 4 (drop 14 file) = [0x4D; 0x54; 0x72; 0x6B]
       /\ take 4 (drop 22 file) = [0; 0xFF; 0x51; 3]
       /\ drop (length file - 4) file = [0; 0xFF; 0x2F; 0]
       /\ (Z.of_nat (length file) < 2147483648 ->
           SMF.be32 (take 4 (drop 18 file)) = Z.of_nat (length file) - 22).
Proof.
  split; [reflexivity|].
  apply (buildMidiFile_total (120 # 1) twoNotes (1000 # 1)). reflexivity.
Defined.

(** *** What a reader finds in the file *)


Lemma twoNotes_exportable : Forall (exportable (120 # 1)) twoNotes.
Proof.
  repeat constructor; try (cbn; lia); try (vm_compute; congruence).
Qed.


Lemma band_7F_data (v : Z) : 0 <= JS.band v 0x7F <= 127.
Proof.
  rewrite band_7F.
  pose proof (Z.mod_pos_bound (JS.toInt32 v) 128 ltac:(lia)). lia.
Qed.

Lemma velocity_byte (x : option Z) :
  match x with Some v => 0 <= v <= 127 | None => True end ->
  1 <= JS.band (orDefault x 64) 0x7F <= 127.
Proof.
  intros Hx. unfold orDefault. destruct x as [v|]; [|by vm_compute].
  destruct (Z.eqb_spec v 0) as [->|Hv]; [by vm_compute|].
  rewrite band_7F, toInt32_small, Z.mod_small by lia. lia.
Qed.

Lemma noteTrack_sounding (tempo : Q) (l : list Event) (last : Z) :
  Forall velocityInRange l -> Forall soundingNote (noteTrack tempo last l).
Proof.
  intros Hl. revert last.
  induction Hl as [|e rest He _ IH]; intros last; [constructor|].
  cbn [noteTrack]. destruct (midi e) as [m|]; [|apply IH].
  unfold noteMessages. cbn [app].
  pose proof (band_7F_data (midiNumber m)).
  pose proof (velocity_byte (velocity e) He).
  constructor; [by split|]. constructor; [by split|]. apply IH.
Qed.

(** X7.  When every logged velocity lies in 0..127, no Note-On of the
    exported file has velocity 0: a velocity of 0, like a missing one, is
    written as 64, and all data bytes keep to seven bits. *)
Theorem note_on_velocity_never_zero (tempo duration : Q)
    (events : list Event) :
  (0 < tempo)%Q -> noteDuration tempo < 2147483648 ->
  Forall (exportable tempo) events -> Forall velocityInRange events ->
  exists file : list Z,
    buildMidiFile tempo events duration = Some file
    /\ (Z.of_nat (length file) < 2147483648 ->
        exists smf : SMF.File,
          SMF.readFile file = Some smf
          /\ Forall soundingNote (SMF.track smf)).
Proof.
  intros Ht Hd Hexp Hvel.
  destruct (midi_file_structure tempo duration events Ht Hd Hexp)
    as (file & Hfile & Hread & _).
  exists file. split; [exact Hfile|]. intros Hlen.
  eexists. split; [exact (Hread Hlen)|]. cbn [SMF.track].
  unfold expectedTrack. constructor; [exact I|].
  apply Forall_app. split; [|by repeat constructor].
  apply noteTrack_sounding. by apply sortByTime_Forall.
Qed.

Lemma note_on_velocity_never_zero_witness :
  (0 < 120 # 1)%Q /\ noteDuration (120 # 1) < 2147483648
  /\ Forall (exportable (120 # 1)) twoNotes
  /\ Forall velocityInRange twoNotes
  /\ exists file : list Z,
       buildMidiFile (120 # 1) twoNotes (1000 # 1) = Some file
       /\ (Z.of_nat (length file) < 2147483648 ->
           exists smf : SMF.File,
             SMF.readFile file = Some smf
             /\ Forall soundingNote (SMF.track smf)).
Proof.
  assert (Hv : Forall velocityInRange twoNotes).
  { repeat constructor; cbn; lia. }
  split; [reflexivity|]. split; [reflexivity|].
  split; [exact twoNotes_exportable|]. split; [exact Hv|].
  apply (note_on_velocity_never_zero (120 # 1) (1000 # 1) twoNotes);
    [reflexivity | reflexivity | exact twoNotes_exportable | exact Hv].
Defined.

End MidiExportFacts.

(** ** The WAV encoder beyond two channels *)

Section WavEdgeFacts.

Import Exporter WavLayout.

(** X8.  A buffer whose channel count is not 2 is serialised from its first
    channel alone: with three or more channels the header still declares
    all of them, while the data chunk holds one sample per frame, namely
    the samples of channel 0 in order. *)
Theorem wav_extra_channels_dropped (R : Z) (first : list JS.num)
    (others : list (list JS.num)) :
  length others <> 1%nat ->
  exists wav : list Z,
    audioBufferToWav {| sampleRate := R; channels := first :: others |}
    = Some wav
    /\ length wav = (44 + 2 * length first)%nat
    /\ DataView.getUint16 wav 22
       = JS.toUint16 (Z.of_nat (S (length others)))
    /\ DataView.getUint32 wav 40
       = JS.toUint32 (Z.of_nat (length first * 2))
    /\ forall (j : nat) (x : JS.num),
         first !! j = Some x ->
         DataView.getInt16 wav (44 + 2 * j) = JS.toInteger (scaleSample x).
Proof.
  intros Hn.
  set (buffer := {| sampleRate := R; channels := first :: others |}).
  assert (Hs : interleavedOf buffer = Some first).
  { unfold interleavedOf, numberOfChannels. cbn [channels buffer length].
    destruct (Z.eqb_spec (Z.of_nat (S (length others))) 2); [lia|].
    reflexivity. }
  eexists. split; [by apply audioBufferToWav_bytes|].
  split; [|split; [|split]].
  - rewrite length_app, length_sampleBytes. cbn. lia.
  - destruct (wavHeader_fields (numberOfChannels buffer) (sampleRate buffer)
                (length first * 2) (flat_map sampleBytes first))
      as (_ & _ & _ & _ & _ & _ & h7 & _). exact h7.
  - destruct (wavHeader_fields (numberOfChannels buffer) (sampleRate buffer)
                (length first * 2) (flat_map sampleBytes first))
      as (_ & _ & _ & _ & _ & _ & _ & _ & _ & _ & _ & _ & h13). exact h13.
  - intros j x Hj. apply getInt16_sample; [reflexivity | assumption].
Qed.

Lemma wav_extra_channels_dropped_witness :
  length [[JS.Num (1 # 4)]; [JS.Num (1 # 8)]] <> 1%nat
  /\ exists wav : list Z,
       audioBufferToWav
         {| sampleRate := 48000;
            channels :=
              [JS.Num (1 # 2)] :: [[JS.Num (1 # 4)]; [JS.Num (1 # 8)]] |}
       = Some wav
       /\ length wav = (44 + 2 * length [JS.Num (1 # 2)])%nat
       /\ DataView.getUint16 wav 22
          = JS.toUint16
              (Z.of_nat (S (length [[JS.Num (1 # 4)]; [JS.Num (1 # 8)]])))
       /\ DataView.getUint32 wav 40
          = JS.toUint32 (Z.of_nat (length [JS.Num (1 # 2)] * 2))
       /\ forall (j : nat) (x : JS.num),
            [JS.Num (1 # 2)] !! j = Some x ->
            DataView.getInt16 wav (44 + 2 * j)
            = JS.toInteger (scaleSample x).
Proof.
  split; [cbn; lia|].
  apply (wav_extra_channels_dropped 48000 [JS.Num (1 # 2)]
           [[JS.Num (1 # 4)]; [JS.Num (1 # 8)]]).
  cbn. lia.
Defined.

End WavEdgeFacts.

(** ** The recorder between its callers and its callbacks *)

(** Projections of the updated records, leaving the numbers alone. *)
Ltac fields :=
  cbn [Recorder.recorder Recorder.rhythm Recorder.tasks Recorder.state
       Recorder.mediaRecorder Recorder.audioChunks Recorder.audioBlob
       Recorder.audioElement Recorder.eventLog Recorder.recordStartTime
       Recorder.loopLengthBars Recorder.loopDurationMs
       Recorder.playbackStart Recorder.layers Recorder.set_state
       Recorder.set_mediaRecorder Recorder.set_audioChunks
       Recorder.set_audioBlob Recorder.set_audioElement
       Recorder.set_eventLog Recorder.set_recordStartTime
       Recorder.set_loopLengthBars Recorder.set_loopDurationMs
       Recorder.set_playbackStart Recorder.set_layers Recorder.onRecorder
       Recorder.onRhythm Recorder.addTask Recorder.startMediaRecorder
       Recorder.getState Recorder.mrStream Recorder.mrActive
       Recorder.mrOnstop
       Z.ltb Z.compare].

Section TakeFacts.

Import Recorder Exporter Closure TakeSpec.

(** *** One take from the count-in callback to the stop event *)

Lemma actuallyStartRecording_fields (env : Env) (stream : Stream) (w : World) :
  let w' := actuallyStartRecording env stream w in
  state (recorder w') = Recording
  /\ recordStartTime (recorder w') = now env
  /\ eventLog (recorder w') = []
  /\ audioChunks (recorder w') = []
  /\ mediaRecorder (recorder w')
     = Some {| mrStream := stream; mrActive := true;
               mrOnstop := OnRecordingStop |}
  /\ layers (recorder w') = layers (recorder w)
  /\ loopLengthBars (recorder w') = loopLengthBars (recorder w)
  /\ rhythm w' = rhythm w.
Proof.
  destruct w as [[st mr ch ab ae el rst llb ld ps ly] rh ts].
  unfold actuallyStartRecording. cbn.
  destruct (0 <? llb); cbn; destruct (JS.Qltb _ _); cbn; by split_and!.
Qed.

Lemma perform_capturing (a : Activity) (w : World) :
  state (recorder w) = Recording ->
  let w' := perform w a in
  state (recorder w') = Recording
  /\ recordStartTime (recorder w') = recordStartTime (recorder w)
  /\ eventLog (recorder w')
     = eventLog (recorder w) ++ played (recordStartTime (recorder w)) [a]
  /\ audioChunks (recorder w') = audioChunks (recorder w) ++ delivered [a]
  /\ mediaRecorder (recorder w') = mediaRecorder (recorder w)
  /\ loopDurationMs (recorder w') = loopDurationMs (recorder w)
  /\ tasks w' = tasks w.
Proof.
  destruct w as [[st mr ch ab ae el rst llb ld ps ly] rh ts]. cbn.
  intros ->. destruct a as [env ty c m v | env size]; cbn.
  - rewrite app_nil_r. by split_and!.
  - destruct (0 <? size); cbn; rewrite ?app_nil_r; by split_and!.
Qed.

Lemma played_cons (start : Q) (a : Activity) (activity : list Activity) :
  played start (a :: activity) = played start [a] ++ played start activity.
Proof. unfold played. cbn. by destruct a. Qed.

Lemma delivered_cons (a : Activity) (activity : list Activity) :
  delivered (a :: activity) = delivered [a] ++ delivered activity.
Proof.
  unfold delivered. cbn. destruct a as [| env size]; [reflexivity|].
  by destruct (0 <? size).
Qed.

Lemma performAll_capturing (activity : list Activity) (w : World) :
  state (recorder w) = Recording ->
  let w' := performAll activity w in
  state (recorder w') = Recording
  /\ recordStartTime (recorder w') = recordStartTime (recorder w)
  /\ eventLog (recorder w')
     = eventLog (recorder w) ++ played (recordStartTime (recorder w)) activity
  /\ audioChunks (recorder w') = audioChunks (recorder w) ++ delivered activity
  /\ mediaRecorder (recorder w') = mediaRecorder (recorder w)
  /\ loopDurationMs (recorder w') = loopDurationMs (recorder w)
  /\ tasks w' = tasks w.
Proof.
  revert w. induction activity as [|a rest IH]; intros w Hs.
  - cbn. rewrite !app_nil_r. by split_and!.
  - destruct (perform_capturing a w Hs)
      as (Hs1 & Ht1 & Hl1 & Hc1 & Hm1 & Hd1 & Hk1).
    destruct (IH (perform w a) Hs1)
      as (Hs2 & Ht2 & Hl2 & Hc2 & Hm2 & Hd2 & Hk2).
    change (performAll (a :: rest) w) with (performAll rest (perform w a)).
    cbv zeta. rewrite played_cons, delivered_cons, !app_assoc.
    split; [exact Hs2|]. split; [congruence|].
    split; [by rewrite Hl2, Hl1, Ht1|]. split; [by rewrite Hc2, Hc1|].
    split; [congruence|]. split; [congruence|]. congruence.
Qed.

Lemma stopRecording_capturing (w : World) (stream : Stream) (h : OnStop) :
  state (recorder w) = Recording ->
  mediaRecorder (recorder w)
  = Some {| mrStream := stream; mrActive := true; mrOnstop := h |} ->
  let w' := stopRecording w in
  tasks w' = tasks w ++ [MediaStopped h]
  /\ state (recorder w') = Recording
  /\ eventLog (recorder w') = eventLog (recorder w)
  /\ audioChunks (recorder w') = audioChunks (recorder w)
  /\ recordStartTime (recorder w') = recordStartTime (recorder w)
  /\ loopDurationMs (recorder w') = loopDurationMs (recorder w)
  /\ mediaRecorder (recorder w')
     = Some {| mrStream := stream; mrActive := false; mrOnstop := h |}
  /\ loopLengthBars (recorder w') = loopLengthBars (recorder w).
Proof.
  destruct w as [[st mr ch ab ae el rst llb ld ps ly] rh ts]. cbn.
  intros -> ->. cbn. by split_and!.
Qed.

Lemma actuallyStartRecording_free (env : Env) (stream : Stream) (w : World) :
  loopLengthBars (recorder w) = 0 ->
  let w' := actuallyStartRecording env stream w in
  loopDurationMs (recorder w') = loopDurationMs (recorder w)
  /\ tasks w'
     = tasks w
       ++ (if JS.Qltb (0 # 1) (loopDurationMs (recorder w))
           then [Deadline Recording (loopDurationMs (recorder w))] else []).
Proof.
  destruct w as [[st mr ch ab ae el rst llb ld ps ly] rh ts].
  cbn [recorder loopLengthBars]. intros ->.
  unfold actuallyStartRecording. fields.
  destruct (JS.Qltb _ _); fields; rewrite ?app_nil_r; by split.
Qed.

Lemma onRecordingStop_fields (env : Env) (w : World) :
  let w' := onRecordingStop env w in
  state (recorder w') = Idle
  /\ layers (recorder w')
     = [{| blob := webm (audioChunks (recorder w));
           events := eventLog (recorder w) |}]
  /\ audioBlob (recorder w') = Some (webm (audioChunks (recorder w)))
  /\ loopLengthBars (recorder w') = loopLengthBars (recorder w)
  /\ loopDurationMs (recorder w')
     = (if Qeq_bool (loopDurationMs (recorder w)) (0 # 1)
        then (now env - recordStartTime (recorder w))%Q
        else loopDurationMs (recorder w))
  /\ tasks w' = tasks w /\ rhythm w' = rhythm w.
Proof.
  destruct w as [[st mr ch ab ae el rst llb ld ps ly] rh ts].
  unfold onRecordingStop. cbn. destruct (Qeq_bool ld (0 # 1)); by split_and!.
Qed.

(** X9.  From the moment the count-in callback starts a capture until the
    stop event of the [MediaRecorder] is handled, whatever is played and
    whatever chunks arrive: the recorder stays in [Recording];
    [stopRecording] queues exactly the stop event; handling it leaves the
    recorder [Idle] with a single layer, which holds the chunks that carry
    data and the events played, in order, each timed from the start of the
    capture.  Layers recorded before are gone. *)
Theorem take_commits_what_was_played (env0 env1 : Env) (stream : Stream)
    (activity : list Activity) (w : World) :
  let w1 := actuallyStartRecording env0 stream w in
  let w2 := performAll activity w1 in
  let w3 := stopRecording w2 in
  let w4 := runTask env1 (MediaStopped OnRecordingStop) w3 in
  getState w2 = Recording
  /\ tasks w3 = tasks w1 ++ [MediaStopped OnRecordingStop]
  /\ getState w4 = Idle
  /\ layers (recorder w4)
     = [{| blob := webm (delivered activity);
           events := played (now env0) activity |}].
Proof.
  intros w1 w2 w3 w4.
  destruct (actuallyStartRecording_fields env0 stream w)
    as (Hs1 & Ht1 & Hl1 & Hc1 & Hm1 & _).
  fold w1 in Hs1, Ht1, Hl1, Hc1, Hm1.
  destruct (performAll_capturing activity w1 Hs1)
    as (Hs2 & Ht2 & Hl2 & Hc2 & Hm2 & _ & Hk2).
  fold w2 in Hs2, Ht2, Hl2, Hc2, Hm2, Hk2.
  rewrite Hm1 in Hm2.
  destruct (stopRecording_capturing w2 stream OnRecordingStop Hs2 Hm2)
    as (Hk3 & _ & Hl3 & Hc3 & _).
  fold w3 in Hk3, Hl3, Hc3.
  destruct (onRecordingStop_fields env1 w3) as (Hs4 & Hly4 & _).
  split; [exact Hs2|]. split; [by rewrite Hk3, Hk2|].
  split; [exact Hs4|].
  subst w4. cbn [runTask]. rewrite Hly4, Hl3, Hc3, Hl2, Hc2, Hl1, Hc1, Ht1.
  reflexivity.
Qed.

(** *** The length of a take *)

Lemma getBeatsPerBar_cases (r : Rhythm.t) :
  Rhythm.getBeatsPerBar r = 3 \/ Rhythm.getBeatsPerBar r = 4.
Proof.
  unfold Rhythm.getBeatsPerBar.
  destruct (Rhythm.PATTERNS !! Rhythm.currentPattern r) as [p|]; [|by right].
  destruct (String.eqb _ _); auto.
Qed.

Lemma getBarDuration_pos (r : Rhythm.t) :
  (0 < Rhythm.tempo r)%Q -> (0 < Rhythm.getBarDuration r)%Q.
Proof.
  intros Ht. unfold Rhythm.getBarDuration.
  apply Qmult_lt_0_compat.
  - destruct (getBeatsPerBar_cases r) as [-> | ->]; reflexivity.
  - apply Qlt_shift_div_l; [assumption|]. lra.
Qed.

Lemma deadline_pos (bars : Z) (r : Rhythm.t) :
  0 < bars -> (0 < Rhythm.tempo r)%Q ->
  (0 < inject_Z bars * Rhythm.getBarDuration r * (1000 # 1))%Q.
Proof.
  intros Hb Ht.
  pose proof (getBarDuration_pos r Ht).
  assert (0 < inject_Z bars)%Q.
  { change (0 # 1)%Q with (inject_Z 0). rewrite <- Zlt_Qlt. lia. }
  apply Qmult_lt_0_compat; [|reflexivity].
  by apply Qmult_lt_0_compat.
Qed.

(** X10.  With a loop length of [n > 0] bars configured, a capture that
    starts arms one deadline of [n] bars at the tempo and time signature of
    that moment, whatever duration was stored before; when the deadline
    fires during the capture it stops the [MediaRecorder], that is, it
    queues the stop event. *)
Theorem bar_locked_take_stops_itself (env env' : Env) (stream : Stream)
    (w : World) :
  0 < loopLengthBars (recorder w) -> (0 < Rhythm.tempo (rhythm w))%Q ->
  let d := (inject_Z (loopLengthBars (recorder w))
            * Rhythm.getBarDuration (rhythm w) * (1000 # 1))%Q in
  let w1 := actuallyStartRecording env stream w in
  (0 < d)%Q
  /\ (d == inject_Z (loopLengthBars (recorder w)
                     * Rhythm.getBeatsPerBar (rhythm w))
           * (60000 # 1) / Rhythm.tempo (rhythm w))%Q
  /\ loopDurationMs (recorder w1) = d
  /\ tasks w1 = tasks w ++ [Deadline Recording d]
  /\ tasks (runTask env' (Deadline Recording d) w1)
     = tasks w1 ++ [MediaStopped OnRecordingStop].
Proof.
  intros Hb Ht d w1.
  pose proof (deadline_pos _ _ Hb Ht) as Hd. fold d in Hd.
  assert (Hq : JS.Qltb (0 # 1) d = true) by by apply Qltb_lt.
  split; [exact Hd|]. split.
  { subst d. unfold Rhythm.getBarDuration. rewrite inject_Z_mult.
    field. intros E. rewrite E in Ht. by apply Qlt_irrefl in Ht. }
  subst w1. destruct w as [[st mr ch ab ae el rst llb ld ps ly] rh ts].
  cbn in Hb, d, Hq. unfold actuallyStartRecording. cbn.
  destruct (Z.ltb_spec 0 llb); [|lia]. cbn. fold d. rewrite Hq. cbn.
  by split_and!.
Qed.

Lemma bar_locked_take_stops_itself_witness :
  let env := RecorderSpec.studio (0 # 1) in
  let env' := RecorderSpec.studio (8000 # 1) in
  let w := initialWorld in
  0 < loopLengthBars (recorder w) /\ (0 < Rhythm.tempo (rhythm w))%Q
  /\ let d := (inject_Z (loopLengthBars (recorder w))
               * Rhythm.getBarDuration (rhythm w) * (1000 # 1))%Q in
     let w1 := actuallyStartRecording env (MediaStream 0) w in
     (0 < d)%Q
     /\ (d == inject_Z (loopLengthBars (recorder w)
                        * Rhythm.getBeatsPerBar (rhythm w))
              * (60000 # 1) / Rhythm.tempo (rhythm w))%Q
     /\ loopDurationMs (recorder w1) = d
     /\ tasks w1 = tasks w ++ [Deadline Recording d]
     /\ tasks (runTask env' (Deadline Recording d) w1)
        = tasks w1 ++ [MediaStopped OnRecordingStop].
Proof.
  intros env env' w. split; [reflexivity|]. split; [reflexivity|].
  apply (bar_locked_take_stops_itself env env' (MediaStream 0) w);
    reflexivity.
Defined.

(** X11.  In free mode (no bar count, no stored duration) a capture arms no
    deadline; the stop event of the first take stores the time from the
    start of the capture to the handling of the stop event as the loop
    duration; and the next capture, still in free mode, is given a
    deadline of exactly that duration. *)
Theorem free_take_fixes_loop_length (env0 env1 env2 : Env)
    (stream stream' : Stream) (w : World) :
  loopLengthBars (recorder w) = 0 ->
  (loopDurationMs (recorder w) == 0 # 1)%Q ->
  (now env0 < now env1)%Q ->
  let w1 := actuallyStartRecording env0 stream w in
  let w2 := runTask env1 (MediaStopped OnRecordingStop) (stopRecording w1) in
  let w3 := actuallyStartRecording env2 stream' w2 in
  tasks w1 = tasks w
  /\ loopLengthBars (recorder w2) = 0
  /\ loopDurationMs (recorder w2) = (now env1 - now env0)%Q
  /\ tasks w3 = tasks w2 ++ [Deadline Recording (now env1 - now env0)%Q].
Proof.
  intros Hb Hd Hnow. cbv zeta.
  assert (Hq : JS.Qltb (0 # 1) (loopDurationMs (recorder w)) = false).
  { apply Qltb_ge. rewrite Hd. apply Qle_refl. }
  assert (He : Qeq_bool (loopDurationMs (recorder w)) (0 # 1) = true)
    by by apply Qeq_bool_iff.
  assert (Hp : JS.Qltb (0 # 1) (now env1 - now env0) = true).
  { apply Qltb_lt. lra. }
  destruct (actuallyStartRecording_fields env0 stream w)
    as (Hs1 & Ht1 & _ & _ & Hm1 & _ & Hb1 & _).
  destruct (actuallyStartRecording_free env0 stream w Hb) as (Hd1 & Hk1).
  rewrite Hq, app_nil_r in Hk1.
  destruct (stopRecording_capturing _ stream OnRecordingStop Hs1 Hm1)
    as (_ & _ & _ & _ & Ht2 & Hd2 & _ & Hb2).
  destruct (onRecordingStop_fields env1
              (stopRecording (actuallyStartRecording env0 stream w)))
    as (_ & _ & _ & Hb3 & Hd3 & _).
  rewrite Hd2, Hd1, He, Ht2, Ht1 in Hd3. rewrite Hb2, Hb1, Hb in Hb3.
  destruct (actuallyStartRecording_free env2 stream'
              (onRecordingStop env1
                 (stopRecording (actuallyStartRecording env0 stream w))) Hb3)
    as (_ & Hk3).
  rewrite Hd3, Hp in Hk3.
  split; [exact Hk1|]. split; [exact Hb3|]. split; [exact Hd3|]. exact Hk3.
Qed.

Lemma free_take_fixes_loop_length_witness :
  let env0 := RecorderSpec.studio (0 # 1) in
  let env1 := RecorderSpec.studio (1500 # 1) in
  let env2 := RecorderSpec.studio (9000 # 1) in
  let w := setLoopLength Free initialWorld in
  loopLengthBars (recorder w) = 0
  /\ (loopDurationMs (recorder w) == 0 # 1)%Q
  /\ (now env0 < now env1)%Q
  /\ let w1 := actuallyStartRecording env0 (MediaStream 0) w in
     let w2 :=
       runTask env1 (MediaStopped OnRecordingStop) (stopRecording w1) in
     let w3 := actuallyStartRecording env2 (MediaStream 1) w2 in
     tasks w1 = tasks w
     /\ loopLengthBars (recorder w2) = 0
     /\ loopDurationMs (recorder w2) = (now env1 - now env0)%Q
     /\ tasks w3 = tasks w2 ++ [Deadline Recording (now env1 - now env0)%Q].
Proof.
  intros env0 env1 env2 w.
  split; [reflexivity|]. split; [reflexivity|]. split; [reflexivity|].
  apply (free_take_fixes_loop_length env0 env1 env2 (MediaStream 0)
           (MediaStream 1) w); reflexivity.
Defined.

End TakeFacts.

(** ** The two export calls *)

Section ExportCallFacts.

Import Recorder Exporter WavLayout.

Lemma interleavedOf_channels (buffer : AudioBuffer) :
  interleavedOf buffer = None <-> channels buffer = [].
Proof.
  unfold interleavedOf, numberOfChannels, getChannelData.
  destruct (channels buffer) as [|left [|right rest]]; cbn [length].
  - by destruct (_ =? _).
  - destruct (_ =? _) eqn:E; [|done]. apply Z.eqb_eq in E. lia.
  - destruct (_ =? _); cbn; done.
Qed.

Lemma audioBufferToWav_channels (buffer : AudioBuffer) :
  audioBufferToWav buffer = None <-> channels buffer = [].
Proof.
  rewrite <- interleavedOf_channels.
  destruct (interleavedOf buffer) as [samples|] eqn:E.
  - rewrite (audioBufferToWav_bytes buffer samples E). done.
  - by rewrite (audioBufferToWav_none buffer E).
Qed.

(** X12.  [exportWAV] leaves the recorder as it is and serialises the first
    layer only: layers added by overdubs have no influence on the download.
    There is a download exactly when there is an audio context, the first
    layer decodes, and the decoded buffer has at least one channel. *)
Theorem exportWAV_first_layer_only (env : Env) (r : t) (rh : Rhythm.t)
    (ts : list Task) (first : Layer) (others others' : list Layer) :
  let w := mkWorld (set_layers (first :: others) r) rh ts in
  let w' := mkWorld (set_layers (first :: others') r) rh ts in
  fst (exportWAV env w) = w
  /\ snd (exportWAV env w) = snd (exportWAV env w')
  /\ (is_Some (snd (exportWAV env w))
      <-> is_Some (ctx env)
          /\ exists buffer : AudioBuffer,
               decodeAudioData env (blob first) = Some buffer
               /\ channels buffer <> []).
Proof.
  intros w w'. unfold exportWAV. cbn [recorder layers set_layers w w'].
  destruct (ctx env) as [c|].
  - destruct (decodeAudioData env (blob first)) as [buffer|].
    + pose proof (audioBufferToWav_channels buffer) as Hc.
      destruct (audioBufferToWav buffer) as [wav|].
      * split; [done|]. split; [done|]. cbn [snd]. split.
        -- intros _. split; [done|]. exists buffer. split; [done|].
           intros E. apply Hc in E. done.
        -- done.
      * split; [done|]. split; [done|]. cbn [snd]. split.
        -- intros [? ?]; done.
        -- intros (_ & b & Hb & Hne). injection Hb as <-.
           destruct Hne. by apply Hc.
    + split; [done|]. split; [done|]. cbn [snd]. split.
      * intros [? ?]; done.
      * intros (_ & b & Hb & _). done.
  - split; [done|]. split; [done|]. cbn [snd]. split.
    + intros [? ?]; done.
    + intros ([? ?] & _). done.
Qed.

Lemma flat_map_nil {A B : Type} (f : A -> list B) (l : list A) :
  flat_map f l = [] <-> Forall (fun x => f x = []) l.
Proof.
  induction l as [|x rest IH]; cbn [flat_map].
  - split; [constructor | done].
  - split.
    + intros H. apply app_eq_nil in H as [Hx Hrest].
      constructor; [exact Hx | by apply IH].
    + intros H. apply Forall_cons in H as [Hx Hrest].
      rewrite Hx. by apply IH.
Qed.

(** X13.  [exportMIDI] leaves the recorder as it is.  It downloads nothing
    exactly when no layer holds an event; otherwise it downloads
    [omnichord-loop.mid], built from the events of all layers taken
    together at the tempo of the moment. *)
Theorem exportMIDI_merges_layers (w : World) :
  fst (exportMIDI w) = w
  /\ (snd (exportMIDI w) = None
      <-> Forall (fun l => events l = []) (layers (recorder w)))
  /\ forall d : Download,
       snd (exportMIDI w) = Some d ->
       filename d = "omnichord-loop.mid"%string
       /\ contentType d = "audio/midi"%string
       /\ buildMidiFile (Rhythm.getTempo (rhythm w))
            (flat_map events (layers (recorder w)))
            (loopDurationMs (recorder w))
          = Some (content d).
Proof.
  unfold exportMIDI. rewrite <- flat_map_nil.
  destruct (flat_map events (layers (recorder w))) as [|e rest] eqn:E.
  - split; [done|]. split; [done|]. intros d Hd. done.
  - destruct (buildMidiFile_returns (Rhythm.getTempo (rhythm w)) (e :: rest)
                (loopDurationMs (recorder w))) as [file Hfile].
    rewrite Hfile. split; [done|]. split; [done|].
    intros d Hd. cbn [snd] in Hd. injection Hd as <-. done.
Qed.

End ExportCallFacts.

(** ** The buttons of the recorder *)

Section ButtonFacts.

Import Recorder Exporter Closure TakeSpec App.

Lemma startOverdub_over_layer (env : Env) (w : World) (stream : Stream) :
  mediaStream env = Some stream -> layers (recorder w) <> [] ->
  let w' := startOverdub env w in
  state (recorder w') = Playing
  /\ layers (recorder w') = layers (recorder w)
  /\ mediaRecorder (recorder w')
     = Some {| mrStream := stream; mrActive := true;
               mrOnstop := OnOverdubStop |}
  /\ tasks w'
     = tasks w
       ++ (if JS.Qltb (0 # 1) (loopDurationMs (recorder w))
           then [Deadline Overdub (loopDurationMs (recorder w))] else []).
Proof.
  destruct w as [[st mr ch ab ae el rst llb ld ps ly] rh ts].
  cbn [recorder layers]. intros Hs Hl.
  destruct ly as [|layer rest]; [done|].
  unfold startOverdub. fields. rewrite Hs.
  destruct ab; fields; unfold playLoop; fields;
    destruct ae; fields; destruct (JS.Qltb _ _); fields;
    rewrite ?app_nil_r; by split_and!.
Qed.

(** X14.  An overdub over an existing layer cannot be ended.  The overdub
    button starts the capture and the playback of the loop, which leaves
    the recorder in [Playing], not in [Overdub]; from then on
    [stopRecording] and the overdub deadline do nothing, and the overdub
    button, instead of stopping the capture, abandons the running
    [MediaRecorder] for a new one.  The stop event that would commit the
    overdub layer is never queued. *)
Theorem overdub_take_cannot_be_stopped (env env' env'' : Env)
    (stream stream' : Stream) (d : Q) (w : World) :
  mediaStream env = Some stream -> mediaStream env' = Some stream' ->
  layers (recorder w) <> [] -> getState w <> Overdub ->
  let w1 := overdubClick env w in
  let w2 := overdubClick env' w1 in
  getState w1 = Playing
  /\ mediaRecorder (recorder w1)
     = Some {| mrStream := stream; mrActive := true;
               mrOnstop := OnOverdubStop |}
  /\ stopRecording w1 = w1
  /\ runTask env'' (Deadline Overdub d) w1 = w1
  /\ getState w2 = Playing
  /\ mediaRecorder (recorder w2)
     = Some {| mrStream := stream'; mrActive := true;
               mrOnstop := OnOverdubStop |}
  /\ exists added : list Task,
       tasks w2 = tasks w ++ added /\ Forall isDeadline added.
Proof.
  intros Hs Hs' Hl Hst. cbv zeta.
  assert (H1 : overdubClick env w = startOverdub env w).
  { unfold overdubClick. by destruct (getState w). }
  rewrite H1.
  destruct (startOverdub_over_layer env w stream Hs Hl)
    as (Hp1 & Hl1 & Hm1 & Hk1).
  assert (H2 : overdubClick env' (startOverdub env w)
               = startOverdub env' (startOverdub env w)).
  { unfold overdubClick, getState. by rewrite Hp1. }
  rewrite H2.
  assert (Hl1' : layers (recorder (startOverdub env w)) <> [])
    by by rewrite Hl1.
  destruct (startOverdub_over_layer env' _ stream' Hs' Hl1')
    as (Hp2 & _ & Hm2 & Hk2).
  split; [exact Hp1|]. split; [exact Hm1|].
  split; [by apply stopRecording_when_playing|].
  split; [unfold runTask; by rewrite Hp1|].
  split; [exact Hp2|]. split; [exact Hm2|].
  rewrite Hk2, Hk1, <- app_assoc. clear Hk1 Hk2.
  eexists. split; [reflexivity|]. apply Forall_app. split.
  - destruct (JS.Qltb _ _); by repeat constructor.
  - destruct (JS.Qltb _ _); by repeat constructor.
Qed.

Lemma overdub_take_cannot_be_stopped_witness :
  let env := RecorderSpec.studio (5000 # 1) in
  let env' := RecorderSpec.studio (6000 # 1) in
  let env'' := RecorderSpec.studio (7000 # 1) in
  let w :=
    onRecorder
      (set_layers [{| blob := webm [4096]; events := [] |}]) initialWorld in
  mediaStream env = Some (MediaStream 0)
  /\ mediaStream env' = Some (MediaStream 0)
  /\ layers (recorder w) <> [] /\ getState w <> Overdub
  /\ let w1 := overdubClick env w in
     let w2 := overdubClick env' w1 in
     getState w1 = Playing
     /\ mediaRecorder (recorder w1)
        = Some {| mrStream := MediaStream 0; mrActive := true;
                  mrOnstop := OnOverdubStop |}
     /\ stopRecording w1 = w1
     /\ runTask env'' (Deadline Overdub (2000 # 1)) w1 = w1
     /\ getState w2 = Playing
     /\ mediaRecorder (recorder w2)
        = Some {| mrStream := MediaStream 0; mrActive := true;
                  mrOnstop := OnOverdubStop |}
     /\ exists added : list Task,
          tasks w2 = tasks w ++ added /\ Forall isDeadline added.
Proof.
  intros env env' env'' w.
  split; [reflexivity|]. split; [reflexivity|].
  split; [discriminate|]. split; [discriminate|].
  apply (overdub_take_cannot_be_stopped env env' env'' (MediaStream 0)
           (MediaStream 0) (2000 # 1) w);
    [reflexivity | reflexivity | discriminate | discriminate].
Defined.

End ButtonFacts.

(** ** The scheduler in every reachable state *)

Section SchedulerFacts.

Import Rhythm Closure RhythmSpec.

(** *** What the public methods and the timer preserve *)

Lemma schedulerIteration_keeps (r : t) :
  volume (schedulerIteration r).1 = volume r
  /\ metronomeOn (schedulerIteration r).1 = metronomeOn r.
Proof.
  unfold schedulerIteration.
  pose proof (scheduleStep_frame r (currentStep r) (nextStepTime r)) as H.
  destruct (scheduleStep r (currentStep r) (nextStepTime r)) as [r1 e].
  cbn [fst] in H. destruct H as (_ & _ & Hv & _ & _ & _ & _ & Hm).
  cbn. by split.
Qed.

Lemma iterations_keeps (n : nat) (r : t) :
  volume (iterations n r).1 = volume r
  /\ metronomeOn (iterations n r).1 = metronomeOn r.
Proof.
  revert r. induction n as [|n IH]; intros r; [by split|].
  cbn [iterations].
  destruct (schedulerIteration_keeps r) as [Hv Hm].
  destruct (schedulerIteration r) as [r1 e]. cbn [fst] in Hv, Hm.
  destruct (IH r1) as [Hv' Hm'].
  destruct (iterations n r1) as [r2 log]. cbn [fst] in *.
  split; congruence.
Qed.

Lemma tick_keeps (ctx : option Q) (r r' : t) (log : list StepLog) :
  tick ctx r = Some (r', log) ->
  volume r' = volume r /\ metronomeOn r' = metronomeOn r.
Proof.
  intros H. apply tick_iterations in H.
  pose proof (iterations_keeps (length log) r) as Hk.
  by rewrite H in Hk.
Qed.

Lemma ticks_keeps (clock : list Q) (r r' : t) (log : list StepLog) :
  ticks clock r = Some (r', log) ->
  volume r' = volume r /\ metronomeOn r' = metronomeOn r.
Proof.
  intros H. apply ticks_iterations in H.
  pose proof (iterations_keeps (length log) r) as Hk.
  by rewrite H in Hk.
Qed.

Lemma clamp_volume (val : Q) :
  let m := if JS.Qltb val (1 # 1) then val else 1 # 1 in
  let v := if JS.Qltb (0 # 1) m then m else 0 # 1 in
  (0 # 1 <= v)%Q /\ (v <= 1 # 1)%Q.
Proof.
  cbv zeta.
  destruct (JS.Qltb val (1 # 1)) eqn:E1.
  - apply Qltb_lt in E1. destruct (JS.Qltb (0 # 1) val) eqn:E2.
    + apply Qltb_lt in E2. split; lra.
    + split; lra.
  - destruct (JS.Qltb (0 # 1) (1 # 1)) eqn:E2; split; lra.
Qed.

Lemma start_volume (ctx : option Q) (r : t) : volume (start ctx r) = volume r.
Proof. unfold start. destruct (playing r); [done|]. by destruct ctx. Qed.

Lemma stop_volume (r : t) : volume (stop r) = volume r.
Proof. unfold stop. by destruct (negb (playing r)). Qed.

Lemma Reachable_volume (r : t) :
  Reachable r -> (0 # 1 <= volume r)%Q /\ (volume r <= 1 # 1)%Q.
Proof.
  induction 1 as [ | ctx r _ IH | r _ IH | ctx r _ IH | bpm r _ IH
                 | val r _ IH | name r _ IH | r _ IH | cb ctx r _ IH
                 | ctx r r' log _ IH Ht | c r _ IH ].
  - split; unfold Qle; cbn; lia.
  - by rewrite start_volume.
  - by rewrite stop_volume.
  - unfold toggle. cbn [fst].
    destruct (playing r); [by rewrite stop_volume | by rewrite start_volume].
  - exact IH.
  - apply clamp_volume.
  - unfold setPattern. destruct (PATTERNS !! name); [|exact IH].
    by destruct (playing _).
  - exact IH.
  - unfold startCountIn. cbn [volume set_countIn].
    destruct (negb _); [by rewrite start_volume | exact IH].
  - destruct (tick_keeps _ _ _ _ Ht) as [-> _]. exact IH.
  - unfold runCountIn. by destruct (negb _).
Qed.



(** *** The timer wake-up *)




(** *** What one step dispatches *)

Lemma scheduleStep_log (r : t) (step : Z) (time : Q) (p : Pattern) :
  PATTERNS !! currentPattern r = Some p ->
  slAudio (scheduleStep r step time).2
  = when (metronomeOn r && (Z.rem step 4 =? 0))
         (PlayMetronomeClick time (step =? 0))
    ++ when (hit (kick p) step) (PlayKick time (volume r))
    ++ when (hit (snare p) step) (PlaySnare time (volume r * (8 # 10)))
    ++ when (hit (hihat p) step) (PlayHihat time false (volume r * (5 # 10)))
    ++ when (hit (ohihat p) step) (PlayHihat time true (volume r * (5 # 10)))
    ++ when (hit (clap p) step) (PlayClap time (volume r * (6 # 10)))
    ++ when (hit (rim p) step) (PlayRim time (volume r * (5 # 10)))
  /\ slMidi (scheduleStep r step time).2
     = when (hit (kick p) step)
         {| noChannel := 10; noNote := 36;
            noVelocity := JS.round (volume r * inject_Z 100) |}
       ++ when (hit (snare p) step)
            {| noChannel := 10; noNote := 38;
               noVelocity := JS.round (volume r * inject_Z 80) |}
       ++ when (hit (hihat p) step)
            {| noChannel := 10; noNote := 42;
               noVelocity := JS.round (volume r * inject_Z 60) |}
       ++ when (hit (ohihat p) step)
            {| noChannel := 10; noNote := 46;
               noVelocity := JS.round (volume r * inject_Z 60) |}
       ++ when (hit (clap p) step)
            {| noChannel := 10; noNote := 39;
               noVelocity := JS.round (volume r * inject_Z 70) |}
       ++ when (hit (rim p) step)
            {| noChannel := 10; noNote := 37;
               noVelocity := JS.round (volume r * inject_Z 60) |}.
Proof.
  intros Ep. unfold scheduleStep. rewrite Ep.
  destruct (countInCallback r); [|by split].
  destruct (step =? 0); [|by split].
  destruct (0 <? countInStep r); by split.
Qed.

Lemma In_when {A : Type} (c : bool) (x y : A) :
  In y (when c x) <-> c = true /\ y = x.
Proof.
  unfold when. destruct c; cbn.
  - split; [intros [<-|[]]; by split | intros [_ ->]; by left].
  - split; [done | intros [? _]; done].
Qed.

(** X17.  While a pattern of the table is selected, a step asks for a
    metronome click exactly when the metronome is on and the step is a
    multiple of four; the click sounds at the time of the step and is
    accented exactly on step 0. *)
Theorem metronome_clicks_on_beats (r : t) (step : Z) (time t : Q)
    (accent : bool) :
  is_Some (PATTERNS !! currentPattern r) ->
  In (PlayMetronomeClick t accent) (slAudio (scheduleStep r step time).2)
  <-> metronomeOn r = true /\ Z.rem step 4 = 0
      /\ t = time /\ accent = (step =? 0).
Proof.
  intros [p Ep]. destruct (scheduleStep_log r step time p Ep) as [-> _].
  rewrite !in_app_iff, !In_when. split.
  - intros [[Hc He]|H].
    + apply andb_prop in Hc as [Hm Hs]. apply Z.eqb_eq in Hs.
      injection He as -> ->. by split_and!.
    + destruct H as [[_ ?]|[[_ ?]|[[_ ?]|[[_ ?]|[[_ ?]|[_ ?]]]]]];
        discriminate.
  - intros (Hm & Hs & -> & ->). left. split; [|reflexivity].
    rewrite Hm. cbn. by apply Z.eqb_eq.
Qed.

Lemma metronome_clicks_on_beats_witness :
  let r := (toggleMetronome initial).1 in
  is_Some (PATTERNS !! currentPattern r)
  /\ (In (PlayMetronomeClick (3 # 1) false)
        (slAudio (scheduleStep r 8 (3 # 1)).2)
      <-> metronomeOn r = true /\ Z.rem 8 4 = 0
          /\ (3 # 1) = (3 # 1) /\ false = (8 =? 0)).
Proof.
  intros r.
  assert (H : is_Some (PATTERNS !! currentPattern r))
    by (vm_compute; by eexists).
  split; [exact H|].
  exact (metronome_clicks_on_beats r 8 (3 # 1) (3 # 1) false H).
Defined.

Lemma round_scaled (vol : Q) (k : Z) :
  (0 # 1 <= vol)%Q -> (vol <= 1 # 1)%Q -> 0 <= k ->
  0 <= JS.round (vol * inject_Z k) <= k.
Proof.
  intros H0 H1 Hk.
  assert (Hq : (0 <= inject_Z k)%Q).
  { change (0 # 1)%Q with (inject_Z 0). rewrite <- Zle_Qle. lia. }
  assert (Hlo : (0 # 1 <= vol * inject_Z k)%Q).
  { by apply Qmult_le_0_compat. }
  assert (Hhi : (vol * inject_Z k <= inject_Z k)%Q).
  { rewrite <- (Qmult_1_l (inject_Z k)) at 2.
    by apply Qmult_le_compat_r. }
  split.
  - change 0 with (JS.round (0 # 1)). by apply round_mono.
  - replace k with (JS.round (inject_Z k)) at 2; [by apply round_mono|].
    unfold JS.round.
    apply Z.le_antisymm.
    + apply Z.lt_succ_r. rewrite Zlt_Qlt.
      eapply Qle_lt_trans; [apply Qfloor_le|].
      rewrite <- Z.add_1_r, inject_Z_plus. unfold inject_Z at 3. lra.
    + rewrite <- (Qfloor_Z k) at 1. apply Qfloor_resp_le. lra.
Qed.

(** X18.  In every reachable state the drum notes a step sends to the MIDI
    port are on channel 10, carry one of the six drum note numbers, and
    have a velocity from 0 to 100; the port receives each as the three
    bytes [0x99, note, velocity]. *)
Theorem drum_notes_fit_midi (r : t) (step : Z) (time : Q) (m : MIDI.t)
    (out : MIDI.Port) :
  Reachable r -> MIDI.selectedOutput m = Some out ->
  Forall
    (fun n =>
       noChannel n = 10
       /\ In (noNote n) [36; 38; 42; 46; 39; 37]
       /\ 0 <= noVelocity n <= 100
       /\ MIDI.sendNoteOn (noChannel n) (noNote n) (noVelocity n) m
          = Some {| MIDI.port := out;
                    MIDI.data := [0x99; noNote n; noVelocity n] |})
    (slMidi (scheduleStep r step time).2).
Proof.
  intros Hr Hout.
  destruct (Reachable_volume r Hr) as [H0 H1].
  destruct (Reachable_Invariant r Hr) as [_ _ [p Ep] _ _].
  destruct (scheduleStep_log r step time p Ep) as [_ ->].
  assert (Hnote : forall note k : Z,
            In note [36; 38; 42; 46; 39; 37] -> 0 <= k <= 100 ->
            let n := {| noChannel := 10; noNote := note;
                        noVelocity := JS.round (volume r * inject_Z k) |} in
            noChannel n = 10
            /\ In (noNote n) [36; 38; 42; 46; 39; 37]
            /\ 0 <= noVelocity n <= 100
            /\ MIDI.sendNoteOn (noChannel n) (noNote n) (noVelocity n) m
               = Some {| MIDI.port := out;
                         MIDI.data := [0x99; noNote n; noVelocity n] |}).
  { intros note k Hin Hk n. subst n. cbn [noChannel noNote noVelocity].
    pose proof (round_scaled (volume r) k H0 H1 ltac:(lia)) as Hv.
    split; [reflexivity|]. split; [exact Hin|]. split; [lia|].
    unfold MIDI.sendNoteOn. rewrite Hout.
    assert (Hn : 0 <= note < 128).
    { cbn in Hin. lia. }
    rewrite !band_7F, !toInt32_small, !Z.mod_small by lia.
    reflexivity. }
  repeat (apply Forall_app; split);
    apply when_Forall; apply Hnote; cbn; lia || tauto.
Qed.

Lemma drum_notes_fit_midi_witness :
  let m := {| MIDI.midiAccess := None;
              MIDI.selectedOutput := Some (MIDI.MIDIPort "synth");
              MIDI.selectedInput := None |} in
  Reachable initial
  /\ MIDI.selectedOutput m = Some (MIDI.MIDIPort "synth")
  /\ Forall
       (fun n =>
          noChannel n = 10
          /\ In (noNote n) [36; 38; 42; 46; 39; 37]
          /\ 0 <= noVelocity n <= 100
          /\ MIDI.sendNoteOn (noChannel n) (noNote n) (noVelocity n) m
             = Some {| MIDI.port := MIDI.MIDIPort "synth";
                       MIDI.data := [0x99; noNote n; noVelocity n] |})
       (slMidi (scheduleStep initial 0 (0 # 1)).2).
Proof.
  intros m. split; [apply reach_initial|]. split; [reflexivity|].
  apply (drum_notes_fit_midi initial 0 (0 # 1) m (MIDI.MIDIPort "synth"));
    [apply reach_initial | reflexivity].
Defined.

(** *** Bars *)

Lemma PATTERNS_signature (name : string) (p : Pattern) :
  PATTERNS !! name = Some p ->
  (steps p = 16 /\ timeSignature p = "4/4"%string)
  \/ (steps p = 12 /\ timeSignature p = "3/4"%string).
Proof.
  intros H. unfold PATTERNS in H.
  apply elem_of_list_to_map_2 in H.
  unfold PATTERN_ENTRIES in H.
  repeat match goal with
         | H : _ ∈ _ :: _ |- _ => apply elem_of_cons in H as [H|H]
         | H : _ ∈ [] |- _ => by apply elem_of_nil in H
         | H : (_, _) = (_, _) |- _ => injection H as -> ->
         end; cbn; auto.
Qed.

(** X19.  In every reachable state a bar as the recorder measures it
    ([getBarDuration], beats per bar at the tempo) is exactly one cycle of
    the pattern as the scheduler plays it: the pattern has four steps per
    beat of its time signature, so its steps together last one bar. *)
Theorem bar_spans_pattern (r : t) :
  Reachable r ->
  getPatternSteps r = 4 * getBeatsPerBar r
  /\ (getBarDuration r == inject_Z (getPatternSteps r) * getStepDuration r)%Q.
Proof.
  intros Hr.
  pose proof (Reachable_Invariant r Hr) as Hi.
  pose proof (Invariant_tempo_pos r Hi) as Ht.
  destruct Hi as [_ _ [p Ep] _ _].
  assert (Hs : getPatternSteps r = 4 * getBeatsPerBar r).
  { unfold getPatternSteps, getBeatsPerBar. rewrite Ep.
    destruct (PATTERNS_signature _ _ Ep) as [[-> ->] | [-> ->]];
      reflexivity. }
  split; [exact Hs|].
  unfold getBarDuration, getStepDuration. rewrite Hs, inject_Z_mult.
  field. intros E. rewrite E in Ht. by apply Qlt_irrefl in Ht.
Qed.

Lemma bar_spans_pattern_witness :
  let r := setPattern "waltz" initial in
  Reachable r
  /\ getPatternSteps r = 4 * getBeatsPerBar r
  /\ (getBarDuration r == inject_Z (getPatternSteps r) * getStepDuration r)%Q.
Proof.
  intros r.
  assert (H : Reachable r) by apply reach_setPattern, reach_initial.
  split; [exact H|]. exact (bar_spans_pattern r H).
Defined.

(** *** The metronome around a count-in *)

Lemma start_metronome (ctx : option Q) (r : t) :
  metronomeOn (start ctx r) = metronomeOn r.
Proof. unfold start. destruct (playing r); [done|]. by destruct ctx. Qed.

Lemma startCountIn_armed (cb : Callback) (ctx : option Q) (r : t) :
  metronomeOn (startCountIn cb ctx r) = true
  /\ countInCallback (startCountIn cb ctx r) = Some (closureOf r cb).
Proof.
  unfold startCountIn. cbn [metronomeOn countInCallback set_countIn].
  split; [|reflexivity].
  destruct (negb _); [by rewrite start_metronome | reflexivity].
Qed.

(** X20.  [startCountIn] switches the metronome on and stores a closure
    that remembers whether it was on before.  However long the scheduler
    then runs, the metronome stays on, and running the stored closure
    puts it back to what it was before the count-in. *)
Theorem count_in_restores_metronome (cb : Callback) (ctx : option Q)
    (clock : list Q) (r r' : t) (log : list StepLog) :
  ticks clock (startCountIn cb ctx r) = Some (r', log) ->
  countInCallback (startCountIn cb ctx r) = Some (closureOf r cb)
  /\ metronomeOn r' = true
  /\ metronomeOn (runCountIn (closureOf r cb) r') = metronomeOn r.
Proof.
  intros Ht. destruct (startCountIn_armed cb ctx r) as [Hon Hcb].
  destruct (ticks_keeps _ _ _ _ Ht) as [_ Hm]. rewrite Hon in Hm.
  split; [exact Hcb|]. split; [exact Hm|].
  unfold runCountIn, closureOf. cbn [wasMetronomeOn].
  destruct (metronomeOn r); [exact Hm | reflexivity].
Qed.

Lemma count_in_restores_metronome_witness :
  let cb := ActuallyStartRecording (MediaStream 0) in
  let armed := startCountIn cb (Some (0 # 1)) initial in
  exists (r' : t) (log : list StepLog),
    ticks [0 # 1; 1 # 4] armed = Some (r', log)
    /\ countInCallback armed = Some (closureOf initial cb)
    /\ metronomeOn r' = true
    /\ metronomeOn (runCountIn (closureOf initial cb) r') = metronomeOn initial.
Proof.
  intros cb armed.
  destruct (ticks [0 # 1; 1 # 4] armed) as [[r' log]|] eqn:E;
    [|vm_compute in E; discriminate].
  exists r', log. split; [reflexivity|].
  exact (count_in_restores_metronome cb (Some (0 # 1)) [0 # 1; 1 # 4]
           initial r' log E).
Defined.

(** X21.  A count-in armed while another one is pending replaces it: the
    first callback is dropped, and the new closure remembers the metronome
    as on, because the first count-in had switched it on.  When it fires,
    the metronome therefore stays on, also when it was off before the
    first count-in. *)
Theorem rearmed_count_in_keeps_metronome_on (cb1 cb2 : Callback)
    (ctx1 ctx2 : option Q) (clock : list Q) (r r' : t) (log : list StepLog) :
  let armed := startCountIn cb2 ctx2 (startCountIn cb1 ctx1 r) in
  ticks clock armed = Some (r', log) ->
  countInCallback armed
  = Some {| wasMetronomeOn := true; callback := cb2 |}
  /\ metronomeOn (runCountIn {| wasMetronomeOn := true; callback := cb2 |} r')
     = true.
Proof.
  intros armed Ht.
  destruct (startCountIn_armed cb1 ctx1 r) as [Hon1 _].
  destruct (startCountIn_armed cb2 ctx2 (startCountIn cb1 ctx1 r))
    as [Hon2 Hcb2].
  unfold closureOf in Hcb2. rewrite Hon1 in Hcb2.
  destruct (ticks_keeps _ _ _ _ Ht) as [_ Hm].
  split; [exact Hcb2|]. unfold runCountIn. cbn [wasMetronomeOn negb].
  rewrite Hm. exact Hon2.
Qed.

Lemma rearmed_count_in_keeps_metronome_on_witness :
  let cb := ActuallyStartRecording (MediaStream 0) in
  let armed :=
    startCountIn cb (Some (1 # 1)) (startCountIn cb (Some (0 # 1)) initial) in
  metronomeOn initial = false
  /\ exists (r' : t) (log : list StepLog),
       ticks [1 # 1; 3 # 1] armed = Some (r', log)
       /\ countInCallback armed
          = Some {| wasMetronomeOn := true; callback := cb |}
       /\ metronomeOn
            (runCountIn {| wasMetronomeOn := true; callback := cb |} r')
          = true.
Proof.
  intros cb armed. split; [reflexivity|].
  destruct (ticks [1 # 1; 3 # 1] armed) as [[r' log]|] eqn:E;
    [|vm_compute in E; discriminate].
  exists r', log. split; [reflexivity|].
  exact (rearmed_count_in_keeps_metronome_on cb cb (Some (0 # 1))
           (Some (1 # 1)) [1 # 1; 3 # 1] initial r' log E).
Defined.

End SchedulerFacts.

(** ** The MIDI port *)

Section MidiPortFacts.

Import MIDI.

Lemma toInt32_mod (v k : Z) :
  0 < k -> (k | 4294967296) -> JS.toInt32 v mod k = v mod k.
Proof.
  intros Hk Hdiv. unfold JS.toInt32.
  assert (Hm : (v mod 4294967296) mod k = v mod k).
  { by apply Z.mod_mod_divide. }
  destruct (_ <? _); [exact Hm|].
  destruct Hdiv as [q Hq].
  replace (v mod 4294967296 - 4294967296)
    with (v mod 4294967296 + (- q) * k) by lia.
  rewrite Z_mod_plus_full. exact Hm.
Qed.

Lemma band_0F (v : Z) : JS.band v 0x0F = v mod 16.
Proof.
  unfold JS.band. rewrite (toInt32_small 15) by lia.
  rewrite (Z.land_ones _ 4) by lia.
  apply toInt32_mod; [lia|]. by exists 268435456.
Qed.

Lemma band_7F_mod (v : Z) : JS.band v 0x7F = v mod 128.
Proof.
  rewrite band_7F. apply toInt32_mod; [lia|]. by exists 33554432.
Qed.

Lemma status_decode (n : Z) :
  0 <= n < 16 ->
  command (144 + n) = 9 /\ channel (144 + n) = n + 1
  /\ command (128 + n) = 8 /\ channel (128 + n) = n + 1.
Proof.
  intros Hn. unfold command, channel.
  rewrite !sar_small, !band_0F by lia. change (2 ^ 4) with 16.
  repeat split; Z.to_euclidean_division_equations; lia.
Qed.

Lemma sent_bytes (ch note velocity : Z) (m : t) :
  match selectedOutput m with
  | None =>
      sendNoteOn ch note velocity m = None /\ sendNoteOff ch note m = None
  | Some out =>
      sendNoteOn ch note velocity m
      = Some {| port := out;
                data := [0x90 + (ch - 1) mod 16; note mod 128;
                         velocity mod 128] |}
      /\ sendNoteOff ch note m
         = Some {| port := out;
                   data := [0x80 + (ch - 1) mod 16; note mod 128; 0] |}
  end.
Proof.
  unfold sendNoteOn, sendNoteOff.
  destruct (selectedOutput m) as [out|]; [|by split].
  pose proof (Z.mod_pos_bound (ch - 1) 16 ltac:(lia)) as Hc.
  rewrite !band_0F, !band_7F_mod.
  destruct (status_bytes ((ch - 1) mod 16) Hc) as (-> & -> & _).
  by split.
Qed.

(** X22.  Without a selected output nothing is sent.  With one, a Note-On
    is the three bytes [0x90 + (channel - 1) mod 16], [note mod 128],
    [velocity mod 128] and a Note-Off the three bytes
    [0x80 + (channel - 1) mod 16], [note mod 128], [0], whatever integers
    are passed: the status byte stays within 0x90..0x9F (0x80..0x8F) and
    the data bytes within 0..127. *)
Theorem sent_messages_are_valid (ch note velocity : Z) (m : t) :
  match selectedOutput m with
  | None =>
      sendNoteOn ch note velocity m = None /\ sendNoteOff ch note m = None
  | Some out =>
      sendNoteOn ch note velocity m
      = Some {| port := out;
                data := [0x90 + (ch - 1) mod 16; note mod 128;
                         velocity mod 128] |}
      /\ sendNoteOff ch note m
         = Some {| port := out;
                   data := [0x80 + (ch - 1) mod 16; note mod 128; 0] |}
      /\ 0x90 <= 0x90 + (ch - 1) mod 16 <= 0x9F
      /\ 0x80 <= 0x80 + (ch - 1) mod 16 <= 0x8F
      /\ 0 <= note mod 128 <= 127 /\ 0 <= velocity mod 128 <= 127
  end.
Proof.
  pose proof (sent_bytes ch note velocity m) as H.
  destruct (selectedOutput m) as [out|]; [|exact H].
  destruct H as [Hon Hoff].
  pose proof (Z.mod_pos_bound (ch - 1) 16 ltac:(lia)) as Hc.
  pose proof (Z.mod_pos_bound note 128 ltac:(lia)) as Hn.
  pose proof (Z.mod_pos_bound velocity 128 ltac:(lia)) as Hv.
  split_and!; assumption || lia.
Qed.

(** X23.  What [sendNoteOn] sends is what [onMIDIMessage] understands: the
    status byte decodes to command 9 and, for a channel from 1 to 16, to
    that channel.  Fed back to the input handler, the message triggers a
    string voice for the note exactly when a chord is active and the
    velocity byte is not 0; the message of [sendNoteOff] never triggers
    one. *)
Theorem note_on_loops_back (chordActive : bool) (ch note velocity : Z)
    (m : t) (out : Port) :
  selectedOutput m = Some out ->
  exists (on off : Sent) (status : Z) (rest : list Z),
    sendNoteOn ch note velocity m = Some on
    /\ sendNoteOff ch note m = Some off
    /\ data on = status :: rest
    /\ command status = 9
    /\ channel status = (ch - 1) mod 16 + 1
    /\ (1 <= ch <= 16 -> channel status = ch)
    /\ onMIDIMessage chordActive (data on)
       = (if chordActive && (0 <? velocity mod 128)
          then Some {| svNote := note mod 128;
                       svGain := inject_Z (velocity mod 128) / (127 # 1) |}
          else None)
    /\ onMIDIMessage chordActive (data off) = None.
Proof.
  intros Hout.
  pose proof (sent_bytes ch note velocity m) as H. rewrite Hout in H.
  destruct H as (Hon & Hoff).
  pose proof (Z.mod_pos_bound (ch - 1) 16 ltac:(lia)) as Hc.
  destruct (status_decode ((ch - 1) mod 16) Hc) as (Hc9 & Hch & Hc8 & _).
  eexists _, _, _, _. split; [exact Hon|]. split; [exact Hoff|].
  cbn [data]. split; [reflexivity|].
  change (0x90 + (ch - 1) mod 16) with (144 + (ch - 1) mod 16).
  change (0x80 + (ch - 1) mod 16) with (128 + (ch - 1) mod 16).
  split; [exact Hc9|]. split; [exact Hch|].
  split; [intros Hr; rewrite Hch, Z.mod_small by lia; lia|].
  unfold onMIDIMessage. rewrite Hc9, Hc8. cbn [Z.eqb Pos.eqb andb].
  split; [|reflexivity].
  destruct (0 <? velocity mod 128), chordActive; reflexivity.
Qed.

Lemma note_on_loops_back_witness :
  let m := {| midiAccess := None; selectedOutput := Some (MIDIPort "loop");
              selectedInput := None |} in
  selectedOutput m = Some (MIDIPort "loop")
  /\ exists (on off : Sent) (status : Z) (rest : list Z),
       sendNoteOn 1 60 100 m = Some on
       /\ sendNoteOff 1 60 m = Some off
       /\ data on = status :: rest
       /\ command status = 9
       /\ channel status = (1 - 1) mod 16 + 1
       /\ (1 <= 1 <= 16 -> channel status = 1)
       /\ onMIDIMessage true (data on)
          = (if true && (0 <? 100 mod 128)
             then Some {| svNote := 60 mod 128;
                          svGain := inject_Z (100 mod 128) / (127 # 1) |}
             else None)
       /\ onMIDIMessage true (data off) = None.
Proof.
  intros m. split; [reflexivity|].
  apply (note_on_loops_back true 1 60 100 m (MIDIPort "loop")). reflexivity.
Defined.

End MidiPortFacts.

(** ** The chord table and the chord pads *)

Section ChordFacts.

Import Chords ChordSpec Exporter ExporterSpec.

Lemma chords_entry (key : string) (chord : Chord) :
  chords !! key = Some chord -> In (key, chord) CHORD_ENTRIES.
Proof.
  intros H. apply elem_of_list_to_map_2 in H.
  by apply list_elem_of_In.
Qed.

Lemma CHORD_ENTRIES_shape :
  forallb
    (fun '(_, c) =>
       (length (padMidi c) =? length (intervals c) + 1)%nat
       && within 48 71 (padMidi c)
       && (length (stripNotes c) =? 4 * length (intervals c) + 1)%nat
       && increasing (stripNotes c)
       && within 48 107 (stripNotes c)
       && (hd 0 (stripNotes c) =? rootMidi (root c))
       && (List.last (stripNotes c) 0 =? rootMidi (root c) + 48)
       && (3 <=? length (intervals c))%nat)
    CHORD_ENTRIES = true.
Proof. vm_compute. reflexivity. Qed.

(** X24.  The table holds 36 chords under distinct keys.  Each has as many
    pad notes as intervals plus the octave, all from MIDI note 48 to 71;
    its strip runs through four octaves of the chord and ends on the root
    four octaves up, strictly ascending from the root, within MIDI notes
    48 to 107. *)
Theorem chord_table_shape (key : string) (chord : Chord) :
  chords !! key = Some chord ->
  length CHORD_ENTRIES = 36%nat
  /\ NoDup getAllKeys
  /\ length (padMidi chord) = (length (intervals chord) + 1)%nat
  /\ within 48 71 (padMidi chord) = true
  /\ length (stripNotes chord) = (4 * length (intervals chord) + 1)%nat
  /\ increasing (stripNotes chord) = true
  /\ within 48 107 (stripNotes chord) = true
  /\ hd 0 (stripNotes chord) = rootMidi (root chord)
  /\ List.last (stripNotes chord) 0 = rootMidi (root chord) + 48.
Proof.
  intros H. apply chords_entry in H.
  pose proof CHORD_ENTRIES_shape as Hall.
  rewrite forallb_forall in Hall. specialize (Hall _ H). cbn beta iota in Hall.
  repeat (apply andb_prop in Hall as [Hall ?]).
  split; [reflexivity|].
  split; [apply (bool_decide_unpack _); vm_compute; reflexivity|].
  split; [by apply Nat.eqb_eq|]. split; [assumption|].
  split; [by apply Nat.eqb_eq|]. split; [assumption|].
  split; [assumption|]. split; [by apply Z.eqb_eq|]. by apply Z.eqb_eq.
Qed.

Lemma chord_table_shape_witness :
  exists chord : Chord,
    chords !! "C_maj"%string = Some chord
    /\ length CHORD_ENTRIES = 36%nat
    /\ NoDup getAllKeys
    /\ length (padMidi chord) = (length (intervals chord) + 1)%nat
    /\ within 48 71 (padMidi chord) = true
    /\ length (stripNotes chord) = (4 * length (intervals chord) + 1)%nat
    /\ increasing (stripNotes chord) = true
    /\ within 48 107 (stripNotes chord) = true
    /\ hd 0 (stripNotes chord) = rootMidi (root chord)
    /\ List.last (stripNotes chord) 0 = rootMidi (root chord) + 48.
Proof.
  destruct (chords !! "C_maj"%string) as [chord|] eqn:E;
    [|vm_compute in E; discriminate].
  exists chord. split; [reflexivity|].
  exact (chord_table_shape "C_maj" chord E).
Defined.

Lemma midiNumber_array (ns : list Z) :
  (2 <= length ns)%nat -> midiNumber (MidiNotes ns) = 0.
Proof.
  destruct ns as [|a [|b rest]]; cbn [length]; [lia | lia | reflexivity].
Qed.

Lemma padMidi_array (key : string) (chord : Chord) :
  chords !! key = Some chord -> midiNumber (MidiNotes (padMidi chord)) = 0.
Proof.
  intros H. apply chords_entry in H.
  pose proof CHORD_ENTRIES_shape as Hall.
  rewrite forallb_forall in Hall. specialize (Hall _ H). cbn beta iota in Hall.
  repeat (apply andb_prop in Hall as [Hall ?]).
  apply midiNumber_array.
  apply Nat.eqb_eq in Hall.
  match goal with H : (3 <=? _)%nat = true |- _ => apply Nat.leb_le in H end.
  lia.
Qed.

(** X25.  Pressing a chord pad while a take is captured logs one event
    whose [midi] property is the array of pad notes.  The exporter turns
    that event, for every chord of the table, into a Note-On and a
    Note-Off for note number 0 on channel 2 at velocity 64: the notes of
    the chord do not reach the file. *)
Theorem chord_pad_exports_note_zero (env : Recorder.Env) (key : string)
    (chord : Chord) (a : App.t) :
  chords !! key = Some chord ->
  Recorder.getState (App.world a) = Recorder.Recording ->
  exists e : Event,
    Recorder.eventLog
      (Recorder.recorder (App.world (App.activateChord env key a).1))
    = Recorder.eventLog (Recorder.recorder (App.world a)) ++ [e]
    /\ type e = "chord"%string
    /\ midi e = Some (MidiNotes (padMidi chord))
    /\ forall (tempo : Q) (last : Z) (pre : list Z),
       exists deltaBytes durBytes : list Z,
         emitEvent tempo (last, pre) e
         = Some (tickOf tempo e,
                 pre ++ deltaBytes ++ [0x91; 0; 64]
                 ++ durBytes ++ [0x81; 0; 0]).
Proof.
  intros Hc Hs. unfold App.activateChord, setActive. rewrite Hc.
  cbn [fst App.world]. unfold Recorder.logEvent.
  unfold Recorder.getState in Hs. rewrite Hs.
  eexists. split; [reflexivity|]. split; [reflexivity|].
  split; [reflexivity|].
  intros tempo last pre. unfold emitEvent, tickOf.
  cbn [midi time channel velocity].
  cbv zeta. rewrite (padMidi_array key chord Hc).
  destruct (writeVarLen_returns
              (JS.round
                 ((Recorder.now env
                   - Recorder.recordStartTime (Recorder.recorder (App.world a)))
                  / msPerTick tempo) - last))
    as (deltaBytes & ->).
  destruct (writeVarLen_returns (JS.round ((200 # 1) / msPerTick tempo)))
    as (durBytes & ->).
  exists deltaBytes, durBytes. reflexivity.
Qed.

Lemma chord_pad_exports_note_zero_witness :
  let env := RecorderSpec.studio (2500 # 1) in
  let a :=
    {| App.activeChordBtn := false; App.activeChordKey := None;
       App.activeChord := None; App.midi := MIDI.initial;
       App.world :=
         Recorder.actuallyStartRecording (RecorderSpec.studio (2000 # 1))
           (Closure.MediaStream 0) Recorder.initialWorld |} in
  exists chord : Chord,
    chords !! "G_sev"%string = Some chord
    /\ Recorder.getState (App.world a) = Recorder.Recording
    /\ exists e : Event,
         Recorder.eventLog
           (Recorder.recorder (App.world (App.activateChord env "G_sev" a).1))
         = Recorder.eventLog (Recorder.recorder (App.world a)) ++ [e]
         /\ type e = "chord"%string
         /\ midi e = Some (MidiNotes (padMidi chord))
         /\ forall (tempo : Q) (last : Z) (pre : list Z),
            exists deltaBytes durBytes : list Z,
              emitEvent tempo (last, pre) e
              = Some (tickOf tempo e,
                      pre ++ deltaBytes ++ [0x91; 0; 64]
                      ++ durBytes ++ [0x81; 0; 0]).
Proof.
  intros env a.
  destruct (chords !! "G_sev"%string) as [chord|] eqn:E;
    [|vm_compute in E; discriminate].
  exists chord. split; [reflexivity|]. split; [reflexivity|].
  exact (chord_pad_exports_note_zero env "G_sev" chord a E eq_refl).
Defined.

End ChordFacts.

(** ** The play head *)

Section PlayheadFacts.

Import Recorder TakeSpec Timeline.

Lemma trunc_floor (x : Q) : (0 <= x)%Q -> JS.trunc x = Qfloor x.
Proof.
  destruct x as [n d]. unfold Qle, JS.trunc, Qfloor. cbn. intros H.
  apply Z.quot_div_nonneg; lia.
Qed.

Lemma Qfloor_unique (x : Q) (z : Z) :
  (inject_Z z <= x)%Q -> (x < inject_Z (z + 1))%Q -> Qfloor x = z.
Proof.
  intros Hlo Hhi. apply Z.le_antisymm.
  - apply Z.lt_succ_r. rewrite Zlt_Qlt.
    eapply Qle_lt_trans; [apply Qfloor_le|]. exact Hhi.
  - rewrite <- (Qfloor_Z z). by apply Qfloor_resp_le.
Qed.

Lemma rem_range (a b : Q) :
  (0 <= a)%Q -> (0 < b)%Q -> (0 <= rem a b)%Q /\ (rem a b < b)%Q.
Proof.
  intros Ha Hb. unfold rem.
  assert (Hq : (0 <= a / b)%Q).
  { apply Qle_shift_div_l; [exact Hb|]. lra. }
  rewrite trunc_floor by exact Hq.
  pose proof (Qfloor_le (a / b)) as Hlo.
  pose proof (Qlt_floor (a / b)) as Hhi.
  rewrite inject_Z_plus in Hhi.
  assert (Hab : (a == a / b * b)%Q) by (field; lra).
  set (f := inject_Z (Qfloor (a / b))) in *.
  assert (Hlo' : (f * b <= a / b * b)%Q) by (apply Qmult_le_compat_r; lra).
  assert (Hhi' : (a / b * b < (f + inject_Z 1) * b)%Q)
    by (apply Qmult_lt_compat_r; lra).
  unfold inject_Z at 1 in Hhi'. split; lra.
Qed.

Lemma rem_periodic (a b : Q) (k : nat) :
  (0 <= a)%Q -> (0 < b)%Q ->
  (rem (a + inject_Z (Z.of_nat k) * b) b == rem a b)%Q.
Proof.
  intros Ha Hb. unfold rem.
  set (n := inject_Z (Z.of_nat k)).
  assert (Hn : (0 <= n)%Q).
  { subst n. change (0 # 1)%Q with (inject_Z 0). rewrite <- Zle_Qle. lia. }
  assert (Hq : (0 <= a / b)%Q).
  { apply Qle_shift_div_l; [exact Hb|]. lra. }
  assert (Hsum : ((a + n * b) / b == a / b + n)%Q) by (field; lra).
  assert (Hq' : (0 <= (a + n * b) / b)%Q) by (rewrite Hsum; lra).
  rewrite !trunc_floor by assumption.
  assert (Hf : Qfloor ((a + n * b) / b) = Qfloor (a / b) + Z.of_nat k).
  { apply Qfloor_unique; rewrite Hsum.
    - rewrite inject_Z_plus. fold n. pose proof (Qfloor_le (a / b)). lra.
    - rewrite <- Z.add_assoc, (Z.add_comm (Z.of_nat k)), Z.add_assoc.
      rewrite inject_Z_plus. fold n. pose proof (Qlt_floor (a / b)). lra. }
  rewrite Hf, inject_Z_plus. fold n. ring.
Qed.

(** X26.  With a positive loop duration and a clock that has not run
    backwards since the start of the playback (of the capture, while
    capturing), the play head is placed at a percentage from 0 up to, but
    not including, 100; and any whole number of loop durations later it is
    placed at the same percentage. *)
Theorem play_head_wraps (env env' : Env) (k : nat) (w : World) :
  (0 < loopDurationMs (recorder w))%Q ->
  (clockBase w <= now env)%Q ->
  (now env'
   == now env + inject_Z (Z.of_nat k) * loopDurationMs (recorder w))%Q ->
  exists p p' : Q,
    updatePlaybackHead true env w = Some p
    /\ updatePlaybackHead true env' w = Some p'
    /\ (0 <= p)%Q /\ (p < 100 # 1)%Q /\ (p' == p)%Q.
Proof.
  intros Hd Hbase Hlater. unfold updatePlaybackHead. cbn [negb orb].
  fold (clockBase w).
  assert (Hne : Qeq_bool (loopDurationMs (recorder w)) (0 # 1) = false).
  { destruct (Qeq_bool _ _) eqn:E; [|reflexivity].
    apply Qeq_bool_iff in E. rewrite E in Hd. by apply Qlt_irrefl in Hd. }
  assert (Hpos : JS.Qltb (0 # 1) (loopDurationMs (recorder w)) = true)
    by by apply Qltb_lt.
  rewrite Hne, Hpos. eexists _, _. split; [reflexivity|].
  split; [reflexivity|].
  set (d := loopDurationMs (recorder w)) in *.
  set (a := (now env - clockBase w)%Q).
  assert (Ha : (0 <= a)%Q) by (subst a; lra).
  destruct (rem_range a d Ha Hd) as [Hlo Hhi].
  assert (Hp : (rem (now env' - clockBase w) d == rem a d)%Q).
  { rewrite <- (rem_periodic a d k Ha Hd).
    unfold rem.
    assert (He : (now env' - clockBase w
                  == a + inject_Z (Z.of_nat k) * d)%Q)
      by (subst a; rewrite Hlater; ring).
    assert (Hdiv : ((now env' - clockBase w) / d
                    == (a + inject_Z (Z.of_nat k) * d) / d)%Q)
      by (rewrite He; reflexivity).
    rewrite (trunc_comp _ _ Hdiv), He. reflexivity. }
  split; [|split].
  - apply Qmult_le_0_compat; [|lra]. apply Qle_shift_div_l; [exact Hd|]. lra.
  - assert (rem a d / d < 1)%Q by (apply Qlt_shift_div_r; lra). lra.
  - rewrite Hp. reflexivity.
Qed.

Lemma play_head_wraps_witness :
  let w :=
    onRecorder
      (fun r => set_playbackStart (500 # 1) (set_loopDurationMs (2000 # 1) r))
      initialWorld in
  let env := RecorderSpec.studio (1000 # 1) in
  let env' := RecorderSpec.studio (7000 # 1) in
  (0 < loopDurationMs (recorder w))%Q
  /\ (clockBase w <= now env)%Q
  /\ (now env'
      == now env + inject_Z (Z.of_nat 3) * loopDurationMs (recorder w))%Q
  /\ exists p p' : Q,
       updatePlaybackHead true env w = Some p
       /\ updatePlaybackHead true env' w = Some p'
       /\ (0 <= p)%Q /\ (p < 100 # 1)%Q /\ (p' == p)%Q.
Proof.
  intros w env env'.
  split; [reflexivity|]. split; [by vm_compute|]. split; [reflexivity|].
  apply (play_head_wraps env env' 3 w);
    [reflexivity | by vm_compute | reflexivity].
Defined.

End PlayheadFacts.

(** ** The palette extracted from an image *)

Section ThemeFacts.

Import Theme ThemeSpec.

(** *** k-means *)

Lemma closer_fold (px : Color) (l : list Color) (minDist : option Z)
    (minIdx i : nat) :
  let '(_, minIdx', i') := foldl (closer px) (minDist, minIdx, i) l in
  i' = (i + length l)%nat /\ (minIdx' = minIdx \/ (i <= minIdx' < i')%nat).
Proof.
  revert minDist minIdx i.
  induction l as [|c rest IH]; intros minDist minIdx i.
  - cbn. split; [lia | by left].
  - cbn [foldl closer length].
    destruct (match minDist with
              | None => true
              | Some m => distance px c <? m
              end).
    + specialize (IH (Some (distance px c)) i (S i)).
      destruct (foldl (closer px) (Some (distance px c), i, S i) rest)
        as [[d mi] i'].
      destruct IH as [Hi Hm]. split; [lia|]. right. lia.
    + specialize (IH minDist minIdx (S i)).
      destruct (foldl (closer px) (minDist, minIdx, S i) rest)
        as [[d mi] i'].
      destruct IH as [Hi Hm]. split; [lia|]. destruct Hm; [by left|].
      right. lia.
Qed.

Lemma nearest_bound (centroids : list Color) (px : Color) :
  centroids <> [] -> (nearest centroids px < length centroids)%nat.
Proof.
  intros Hne. unfold nearest.
  pose proof (closer_fold px centroids None 0 0) as H.
  destruct (foldl (closer px) (None, 0%nat, 0%nat) centroids) as [[d mi] i'].
  cbn [fst snd]. destruct H as [Hi Hm].
  destruct centroids; [done|]. cbn [length] in *. lia.
Qed.

Lemma assign_clusters (P : Color -> Prop) (centroids : list Color) (k : nat)
    (pixels : list Color) :
  centroids <> [] -> length centroids = k -> Forall P pixels ->
  exists clusters : list (list Color),
    assign centroids k pixels = Some clusters
    /\ length clusters = k
    /\ Forall (Forall P) clusters.
Proof.
  intros Hne Hk Hpx. unfold assign.
  match goal with |- context [foldl ?f _ _] => set (step := f) end.
  enough (Hgen : forall start : list (list Color),
            length start = k -> Forall (Forall P) start ->
            exists clusters : list (list Color),
              foldl step (Some start) pixels = Some clusters
              /\ length clusters = k /\ Forall (Forall P) clusters).
  { apply Hgen; [by rewrite length_replicate|].
    apply Forall_replicate. constructor. }
  induction Hpx as [|px rest Hp _ IH]; intros start Hlen Hcl.
  - exists start. by split_and!.
  - cbn [foldl]. unfold step at 2. cbn [mbind option_bind].
    pose proof (nearest_bound centroids px Hne) as Hn.
    destruct (lookup_lt_is_Some_2 start (nearest centroids px))
      as [cluster Hc]; [lia|].
    rewrite Hc. cbn [mbind option_bind]. apply IH.
    + by rewrite length_insert.
    + apply Forall_insert; [exact Hcl|].
      apply Forall_app. split; [|by repeat constructor].
      eapply Forall_lookup_1; [exact Hcl | exact Hc].
Qed.

Lemma round_integer (z : Z) : JS.round (inject_Z z) = z.
Proof.
  unfold JS.round. apply Z.le_antisymm.
  - apply Z.lt_succ_r. rewrite Zlt_Qlt.
    eapply Qle_lt_trans; [apply Qfloor_le|].
    rewrite <- Z.add_1_r, inject_Z_plus. unfold inject_Z at 3. lra.
  - rewrite <- (Qfloor_Z z) at 1. apply Qfloor_resp_le. lra.
Qed.

Lemma total_bounds (channel : Color -> Z) (lo hi : Z) (cluster : list Color)
    (start : Z) :
  Forall (fun px => lo <= channel px <= hi) cluster ->
  start + Z.of_nat (length cluster) * lo
  <= foldl (fun sum px => sum + channel px) start cluster
  <= start + Z.of_nat (length cluster) * hi.
Proof.
  intros H. revert start.
  induction H as [|px rest Hp _ IH]; intros start; [cbn; lia|].
  cbn [foldl length]. specialize (IH (start + channel px)). lia.
Qed.

Lemma rounded_average (total n lo hi : Z) :
  0 < n -> n * lo <= total <= n * hi ->
  lo <= JS.round (inject_Z total / inject_Z n) <= hi.
Proof.
  intros Hn [Hlo Hhi].
  assert (Hq : (0 < inject_Z n)%Q).
  { change (0 # 1)%Q with (inject_Z 0). rewrite <- Zlt_Qlt. lia. }
  split.
  - apply Z.le_trans with (JS.round (inject_Z lo));
      [by rewrite round_integer|].
    apply round_mono. apply Qle_shift_div_l; [exact Hq|].
    rewrite <- inject_Z_mult, <- Zle_Qle. lia.
  - apply Z.le_trans with (JS.round (inject_Z hi));
      [|by rewrite round_integer].
    apply round_mono. apply Qle_shift_div_r; [exact Hq|].
    rewrite <- inject_Z_mult, <- Zle_Qle. lia.
Qed.

Lemma mean_within (lo hi : Z) (cluster : list Color) :
  cluster <> [] -> Forall (channelsWithin lo hi) cluster ->
  channelsWithin lo hi (mean cluster).
Proof.
  intros Hne H. unfold mean, channelsWithin. cbn [red green blue].
  assert (Hn : 0 < Z.of_nat (length cluster)).
  { destruct cluster; [done|]. cbn [length]. lia. }
  split; [|split]; apply rounded_average; try exact Hn.
  - pose proof (total_bounds red lo hi cluster 0) as Hb.
    rewrite !Z.add_0_l in Hb. rewrite !(Z.mul_comm (Z.of_nat _)) in Hb.
    rewrite !(Z.mul_comm _ lo), !(Z.mul_comm _ hi). apply Hb.
    eapply Forall_impl; [exact H|]. by intros px (? & _ & _).
  - pose proof (total_bounds green lo hi cluster 0) as Hb.
    rewrite !Z.add_0_l in Hb. rewrite !(Z.mul_comm (Z.of_nat _)) in Hb.
    rewrite !(Z.mul_comm _ lo), !(Z.mul_comm _ hi). apply Hb.
    eapply Forall_impl; [exact H|]. by intros px (_ & ? & _).
  - pose proof (total_bounds blue lo hi cluster 0) as Hb.
    rewrite !Z.add_0_l in Hb. rewrite !(Z.mul_comm (Z.of_nat _)) in Hb.
    rewrite !(Z.mul_comm _ lo), !(Z.mul_comm _ hi). apply Hb.
    eapply Forall_impl; [exact H|]. by intros px (_ & _ & ?).
Qed.

Lemma updateFrom_within (lo hi : Z) (centroids : list Color)
    (clusters : list (list Color)) (i : nat) :
  (i + length clusters <= length centroids)%nat ->
  Forall (channelsWithin lo hi) centroids ->
  Forall (Forall (channelsWithin lo hi)) clusters ->
  exists newCentroids : list Color,
    updateFrom i centroids clusters = Some newCentroids
    /\ length newCentroids = length clusters
    /\ Forall (channelsWithin lo hi) newCentroids.
Proof.
  intros Hlen Hcs Hcl. revert i Hlen.
  induction Hcl as [|cluster rest Hc _ IH]; intros i Hlen.
  - exists []. by split_and!.
  - cbn [updateFrom length] in *.
    destruct (IH (S i)) as (new & -> & Hl & Hw); [lia|].
    destruct cluster as [|px cluster].
    + destruct (lookup_lt_is_Some_2 centroids i) as [c Hi]; [lia|].
      rewrite Hi. cbn [mbind option_bind]. eexists. split; [reflexivity|].
      cbn [length]. split; [lia|]. constructor; [|exact Hw].
      eapply Forall_lookup_1; [exact Hcs | exact Hi].
    + cbn [mbind option_bind]. eexists. split; [reflexivity|].
      cbn [length]. split; [lia|]. constructor; [|exact Hw].
      by apply mean_within.
Qed.

Lemma iteration_within (lo hi : Z) (k : nat) (pixels centroids : list Color) :
  (0 < k)%nat -> length centroids = k ->
  Forall (channelsWithin lo hi) pixels ->
  Forall (channelsWithin lo hi) centroids ->
  exists newCentroids : list Color,
    iteration k pixels centroids = Some newCentroids
    /\ length newCentroids = k
    /\ Forall (channelsWithin lo hi) newCentroids.
Proof.
  intros Hk Hlen Hpx Hcs. unfold iteration.
  assert (Hne : centroids <> [])
    by (destruct centroids; [cbn in Hlen; lia | done]).
  destruct (assign_clusters (channelsWithin lo hi) centroids k pixels
              Hne Hlen Hpx)
    as (clusters & -> & Hl & Hcl).
  cbn [mbind option_bind]. unfold update.
  destruct (updateFrom_within lo hi centroids clusters 0)
    as (new & Hnew & Hl' & Hw); [lia | exact Hcs | exact Hcl |].
  exists new. split; [exact Hnew|]. split; [lia | exact Hw].
Qed.

Lemma initial_centroids (P : Color -> Prop) (pixels : list Color)
    (k : nat) :
  pixels <> [] -> (0 < k)%nat -> Forall P pixels ->
  exists centroids : list Color,
    mapM (fun i => pixels !! (i * (length pixels / k))%nat) (seq 0 k)
    = Some centroids
    /\ length centroids = k /\ Forall P centroids.
Proof.
  intros Hne Hk Hpx.
  assert (Hin : Forall (fun i => (i * (length pixels / k) < length pixels)%nat)
                  (seq 0 k)).
  { apply Forall_forall. intros i Hi. apply list_elem_of_In, in_seq in Hi.
    assert (0 < length pixels)%nat by (destruct pixels; [done | cbn; lia]).
    pose proof (Nat.Div0.mul_div_le (length pixels) k) as Hd.
    set (s := (length pixels / k)%nat) in *. nia. }
  destruct (mapM (fun i => pixels !! (i * (length pixels / k))%nat) (seq 0 k))
    as [centroids|] eqn:E.
  - exists centroids. split; [reflexivity|].
    pose proof (length_mapM _ _ _ E) as Hl. rewrite length_seq in Hl.
    split; [done|].
    apply mapM_Some in E. clear Hl Hin.
    induction E as [|i c l cs Hic _ IH]; [constructor|].
    constructor; [|exact IH].
    eapply Forall_lookup_1; [exact Hpx | exact Hic].
  - apply mapM_None in E.
    apply Exists_exists in E as (i & Hi & Hnone).
    rewrite Forall_forall in Hin. specialize (Hin i Hi).
    apply lookup_ge_None in Hnone. lia.
Qed.

Lemma kMeans_within (lo hi : Z) (pixels : list Color) (k maxIter : nat) :
  pixels <> [] -> (0 < k)%nat -> Forall (channelsWithin lo hi) pixels ->
  exists centroids : list Color,
    kMeans pixels k maxIter = Some centroids
    /\ length centroids = k
    /\ Forall (channelsWithin lo hi) centroids.
Proof.
  intros Hne Hk Hpx. unfold kMeans.
  destruct (initial_centroids (channelsWithin lo hi) pixels k Hne Hk Hpx)
    as (cs0 & -> & Hl0 & Hw0).
  cbn [mbind option_bind].
  induction maxIter as [|n IH]; [by exists cs0|].
  rewrite Nat.iter_succ. destruct IH as (cs & -> & Hl & Hw).
  cbn [mbind option_bind]. by apply iteration_within.
Qed.

(** X27.  On an image with at least one pixel and for [k >= 1], [kMeans]
    returns, after any number of rounds, exactly [k] colours, and every
    channel of every colour lies within the bounds of the channels of the
    pixels: the rounded average of a cluster never leaves the range of its
    members, and no pixel is ever assigned to a cluster that does not
    exist.  On an empty image it raises. *)
Theorem kMeans_stays_in_gamut (lo hi : Z) (pixels : list Color)
    (k maxIter : nat) :
  (0 < k)%nat -> Forall (channelsWithin lo hi) pixels ->
  match pixels with
  | [] => kMeans pixels k maxIter = None
  | _ :: _ =>
      exists centroids : list Color,
        kMeans pixels k maxIter = Some centroids
        /\ length centroids = k
        /\ Forall (channelsWithin lo hi) centroids
  end.
Proof.
  intros Hk Hpx. destruct pixels as [|px rest].
  - unfold kMeans. destruct k as [|k]; [lia|]. reflexivity.
  - by apply kMeans_within.
Qed.

Lemma kMeans_stays_in_gamut_witness :
  let pixels :=
    [ {| red := 10; green := 20; blue := 30 |};
      {| red := 200; green := 100; blue := 0 |};
      {| red := 12; green := 22; blue := 28 |} ] in
  (0 < 2)%nat /\ Forall (channelsWithin 0 255) pixels
  /\ exists centroids : list Color,
       kMeans pixels 2 20 = Some centroids
       /\ length centroids = 2%nat
       /\ Forall (channelsWithin 0 255) centroids.
Proof.
  intros pixels.
  assert (H : Forall (channelsWithin 0 255) pixels).
  { repeat constructor; unfold channelsWithin; cbn [red green blue]; lia. }
  split; [lia|]. split; [exact H|].
  apply (kMeans_stays_in_gamut 0 255 pixels 2 20); [lia | exact H].
Defined.

(** *** From the palette to CSS colours *)

Lemma insertByLuminance_Forall (P : Color -> Prop) (c : Color)
    (l : list Color) :
  P c -> Forall P l -> Forall P (insertByLuminance c l).
Proof.
  intros Hc Hl.
  induction Hl as [|x rest Hx Hrest IH]; cbn [insertByLuminance].
  - by repeat constructor.
  - destruct (JS.Qltb _ _); by repeat constructor.
Qed.

Lemma insertByLuminance_length (c : Color) (l : list Color) :
  length (insertByLuminance c l) = S (length l).
Proof.
  induction l as [|x rest IH]; [reflexivity|]. cbn [insertByLuminance].
  destruct (JS.Qltb _ _); cbn [length]; lia.
Qed.

Lemma insertByLuminance_sorted (c : Color) (l : list Color) :
  sortedByLuminance l -> sortedByLuminance (insertByLuminance c l).
Proof.
  induction l as [|x rest IH]; [cbn; auto|].
  intros [Hx Hrest]. cbn [insertByLuminance].
  destruct (JS.Qltb (luminance x) (luminance c)) eqn:E.
  - apply Qltb_lt in E. split; [|by apply IH].
    apply insertByLuminance_Forall; [by apply Qlt_le_weak | exact Hx].
  - apply Qltb_ge in E. split; [|by split].
    constructor; [exact E|].
    eapply Forall_impl; [exact Hx|]. cbn. intros y Hy.
    by apply Qle_trans with (luminance x).
Qed.

Lemma sortByLuminance_facts (P : Color -> Prop) (colors : list Color) :
  Forall P colors ->
  Forall P (sortByLuminance colors)
  /\ length (sortByLuminance colors) = length colors
  /\ sortedByLuminance (sortByLuminance colors).
Proof.
  induction 1 as [|c rest Hc _ (IH1 & IH2 & IH3)]; [by split_and!|].
  change (sortByLuminance (c :: rest))
    with (insertByLuminance c (sortByLuminance rest)).
  split; [by apply insertByLuminance_Forall|].
  split; [rewrite insertByLuminance_length; cbn [length]; lia|].
  by apply insertByLuminance_sorted.
Qed.

Lemma byte_digits :
  forallb
    (fun n =>
       match padStart2 (toString16 (Z.of_nat n)) with
       | String a (String b EmptyString) => isHexDigit a && isHexDigit b
       | _ => false
       end)
    (seq 0 256) = true.
Proof. vm_compute. reflexivity. Qed.

Lemma padStart2_byte (v : Z) :
  0 <= v <= 255 ->
  exists a b : ascii,
    padStart2 (toString16 v) = String a (String b EmptyString)
    /\ isHexDigit a = true /\ isHexDigit b = true.
Proof.
  intros Hv. pose proof byte_digits as H.
  rewrite forallb_forall in H. specialize (H (Z.to_nat v)).
  rewrite Z2Nat.id in H by lia.
  assert (Hin : In (Z.to_nat v) (seq 0 256)) by (apply in_seq; lia).
  specialize (H Hin).
  destruct (padStart2 (toString16 v)) as [|a [|b [|c rest]]]; try discriminate.
  apply andb_prop in H as [Ha Hb]. by exists a, b.
Qed.

Lemma hex_color (c : Color) :
  channelsWithin 0 255 c -> isHexColor (hex c) = true.
Proof.
  intros (Hr & Hg & Hb). unfold hex.
  destruct (padStart2_byte (red c) Hr) as (r1 & r2 & -> & Hr1 & Hr2).
  destruct (padStart2_byte (green c) Hg) as (g1 & g2 & -> & Hg1 & Hg2).
  destruct (padStart2_byte (blue c) Hb) as (b1 & b2 & -> & Hb1 & Hb2).
  change (isHexColor
            (String "#"
               (String r1 (String r2 (String g1 (String g2
                  (String b1 (String b2 EmptyString))))))) = true).
  unfold isHexColor.
  cbn [String.length Nat.eqb list_ascii_of_string forallb andb].
  by rewrite Hr1, Hr2, Hg1, Hg2, Hb1, Hb2.
Qed.

(** X28.  From the visible pixels of an image (channels 0..255) the
    extraction either stops, exactly when there are fewer than five
    pixels, or produces five strings, each a [#] followed by six
    hexadecimal digits, for five colours in order of luminance from the
    darkest to the lightest. *)
Theorem extracted_palette_is_css (pixels : list Color) :
  Forall (channelsWithin 0 255) pixels ->
  match extractHex pixels with
  | None => (length pixels < 5)%nat
  | Some hexes =>
      (5 <= length pixels)%nat
      /\ length hexes = 5%nat
      /\ Forall (fun s => isHexColor s = true) hexes
      /\ exists colors : list Color,
           hexes = hex <$> colors /\ sortedByLuminance colors
  end.
Proof.
  intros Hpx. unfold extractHex.
  destruct (Nat.ltb_spec (length pixels) 5) as [Hlt|Hge]; [exact Hlt|].
  assert (Hne : pixels <> []) by (destruct pixels; [cbn in Hge; lia | done]).
  destruct (kMeans_within 0 255 pixels 5 20 Hne ltac:(lia) Hpx)
    as (centroids & -> & Hl & Hw).
  cbn [fmap option_fmap option_map]. unfold paletteHex.
  destruct (sortByLuminance_facts (channelsWithin 0 255) centroids Hw)
    as (Hw' & Hl' & Hs).
  split; [exact Hge|]. split; [rewrite length_fmap; lia|]. split.
  - apply Forall_fmap. eapply Forall_impl; [exact Hw'|].
    intros c Hc. by apply hex_color.
  - by exists (sortByLuminance centroids).
Qed.

Lemma extracted_palette_is_css_witness :
  let pixels := replicate 6 {| red := 255; green := 128; blue := 0 |} in
  Forall (channelsWithin 0 255) pixels
  /\ match extractHex pixels with
     | None => (length pixels < 5)%nat
     | Some hexes =>
         (5 <= length pixels)%nat
         /\ length hexes = 5%nat
         /\ Forall (fun s => isHexColor s = true) hexes
         /\ exists colors : list Color,
              hexes = hex <$> colors /\ sortedByLuminance colors
     end.
Proof.
  intros pixels.
  assert (H : Forall (channelsWithin 0 255) pixels).
  { apply Forall_replicate. unfold channelsWithin. cbn [red green blue].
    lia. }
  split; [exact H|]. exact (extracted_palette_is_css pixels H).
Defined.

End ThemeFacts.
